(** * optimesh: the iteration runner, the averaging aggregator and the ODT rules

    A shallow embedding of [optimesh/helpers.py], [optimesh/odt.py] and
    [optimesh/cli/main.py].

    Numbers.  numpy works on IEEE doubles.  The code is read in two
    arithmetics.

    - The exact reading.  A double is modelled by [float]: a real number, or
      one of the three special values [+inf], [-inf], [nan].  Arithmetic on
      finite values is exact (no rounding, no overflow, no underflow, no
      signed zero); the special values follow IEEE 754 as numpy implements
      it: they are produced by division by zero and by [sqrt] of a negative
      number, they propagate through arithmetic, and every ordered comparison
      with [nan] is false.  The properties of data flow and of the formulas
      the code computes are stated in this reading.

    - binary64.  The steps whose properties depend on rounding (the clamp of
      the displacement, the exit test of the runner, the projection loop and
      the energy) are embedded a second time over an arbitrary arithmetic
      (module [Generic]); the exact reading is one instance, the doubles of
      the machine (module [Binary64], the kernel's primitive floats) the
      other.  Where a property of the exact reading fails on the machine, it
      is refuted in [Binary64].

    Arrays.  A numpy array of shape [(n,)] is a [list]; an array of shape
    [(n, 2)] is a list of pairs (the meshes are planar).  Index and shape
    errors are raised as numpy raises them.

    Control.  Python exceptions and the unbounded [while] loops are modelled by
    the monad [result]: a computation returns a value, raises, or runs out of
    fuel. *)

From Stdlib Require Import Reals Lra Lia.
From stdpp Require Import base decidable option list.
From Stdlib Require String.
From Stdlib Require PrimFloat FloatOps SpecFloat Uint63.

(** [map] is stdpp's list [fmap] throughout. *)
Abbreviation map := (fmap (M:=list)) (only parsing).

(** ** IEEE values with exact finite arithmetic *)

(** The values of the exact reading.  The operations below round nothing
    and neither overflow nor underflow; what the machine does instead is in
    the modules [Generic] and [Binary64]. *)
Inductive float : Type :=
  | Fin (r : R)
  | PInf
  | NInf
  | NaN.

#[global] Instance Rlt_decision (a b : R) : Decision (a < b)%R := Rlt_dec a b.
#[global] Instance Rle_decision (a b : R) : Decision (a <= b)%R := Rle_dec a b.
#[global] Instance Req_decision : EqDecision R := Req_dec_T.

Definition is_finite (a : float) : Prop :=
  match a with Fin _ => True | _ => False end.

(** The value an infinity takes when multiplied by the finite [r]. *)
Definition inf_of_sign (r : R) (pos neg : float) : float :=
  if decide (0 < r)%R then pos else if decide (r < 0)%R then neg else NaN.

Definition fneg (a : float) : float :=
  match a with
  | Fin r => Fin (- r)
  | PInf => NInf
  | NInf => PInf
  | NaN => NaN
  end.

Definition fadd (a b : float) : float :=
  match a, b with
  | NaN, _ | _, NaN => NaN
  | Fin x, Fin y => Fin (x + y)
  | PInf, NInf | NInf, PInf => NaN
  | PInf, _ | _, PInf => PInf
  | NInf, _ | _, NInf => NInf
  end.

Definition fsub (a b : float) : float := fadd a (fneg b).

Definition fmul (a b : float) : float :=
  match a, b with
  | NaN, _ | _, NaN => NaN
  | Fin x, Fin y => Fin (x * y)
  | PInf, Fin r | Fin r, PInf => inf_of_sign r PInf NInf
  | NInf, Fin r | Fin r, NInf => inf_of_sign r NInf PInf
  | PInf, PInf | NInf, NInf => PInf
  | PInf, NInf | NInf, PInf => NInf
  end.

(** True division.  numpy does not raise on a zero divisor: it emits a
    [RuntimeWarning] and stores [inf] or [nan]. *)
Definition fdiv (a b : float) : float :=
  match a, b with
  | NaN, _ | _, NaN => NaN
  | Fin x, Fin y =>
      if decide (y = 0)%R then inf_of_sign x PInf NInf else Fin (x / y)
  | Fin _, (PInf | NInf) => Fin 0
  | PInf, Fin y => if decide (y < 0)%R then NInf else PInf
  | NInf, Fin y => if decide (y < 0)%R then PInf else NInf
  | (PInf | NInf), (PInf | NInf) => NaN
  end.

Definition fsqrt (a : float) : float :=
  match a with
  | Fin r => if decide (r < 0)%R then NaN else Fin (sqrt r)
  | PInf => PInf
  | NInf | NaN => NaN
  end.

Definition fabs (a : float) : float :=
  match a with
  | Fin r => Fin (Rabs r)
  | PInf | NInf => PInf
  | NaN => NaN
  end.

(** [a < b]; false as soon as one side is [nan]. *)
Definition flt (a b : float) : bool :=
  match a, b with
  | NaN, _ | _, NaN => false
  | Fin x, Fin y => bool_decide (x < y)%R
  | NInf, (Fin _ | PInf) => true
  | Fin _, PInf => true
  | _, _ => false
  end.

(** [a <= b]; false as soon as one side is [nan]. *)
Definition fle (a b : float) : bool :=
  match a, b with
  | NaN, _ | _, NaN => false
  | Fin x, Fin y => bool_decide (x <= y)%R
  | NInf, _ => true
  | _, PInf => true
  | _, _ => false
  end.

Definition fgt (a b : float) : bool := flt b a.
Definition fge (a b : float) : bool := fle b a.

(** [numpy.minimum] and [numpy.maximum]: a [nan] operand gives [nan]. *)
Definition fminimum (a b : float) : float :=
  match a, b with
  | NaN, _ | _, NaN => NaN
  | _, _ => if fle a b then a else b
  end.

Definition fmaximum (a b : float) : float :=
  match a, b with
  | NaN, _ | _, NaN => NaN
  | _, _ => if fge a b then a else b
  end.

(** A Python [int] used where a double is expected. *)
Definition of_nat (k : nat) : float := Fin (INR k).

(** ** Planar vectors: the rows of an [(n, 2)] array *)

Definition vec2 : Type := float * float.

Definition vzero : vec2 := (Fin 0, Fin 0).
Definition vadd (u v : vec2) : vec2 := (fadd u.1 v.1, fadd u.2 v.2).
Definition vsub (u v : vec2) : vec2 := (fsub u.1 v.1, fsub u.2 v.2).
(** [s * v] *)
Definition vscale (s : float) (v : vec2) : vec2 := (fmul s v.1, fmul s v.2).
(** [v * s] *)
Definition vmuls (v : vec2) (s : float) : vec2 := (fmul v.1 s, fmul v.2 s).
(** [v / s] *)
Definition vdivs (v : vec2) (s : float) : vec2 := (fdiv v.1 s, fdiv v.2 s).
(** One row of [numpy.einsum("ij,ij->i", u, v)]. *)
Definition vdot (u v : vec2) : float := fadd (fmul u.1 v.1) (fmul u.2 v.2).

Definition vfinite (v : vec2) : Prop := is_finite v.1 /\ is_finite v.2.

(** Embedding of real data. *)
Definition vfin (p : R * R) : vec2 := (Fin p.1, Fin p.2).

(** ** Exceptions and fuel *)

Inductive exn : Type :=
  IndexError | ValueError | AssertionError | OverflowError.

Inductive result (A : Type) : Type :=
  | Ok (a : A)
  | Raise (e : exn)
  | OutOfFuel.
Arguments Ok {A} a.
Arguments Raise {A} e.
Arguments OutOfFuel {A}.

#[global] Instance result_ret : MRet result := fun A a => Ok a.
#[global] Instance result_bind : MBind result := fun A B f c =>
  match c with
  | Ok a => f a
  | Raise e => Raise e
  | OutOfFuel => OutOfFuel
  end.
#[global] Instance result_fmap : FMap result := fun A B f c =>
  match c with
  | Ok a => Ok (f a)
  | Raise e => Raise e
  | OutOfFuel => OutOfFuel
  end.

(** ** numpy primitives on lists *)

(** [a op= b]: the right operand must have the shape of [a], or one row. *)
Definition inplace {A B} (f : A -> B -> A) (a : list A) (b : list B)
  : result (list A) :=
  if decide (length b = length a) then Ok (zip_with f a b)
  else match b with
       | [y] => Ok (map (fun x => f x y) a)
       | _ => Raise ValueError
       end.

(** [a op b] with numpy's broadcasting along the first axis. *)
Definition broadcast {A B C} (f : A -> B -> C) (a : list A) (b : list B)
  : result (list C) :=
  if decide (length a = length b) then Ok (zip_with f a b)
  else match a, b with
       | [x], _ => Ok (map (f x) b)
       | _, [y] => Ok (map (fun x => f x y) a)
       | _, _ => Raise ValueError
       end.

(** Length of the output of [numpy.bincount(idx, minlength=n)]. *)
Definition bincount_len (idx : list nat) (minlength : nat) : nat :=
  foldr (fun i n => Nat.max (S i) n) minlength idx.

(** [numpy.bincount(idx, weights, minlength)]: [out[idx[k]] += weights[k]]
    for [k] in order, on an array of zeros.  For an empty index array numpy
    returns the zeros before it looks at the weights. *)
Definition bincount (idx : list nat) (weights : list float) (minlength : nat)
  : result (list float) :=
  match idx with
  | [] => Ok (replicate minlength (Fin 0))
  | _ =>
      if decide (length weights = length idx) then
        Ok (foldl (fun out iw => alter (fun s => fadd s iw.2) iw.1 out)
                  (replicate (bincount_len idx minlength) (Fin 0))
                  (zip idx weights))
      else Raise ValueError
  end.

(** [numpy.bincount(idx, minlength=n)]: integer counts. *)
Definition bincount_count (idx : list nat) (minlength : nat) : list nat :=
  foldl (fun out i => alter S i out)
        (replicate (bincount_len idx minlength) 0) idx.

(** [numpy.minimum.at(a, idx, vals)]: [a[idx[k]] = minimum(a[idx[k]], vals[k])]
    for [k] in order. *)
Definition minimum_at (a : list float) (idx : list nat) (vals : list float)
  : result (list float) :=
  vals' ← (if decide (length vals = length idx) then Ok vals
           else match vals with
                | [v] => Ok (replicate (length idx) v)
                | _ => Raise ValueError
                end);
  foldl (fun acc iv =>
           a' ← acc;
           if decide (iv.1 < length a') then
             Ok (alter (fun x => fminimum x iv.2) iv.1 a')
           else Raise IndexError)
        (Ok a) (zip idx vals').

(** [a[idx]] for an integer index array. *)
Fixpoint take {A} (idx : list nat) (a : list A) : result (list A) :=
  match idx with
  | [] => Ok []
  | i :: idx' =>
      match a !! i with
      | Some x => xs ← take idx' a; Ok (x :: xs)
      | None => Raise IndexError
      end
  end.

(** [a[idx] = vals] for an integer index array and one value per index. *)
Fixpoint put {A} (idx : list nat) (vals : list A) (a : list A)
  : result (list A) :=
  match idx, vals with
  | [], [] => Ok a
  | i :: idx', v :: vals' =>
      if decide (i < length a) then put idx' vals' (<[i:=v]> a)
      else Raise IndexError
  | _, _ => Raise ValueError
  end.

(** The rows of [a] at which the mask is true. *)
Definition select {A} (mask : list bool) (a : list A) : list A :=
  omap (fun mx : bool * A => if mx.1 then Some mx.2 else None) (zip mask a).

(** [a[mask]] for a boolean mask. *)
Definition mask_select {A} (mask : list bool) (a : list A) : result (list A) :=
  if decide (length mask = length a) then Ok (select mask a)
  else Raise IndexError.

(** The rows of [a] under a mask are replaced, in order, by [vals]. *)
Fixpoint mask_fill {A} (mask : list bool) (vals : list A) (a : list A)
  : list A :=
  match mask, a with
  | true :: mask', x :: a' =>
      match vals with
      | v :: vals' => v :: mask_fill mask' vals' a'
      | [] => x :: mask_fill mask' [] a'
      end
  | false :: mask', x :: a' => x :: mask_fill mask' vals a'
  | _, _ => a
  end.

Fixpoint count_true (mask : list bool) : nat :=
  match mask with
  | [] => 0
  | b :: mask' => Nat.b2n b + count_true mask'
  end.

(** [a[mask] = vals] for a boolean mask: one value per selected row, or a
    single value for all of them. *)
Definition mask_assign {A} (mask : list bool) (vals : list A) (a : list A)
  : result (list A) :=
  if decide (length mask = length a) then
    if decide (length vals = count_true mask) then Ok (mask_fill mask vals a)
    else match vals with
         | [v] => Ok (zip_with (fun (b : bool) x => if b then v else x) mask a)
         | _ => Raise ValueError
         end
  else Raise IndexError.

Definition np_sum (a : list float) : float := foldl fadd (Fin 0) a.

(** [numpy.dot] of two vectors. *)
Definition np_dot (a b : list float) : result float :=
  if decide (length a = length b) then Ok (np_sum (zip_with fmul a b))
  else Raise ValueError.

(** [numpy.max]: raises on an empty array, propagates [nan]. *)
Definition np_max (a : list float) : result float :=
  match a with
  | [] => Raise ValueError
  | x :: a' => Ok (foldl fmaximum x a')
  end.

Definition np_all (a : list bool) : bool := forallb (fun b => b) a.
Definition np_any (a : list bool) : bool := existsb (fun b => b) a.

(** [a.reshape(-1)] of an [(n, 2)] array, and [x.reshape(-1, 2)]. *)
Definition flatten2 (a : list vec2) : list float :=
  concat (map (fun v : vec2 => [v.1; v.2]) a).

Fixpoint reshape2 (x : list float) : result (list vec2) :=
  match x with
  | [] => Ok []
  | a :: b :: x' => r ← reshape2 x'; Ok ((a, b) :: r)
  | _ => Raise ValueError
  end.

(** ** The mesh object

    [meshplex.MeshTri] is an external collaborator.  Its state is the point
    and cell arrays together with the cached arrays derived from them; the
    attributes read by optimesh are the fields below.  An attribute access
    returns the cached array itself, not a copy. *)

Definition cell : Type := nat * nat * nat.

Record mesh : Type := Mesh {
  points : list vec2;
  cells : list cell;                  (* mesh.cells["points"] *)
  cell_circumcenters : list vec2;
  cell_barycenters : list vec2;
  cell_volumes : list float;
  cell_inradius : list float;
  is_boundary_point : list bool;
  is_interior_point : list bool;
  boundary_edges_cells : list nat     (* mesh.edges_cells[1][:, 0] *)
}.

Definition set_points (m : mesh) (p : list vec2) : mesh :=
  Mesh p (cells m) (cell_circumcenters m) (cell_barycenters m)
       (cell_volumes m) (cell_inradius m) (is_boundary_point m)
       (is_interior_point m) (boundary_edges_cells m).

Definition set_cell_circumcenters (m : mesh) (cc : list vec2) : mesh :=
  Mesh (points m) (cells m) cc (cell_barycenters m)
       (cell_volumes m) (cell_inradius m) (is_boundary_point m)
       (is_interior_point m) (boundary_edges_cells m).

(** The operations of the collaborator that optimesh calls. *)
Class MeshOps : Type := {
  MeshTri : list vec2 -> list cell -> mesh;
  update_values : mesh -> mesh;
  flip_until_delaunay : mesh -> mesh
}.

(** [cells.T]: the three columns of the cell array. *)
Definition cell_columns (cs : list cell) : list (list nat) :=
  [map (fun c : cell => c.1.1) cs;
   map (fun c : cell => c.1.2) cs;
   map (fun c : cell => c.2) cs].

(** [cells.reshape(-1)] *)
Definition cells_flat (cs : list cell) : list nat :=
  concat (map (fun c : cell => [c.1.1; c.1.2; c.2]) cs).

(** [numpy.repeat(a, 3)] *)
Definition repeat3 {A} (a : list A) : list A :=
  concat (map (fun x => [x; x; x]) a).

(** ** helpers.py: [get_new_points_averaged] *)

(** [reference_points.T] or [reference_points.T * weights]: the two rows. *)
Definition scaled_reference (reference_points : list vec2)
    (weights : option (list float)) : result (list float * list float) :=
  match weights with
  | None => Ok (map fst reference_points, map snd reference_points)
  | Some w =>
      xs ← broadcast fmul (map fst reference_points) w;
      ys ← broadcast fmul (map snd reference_points) w;
      Ok (xs, ys)
  end.

(** One pass of the loop [for i in mesh.cells["points"].T: new_points += ...]. *)
Definition add_bincounts (n : nat) (vals : list float * list float)
    (acc : result (list vec2)) (i : list nat) : result (list vec2) :=
  new_points ← acc;
  bx ← bincount i vals.1 n;
  by_ ← bincount i vals.2 n;
  inplace vadd new_points (zip bx by_).

(** One pass of the loop [for i in mesh.cells["points"].T: omega += ...]. *)
Definition add_bincount (n : nat) (w : list float)
    (acc : result (list float)) (i : list nat) : result (list float) :=
  omega ← acc;
  b ← bincount i w n;
  inplace fadd omega b.

Definition get_new_points_averaged (m : mesh) (reference_points : list vec2)
    (weights : option (list float)) : result (list vec2) :=
  scaled_rp ← scaled_reference reference_points weights;
  let n := length (points m) in
  new_points ← foldl (add_bincounts n scaled_rp) (Ok (replicate n vzero))
                     (cell_columns (cells m));
  omega ← match weights with
          | None => Ok (map of_nat (bincount_count (cells_flat (cells m)) n))
          | Some w => foldl (add_bincount n w) (Ok (replicate n (Fin 0)))
                            (cell_columns (cells m))
          end;
  inplace vdivs new_points omega.

(** ** helpers.py: [runner] *)

(** An implicit surface: the level function and its gradient, evaluated at
    each point. *)
Record implicit_surface : Type := {
  surf_f : vec2 -> float;
  surf_grad : vec2 -> vec2
}.

(** The inner loop of the runner: [while numpy.any(numpy.abs(fval) > tol)],
    in the exact reading; [Generic.project_to_surface] is the same loop over
    an arbitrary arithmetic. *)
Fixpoint project_to_surface (fuel : nat) (s : implicit_surface) (tol : float)
    (pts : list vec2) (fval : list float) : result (list vec2) :=
  if np_any (map (fun v => fgt (fabs v) tol) fval) then
    match fuel with
    | O => OutOfFuel
    | S fuel' =>
        let grad := map (surf_grad s) pts in
        let grad_dot_grad := map (fun g => vdot g g) grad in
        let step := zip_with vmuls grad (zip_with fdiv fval grad_dot_grad) in
        let pts' := zip_with vsub pts step in
        project_to_surface fuel' s tol pts' (map (surf_f s) pts')
    end
  else Ok pts.

(** Half of the smallest inradius of the cells around each point. *)
Definition max_step (m : mesh) : result (list float) :=
  ms ← minimum_at (replicate (length (points m)) PInf)
                  (cells_flat (cells m)) (repeat3 (cell_inradius m));
  Ok (map (fun x => fmul x (Fin (1 / 2))) ms).

(** [idx = step_lengths > max_step;
     diff[idx] *= max_step[idx, None] / step_lengths[idx, None]]
    in the exact reading; [Generic.clamp] is the same code over an arbitrary
    arithmetic. *)
Definition clamp (diff : list vec2) (max_step : list float)
  : result (list vec2) :=
  let step_lengths := map (fun d => fsqrt (vdot d d)) diff in
  idx ← broadcast fgt step_lengths max_step;
  d_sel ← mask_select idx diff;
  ms_sel ← mask_select idx max_step;
  sl_sel ← mask_select idx step_lengths;
  mask_assign idx (zip_with vmuls d_sel (zip_with fdiv ms_sel sl_sel)) diff.

(** A point-update rule: reads the mesh (and may write to its caches) and
    returns the candidate points. *)
Definition rule : Type := mesh -> result (list vec2 * mesh).

Section Runner.
Context `{ops : MeshOps}.
Variable get_new_points : rule.
Variable tol max_num_steps omega : float.
Variable implicit_surface_opt : option implicit_surface.
Variable implicit_surface_tol : float.

(** The first half of the body of [while True]: the displacement
    [omega * (new_points - mesh.points)], limited by [max_step]. *)
Definition displacement (m : mesh) : result (list vec2 * mesh) :=
  '(new_points, m) ← get_new_points m;
  d ← broadcast vsub new_points (points m);
  let diff := map (vscale omega) d in
  ms ← max_step m;
  diff ← clamp diff ms;
  Ok (diff, m).

(** The body of [while True], up to [mesh.flip_until_delaunay()]: returns
    the applied displacement and the new mesh state. *)
Definition iteration (fuel : nat) (m : mesh) : result (list vec2 * mesh) :=
  '(diff, m) ← displacement m;
  pts ← inplace vadd (points m) diff;
  pts ← match implicit_surface_opt with
        | None => Ok pts
        | Some s =>
            project_to_surface fuel s implicit_surface_tol pts
                               (map (surf_f s) pts)
        end;
  Ok (diff, flip_until_delaunay (update_values (set_points m pts))).

(** [j] more passes through the body: the displacement of the last pass
    ([d] if there is none) and the mesh it leaves. *)
Fixpoint iterations_from (fuel j : nat) (d : list vec2) (m : mesh)
  : result (list vec2 * mesh) :=
  match j with
  | O => Ok (d, m)
  | S j' => '(d', m') ← iteration fuel m; iterations_from fuel j' d' m'
  end.

Definition iterations (fuel j : nat) (m : mesh) : result (list vec2 * mesh) :=
  iterations_from fuel j [] m.

Definition diff_norm_2 (diff : list vec2) : list float :=
  map (fun d => vdot d d) diff.

(** [numpy.all(diff_norm_2 < tol ** 2) or k >= max_num_steps] in the exact
    reading, where [tol ** 2] is the exact square; [Generic.is_final] is the
    same test over an arbitrary arithmetic. *)
Definition is_final (k : nat) (diff : list vec2) : bool :=
  np_all (map (fun x => flt x (fmul tol tol)) (diff_norm_2 diff))
  || fge (of_nat k) max_num_steps.

(** The loop, entered with the counter at [k]. *)
Fixpoint runner_loop (fuel : nat) (k : nat) (m : mesh)
  : result (nat * float * mesh) :=
  match fuel with
  | O => OutOfFuel
  | S fuel' =>
      let k := S k in
      '(diff, m) ← iteration fuel' m;
      if is_final k diff then
        r ← np_max (map fsqrt (diff_norm_2 diff));
        Ok (k, r, m)
      else runner_loop fuel' k m
  end.

(** [runner]: the returned pair, and the mesh it leaves behind.  The
    statistics, the snapshots and the callback only observe the mesh. *)
Definition runner (fuel : nat) (m : mesh) : result (nat * float * mesh) :=
  runner_loop fuel 0 (flip_until_delaunay m).
End Runner.

(** ** odt.py: the energy *)

(** Modelled from the spec: [quadpy.t2.get_good_scheme(2)] and its
    [integrate] belong to the external library quadpy.  The spec calls the
    scheme a degree-2 numerical quadrature rule per triangle: a list of
    weights and barycentric points, applied to a triangle by weighting the
    values of the integrand at the points and scaling with the area of the
    triangle.  The scheme itself is a parameter of [energy]; that it is exact
    for polynomials of degree 2 is the hypothesis [exact_degree2] of the
    properties below. *)
Definition quadrature : Type := list (R * (R * R * R)).

Definition triangle : Type := vec2 * vec2 * vec2.

Definition triangle_volume (t : triangle) : float :=
  let '(a, b, c) := t in
  let u := vsub b a in
  let v := vsub c a in
  fmul (Fin (1 / 2)) (fabs (fsub (fmul u.1 v.2) (fmul u.2 v.1))).

Definition quadrature_point (t : triangle) (l : R * R * R) : vec2 :=
  let '(a, b, c) := t in
  let '(l0, l1, l2) := l in
  vadd (vadd (vscale (Fin l0) a) (vscale (Fin l1) b)) (vscale (Fin l2) c).

Definition integrate (scheme : quadrature) (f : vec2 -> float) (t : triangle)
  : float :=
  fmul (triangle_volume t)
       (np_sum (map (fun wl : R * (R * R * R) =>
                       fmul (Fin wl.1) (f (quadrature_point t wl.2)))
                    scheme)).

(** [x[mesh.cells["points"]]]: the corners of every cell. *)
Fixpoint take_cells {A} (cs : list cell) (a : list A)
  : result (list (A * A * A)) :=
  match cs with
  | [] => Ok []
  | c :: cs' =>
      match a !! c.1.1, a !! c.1.2, a !! c.2 with
      | Some x, Some y, Some z => r ← take_cells cs' a; Ok ((x, y, z) :: r)
      | _, _, _ => Raise IndexError
      end
  end.

(** One pass of [for i in range(3): star_volume += numpy.bincount(...)]. *)
Definition add_star (m : mesh) (uniform_density : bool)
    (acc : result (list float)) (idx : list nat) : result (list float) :=
  star_volume ← acc;
  b ← bincount idx
        (if uniform_density then cell_volumes m
         else replicate (length idx) (Fin 1))
        (length (points m));
  inplace fadd star_volume b.

(** The first term of the energy, [1 / (dim + 1) * dot(star_volume, x2)]. *)
Definition energy_linear (m : mesh) (uniform_density : bool) : result float :=
  star_volume ← foldl (add_star m uniform_density)
                      (Ok (replicate (length (points m)) (Fin 0)))
                      (cell_columns (cells m));
  let x2 := map (fun p => vdot p p) (points m) in
  d ← np_dot star_volume x2;
  Ok (fmul (Fin (1 / 3)) d).

(** The second term, the quadrature of [x[0] ** 2 + x[1] ** 2]. *)
Definition energy_integral (scheme : quadrature) (m : mesh)
    (uniform_density : bool) : result float :=
  triangles ← take_cells (cells m) (points m);
  let val := map (integrate scheme (fun x => vdot x x)) triangles in
  if uniform_density then Ok (np_sum val)
  else np_dot val (map (fdiv (Fin 1)) (cell_volumes m)).

(** [energy] in the exact reading; [Generic.energy] is the same code over an
    arbitrary arithmetic. *)
Definition energy (scheme : quadrature) (m : mesh) (uniform_density : bool)
  : result float :=
  out ← energy_linear m uniform_density;
  val ← energy_integral scheme m uniform_density;
  if fge out val then Ok (fsub out val) else Raise AssertionError.

(** ** odt.py: the fixed-point rules *)

(** A caller-supplied projection of the boundary points. *)
Definition boundary_step_fn : Type := list vec2 -> list vec2.

(** [X[idx] = mesh.points[idx]], or [X[idx] = boundary_step(X[idx].T).T]. *)
Definition place_boundary (boundary_step : option boundary_step_fn) (m : mesh)
    (X : list vec2) : result (list vec2) :=
  let idx := is_boundary_point m in
  match boundary_step with
  | None => v ← mask_select idx (points m); mask_assign idx v X
  | Some bs => v ← mask_select idx X; mask_assign idx (bs v) X
  end.

Module FixedPointUniform.
(** The reference points: the mesh's circumcenter array, with the entries of
    the cells of the boundary edges overwritten by the barycenters.  The
    array is the mesh's own, so the mesh changes with it. *)
Definition reference (m : mesh) : result (list vec2 * mesh) :=
  let cc := cell_circumcenters m in
  let bc := cell_barycenters m in
  let boundary_cell_ids := boundary_edges_cells m in
  v ← take boundary_cell_ids bc;
  cc ← put boundary_cell_ids v cc;
  Ok (cc, set_cell_circumcenters m cc).

Definition get_new_points (boundary_step : option boundary_step_fn) : rule :=
  fun m =>
    '(cc, m) ← reference m;
    X ← get_new_points_averaged m cc (Some (cell_volumes m));
    X ← place_boundary boundary_step m X;
    Ok (X, m).
End FixedPointUniform.

Module FixedPointDensityPreserving.
(** [numpy.sum(mesh.is_boundary_point[mesh.cells["points"]], axis=1) == 2] *)
Definition is_boundary_cell (m : mesh) : result (list bool) :=
  flags ← take_cells (cells m) (is_boundary_point m);
  Ok (map (fun f : bool * bool * bool =>
             bool_decide (Nat.b2n f.1.1 + Nat.b2n f.1.2 + Nat.b2n f.2 = 2))
          flags).

(** The reference points: a copy of the circumcenter array, with the
    entries of the masked cells overwritten by the barycenters. *)
Definition reference (m : mesh) : result (list vec2) :=
  let cc := cell_circumcenters m in
  mask ← is_boundary_cell m;
  v ← mask_select mask (cell_barycenters m);
  mask_assign mask v cc.

Definition get_new_points (boundary_step : option boundary_step_fn) : rule :=
  fun m =>
    cc ← reference m;
    X ← get_new_points_averaged m cc None;
    X ← place_boundary boundary_step m X;
    Ok (X, m).
End FixedPointDensityPreserving.

Section Drivers.
Context `{ops : MeshOps}.

(** [fixed_point_uniform(points, cells, tol, max_num_steps, ...)] returns
    [mesh.points, mesh.cells["points"]]. *)
Definition fixed_point_uniform (fuel : nat) (X : list vec2) (cs : list cell)
    (tol max_num_steps omega : float)
    (boundary_step : option boundary_step_fn)
    (surface : option implicit_surface) (surface_tol : float)
  : result (list vec2 * list cell) :=
  '(_, _, m) ← runner (FixedPointUniform.get_new_points boundary_step)
                      tol max_num_steps omega surface surface_tol fuel
                      (MeshTri X cs);
  Ok (points m, cells m).

Definition fixed_point_density_preserving (fuel : nat) (X : list vec2)
    (cs : list cell) (tol max_num_steps omega : float)
    (boundary_step : option boundary_step_fn)
    (surface : option implicit_surface) (surface_tol : float)
  : result (list vec2 * list cell) :=
  '(_, _, m) ← runner (FixedPointDensityPreserving.get_new_points
                         boundary_step)
                      tol max_num_steps omega surface surface_tol fuel
                      (MeshTri X cs);
  Ok (points m, cells m).

(** ** odt.py: the gradient handed to the BFGS solver *)

(** One pass of [for mcn in mesh.cells["points"].T: ... grad += ...]. *)
Definition add_gradient (m : mesh) (acc : result (list vec2))
    (mcn : list nat) : result (list vec2) :=
  grad ← acc;
  p ← take mcn (points m);
  d ← broadcast vsub p (cell_circumcenters m);
  vx ← broadcast fmul (map fst d) (cell_volumes m);
  vy ← broadcast fmul (map snd d) (cell_volumes m);
  bx ← bincount mcn vx (length (points m));
  by_ ← bincount mcn vy (length (points m));
  inplace vadd grad (zip bx by_).

(** [jac(x)], together with the mesh it leaves behind. *)
Definition jac (m : mesh) (x : list float) : result (list float * mesh) :=
  xr ← reshape2 x;
  pts ← mask_assign (is_interior_point m) xr (points m);
  let m := update_values (set_points m pts) in
  grad ← foldl (add_gradient m) (Ok (replicate (length (points m)) vzero))
               (cell_columns (cells m));
  let grad := map (fun g => vmuls g (Fin (2 / (2 + 1)))) grad in
  sel ← mask_select (is_interior_point m) grad;
  Ok (flatten2 sel, m).

(** [x0 = X[mesh.is_interior_point].flatten()] with [mesh = MeshTri(X, cells)]. *)
Definition x0 (X : list vec2) (cs : list cell) : result (list float) :=
  sel ← mask_select (is_interior_point (MeshTri X cs)) X;
  Ok (flatten2 sel).
End Drivers.

(** ** The rounding-sensitive steps over an arbitrary arithmetic *)

(** The operations the code applies to doubles: conversion from a Python
    [int], the four operations, [numpy.sqrt], [numpy.abs], the comparisons
    [<] and [<=], and Python's [t ** 2] on a [float], which can raise. *)
Class Arith (F : Type) : Type := {
  f_of_nat : nat -> F;
  f_add : F -> F -> F;
  f_sub : F -> F -> F;
  f_mul : F -> F -> F;
  f_div : F -> F -> F;
  f_sqrt : F -> F;
  f_abs : F -> F;
  f_lt : F -> F -> bool;
  f_le : F -> F -> bool;
  f_square : F -> result F
}.

(** The exact reading. *)
#[global] Instance exact_arith : Arith float := {|
  f_of_nat := of_nat;
  f_add := fadd;
  f_sub := fsub;
  f_mul := fmul;
  f_div := fdiv;
  f_sqrt := fsqrt;
  f_abs := fabs;
  f_lt := flt;
  f_le := fle;
  f_square := fun t => Ok (fmul t t)
|}.

Module Generic.
Section Generic.
Context {F : Type} {arith : Arith F}.

Definition vdot (u v : F * F) : F := f_add (f_mul u.1 v.1) (f_mul u.2 v.2).
Definition vadd (u v : F * F) : F * F := (f_add u.1 v.1, f_add u.2 v.2).
Definition vsub (u v : F * F) : F * F := (f_sub u.1 v.1, f_sub u.2 v.2).
Definition vmuls (v : F * F) (s : F) : F * F := (f_mul v.1 s, f_mul v.2 s).

(** helpers.py, [runner]:
    [step_lengths = numpy.sqrt(numpy.einsum("ij,ij->i", diff, diff));
     idx = step_lengths > max_step;
     diff[idx] *= max_step[idx, None] / step_lengths[idx, None]] *)
Definition clamp (diff : list (F * F)) (max_step : list F)
  : result (list (F * F)) :=
  let step_lengths := map (fun d => f_sqrt (vdot d d)) diff in
  idx ← broadcast (fun a b => f_lt b a) step_lengths max_step;
  d_sel ← mask_select idx diff;
  ms_sel ← mask_select idx max_step;
  sl_sel ← mask_select idx step_lengths;
  mask_assign idx (zip_with vmuls d_sel (zip_with f_div ms_sel sl_sel)) diff.

Definition diff_norm_2 (diff : list (F * F)) : list F :=
  map (fun d => vdot d d) diff.

(** helpers.py, [runner]:
    [numpy.all(diff_norm_2 < tol ** 2) or k >= max_num_steps] *)
Definition is_final (tol max_num_steps : F) (k : nat) (diff : list (F * F))
  : result bool :=
  t2 ← f_square tol;
  Ok (np_all (map (fun x => f_lt x t2) (diff_norm_2 diff))
      || f_le max_num_steps (f_of_nat k)).

(** helpers.py, [runner]: the loop
    [while numpy.any(numpy.abs(fval) > implicit_surface_tol)] for a surface
    with the level function [f] and the gradient [grad_f]. *)
Fixpoint project_to_surface (fuel : nat) (f : F * F -> F)
    (grad_f : F * F -> F * F) (tol : F) (pts : list (F * F)) (fval : list F)
  : result (list (F * F)) :=
  if np_any (map (fun v => f_lt tol (f_abs v)) fval) then
    match fuel with
    | O => OutOfFuel
    | S fuel' =>
        let grad := map grad_f pts in
        let grad_dot_grad := map (fun g => vdot g g) grad in
        let step := zip_with vmuls grad (zip_with f_div fval grad_dot_grad) in
        let pts' := zip_with vsub pts step in
        project_to_surface fuel' f grad_f tol pts' (map f pts')
    end
  else Ok pts.

(** [numpy.sum] and [numpy.dot], accumulated from left to right, which is
    the order numpy follows on the arrays of fewer than 8 entries that the
    properties on the machine evaluate. *)
Definition np_sum (a : list F) : F := foldl f_add (f_of_nat 0) a.

Definition np_dot (a b : list F) : result F :=
  if decide (length a = length b) then Ok (np_sum (zip_with f_mul a b))
  else Raise ValueError.

Definition bincount (idx : list nat) (weights : list F) (minlength : nat)
  : result (list F) :=
  match idx with
  | [] => Ok (replicate minlength (f_of_nat 0))
  | _ =>
      if decide (length weights = length idx) then
        Ok (foldl (fun out iw => alter (fun s => f_add s iw.2) iw.1 out)
                  (replicate (bincount_len idx minlength) (f_of_nat 0))
                  (zip idx weights))
      else Raise ValueError
  end.

(** odt.py, [energy], on the arrays [mesh.points], [mesh.cells["points"]]
    and [mesh.cell_volumes]; [integrate] is [scheme.integrate] of the
    quadrature. *)
Definition add_star (n : nat) (cell_volumes : list F) (uniform_density : bool)
    (acc : result (list F)) (idx : list nat) : result (list F) :=
  star_volume ← acc;
  b ← bincount idx
        (if uniform_density then cell_volumes
         else replicate (length idx) (f_of_nat 1))
        n;
  inplace f_add star_volume b.

Definition energy_linear (points : list (F * F)) (cells : list cell)
    (cell_volumes : list F) (uniform_density : bool) : result F :=
  star_volume ← foldl (add_star (length points) cell_volumes uniform_density)
                      (Ok (replicate (length points) (f_of_nat 0)))
                      (cell_columns cells);
  let x2 := map (fun p => vdot p p) points in
  d ← np_dot star_volume x2;
  Ok (f_mul (f_div (f_of_nat 1) (f_of_nat (2 + 1))) d).

Definition energy_integral
    (integrate : (F * F -> F) -> (F * F) * (F * F) * (F * F) -> F)
    (points : list (F * F)) (cells : list cell) (cell_volumes : list F)
    (uniform_density : bool) : result F :=
  triangles ← take_cells cells points;
  let val := map (integrate (fun x => vdot x x)) triangles in
  if uniform_density then Ok (np_sum val)
  else np_dot val (map (f_div (f_of_nat 1)) cell_volumes).

Definition energy
    (integrate : (F * F -> F) -> (F * F) * (F * F) * (F * F) -> F)
    (points : list (F * F)) (cells : list cell) (cell_volumes : list F)
    (uniform_density : bool) : result F :=
  out ← energy_linear points cells cell_volumes uniform_density;
  val ← energy_integral integrate points cells cell_volumes uniform_density;
  if f_le val out then Ok (f_sub out val) else Raise AssertionError.
End Generic.
End Generic.

(** ** The doubles of the machine *)

Module Binary64.
Import PrimFloat.

(** Python's [t ** 2] on a [float]: the product, [OverflowError] when a
    finite [t] gives an infinite result, and [0.0] without an error when
    the product underflows. *)
Definition square (t : float) : result float :=
  let r := mul t t in
  if is_infinity r && negb (is_infinity t) then Raise OverflowError
  else Ok r.

#[global] Instance binary64 : Arith float := {|
  f_of_nat := fun k => of_uint63 (Uint63.of_Z (Z.of_nat k));
  f_add := add;
  f_sub := sub;
  f_mul := mul;
  f_div := div;
  f_sqrt := sqrt;
  f_abs := abs;
  f_lt := ltb;
  f_le := leb;
  f_square := square
|}.

(** The real number a finite double stands for ([0] for the others). *)
Definition float_R (x : float) : R :=
  match FloatOps.Prim2SF x with
  | SpecFloat.S754_finite s m e =>
      let z := IZR (if s then Z.neg m else Z.pos m) in
      match e with
      | Z.neg k => (z / IZR (Z.pos (2 ^ k)))%R
      | _ => (z * IZR (2 ^ e))%R
      end
  | _ => 0%R
  end.


(** Modelled from the spec: the area of a triangle, half the absolute value
    of the cross product of two edge vectors. *)
Definition triangle_volume
    (t : (float * float) * (float * float) * (float * float)) : float :=
  let '(a, b, c) := t in
  let u := Generic.vsub b a in
  let v := Generic.vsub c a in
  mul 0.5 (abs (sub (mul u.1 v.2) (mul u.2 v.1))).


(** Three raw displacements and their bounds: an everyday one, one whose
    squared norm overflows, and one whose squared norm underflows; and what
    the clamp makes of them. *)
Definition tiny_step : float * float := (0x1p-540, 0)%float.
Definition tiny_bound : float := 0x1p-600%float.

Definition raw_displacements : list (float * float) :=
  [(5, 12)%float; (0x1.8p601, 0x1p602)%float; tiny_step].

Definition unit_bound : float := 1%float.

Definition step_bounds : list float := [unit_bound; 2.5%float; tiny_bound].

Definition rescaled : float * float :=
  (mul 5 (div 1 13), mul 12 (div 1 13)).

Definition clamped_displacements : list (float * float) :=
  [rescaled; (0, 0)%float; tiny_step].

(** A tolerance whose square underflows, one whose square overflows, and a
    displacement of zeros. *)
Definition tiny_tol : float := 0x1p-600%float.
Definition huge_tol : float := 0x1p600%float.
Definition at_rest : float * float := (0, 0)%float.
Definition no_displacement : list (float * float) := [at_rest].




(** The line [x + 3 y = 0] as an implicit surface, a start point and the
    default tolerance [1.0e-10] of the runner. *)
Definition line_f (p : float * float) : float := add p.1 (mul 3 p.2).
Definition line_grad (p : float * float) : float * float := (1, 3)%float.
Definition line_start : float * float := (75000000.5, 33333333.25)%float.
Definition line_tol : float := 0x1.b7cdfd9d7bdbbp-34%float.

(** One sweep of the projection loop on one point. *)
Definition line_sweep (p : float * float) : float * float :=
  Generic.vsub p
    (Generic.vmuls (line_grad p)
       (div (line_f p) (Generic.vdot (line_grad p) (line_grad p)))).
End Binary64.

(** ** Notions used to state the properties *)

(** The sum of the values [w[k]] scattered to [p] by the index array. *)
Fixpoint wsum (p : nat) (idx : list nat) (w : list R) : R :=
  match idx, w with
  | i :: idx', x :: w' => (if decide (i = p) then x else 0) + wsum p idx' w'
  | _, _ => 0
  end.

(** How often [p] occurs in the index array. *)
Fixpoint ncount (p : nat) (idx : list nat) : nat :=
  match idx with
  | [] => 0
  | i :: idx' => (if decide (i = p) then 1 else 0) + ncount p idx'
  end.

(** How many corners of the cell [c] are the point [p]: positive when [c]
    is incident to [p], and 1 then unless the cell repeats a corner. *)
Definition incidence (p : nat) (c : cell) : nat :=
  Nat.b2n (bool_decide (c.1.1 = p)) + Nat.b2n (bool_decide (c.1.2 = p))
  + Nat.b2n (bool_decide (c.2 = p)).

(** The sum of the per-cell values over the cells incident to [p]. *)
Fixpoint star_sum (p : nat) (cs : list cell) (vals : list R) : R :=
  match cs, vals with
  | c :: cs', v :: vals' => INR (incidence p c) * v + star_sum p cs' vals'
  | _, _ => 0
  end.

(** The weighted average of the reference points of the cells incident to
    [p]: [sum (w_c * ref_c) / sum w_c]. *)
Definition averaged_spec (cs : list cell) (ref : list (R * R)) (ws : list R)
    (p : nat) : R * R :=
  (star_sum p cs (zip_with (fun w (r : R * R) => w * r.1) ws ref)
   / star_sum p cs ws,
   star_sum p cs (zip_with (fun w (r : R * R) => w * r.2) ws ref)
   / star_sum p cs ws)%R.

(** Every corner of every cell is the index of a point. *)
Definition cells_in_range (n : nat) (cs : list cell) : Prop :=
  Forall (fun c : cell => c.1.1 < n /\ c.1.2 < n /\ c.2 < n) cs.

(** *** Degenerate inputs of the averaging aggregator *)

(** A triangle and a fourth point that belongs to no cell. *)
Definition isolated_point_mesh : mesh :=
  Mesh [vfin (0, 0); vfin (1, 0); vfin (0, 1); vfin (5, 5)]%R
       [(0, 1, 2)]
       [vfin (1 / 2, 1 / 2)%R] [vfin (1 / 3, 1 / 3)%R]
       [Fin (1 / 2)] [Fin (1 - sqrt 2 / 2)]
       [true; true; true; false] [false; false; false; false]
       [0; 0; 0].

(** *** The reference points of the fixed-point rules *)

(** The mesh of one triangle: every point and every edge is on the
    boundary. *)
Definition single_triangle_mesh : mesh :=
  Mesh [vfin (0, 0); vfin (1, 0); vfin (0, 1)]%R
       [(0, 1, 2)]
       [vfin (1 / 2, 1 / 2)%R] [vfin (1 / 3, 1 / 3)%R]
       [Fin (1 / 2)] [Fin (1 - sqrt 2 / 2)]
       [true; true; true] [false; false; false]
       [0; 0; 0].

(** *** The step bound *)

(** A bound that may be absent is the double [inf]. *)
Definition to_float (o : option R) : float :=
  match o with Some x => Fin x | None => PInf end.

(** The running minimum, and the minimum of the values scattered to [p]. *)
Definition omin (acc : option R) (r : R) : option R :=
  Some (match acc with Some x => Rmin x r | None => r end).

Fixpoint wmin (p : nat) (idx : list nat) (vals : list R) (acc : option R)
  : option R :=
  match idx, vals with
  | i :: idx', r :: vals' =>
      wmin p idx' vals' (if decide (i = p) then omin acc r else acc)
  | _, _ => acc
  end.

(** The smallest inradius among the cells that have [p] as a corner, if any. *)
Fixpoint star_min (p : nat) (cs : list cell) (inr : list R) (acc : option R)
  : option R :=
  match cs, inr with
  | c :: cs', r :: inr' =>
      star_min p cs' inr' (if decide (0 < incidence p c) then omin acc r else acc)
  | _, _ => acc
  end.

Definition min_inradius (p : nat) (cs : list cell) (inr : list R) : option R :=
  star_min p cs inr None.

(** Half of it: the bound on the step of point [p]. *)
Definition step_bound (p : nat) (cs : list cell) (inr : list R) : option R :=
  (fun x => x / 2)%R <$> min_inradius p cs inr.

(** *** The clamp of the displacement *)

(** What [clamp] does to one row. *)
Definition clamp_row (d : vec2) (b : float) : vec2 :=
  let s := fsqrt (vdot d d) in
  if fgt s b then vmuls d (fdiv b s) else d.

Definition norm (v : R * R) : R := sqrt (v.1 * v.1 + v.2 * v.2).

(** The clamp of one row on real data: [None] is the bound [inf]. *)
Definition clamp_real (raw : R * R) (bound : option R) : R * R :=
  match bound with
  | Some b =>
      if decide (b < norm raw)%R
      then (raw.1 * (b / norm raw), raw.2 * (b / norm raw))%R
      else raw
  | None => raw
  end.

(** The raw displacement [omega * (X - P)] of every point. *)
Definition raw_displacement (omega : R) (X P : list (R * R)) : list (R * R) :=
  zip_with (fun x q : R * R => (omega * (x.1 - q.1), omega * (x.2 - q.2))%R)
           X P.

(** *** The loop of the runner *)

(** The largest per-point norm of the displacement [d] is below [t]. *)
Definition max_norm_below (t : float) (d : list vec2) : Prop :=
  exists r, np_max (map fsqrt (diff_norm_2 d)) = Ok r /\ flt r t = true.

(** A sum of squares is a non-negative number, [inf] or [nan]. *)
Definition not_negative (x : float) : Prop := flt x (Fin 0) = false.

(** *** The projection onto an implicit surface *)

(** One Newton-style step of the projection, for one point:
    [x - grad f(x) * (f(x) / |grad f(x)|^2)]. *)
Definition newton_step (s : implicit_surface) (x : vec2) : vec2 :=
  let g := surf_grad s x in
  vsub x (vmuls g (fdiv (surf_f s x) (vdot g g))).

(** The level function [a1 * x + a2 * y + c] with its gradient. *)
Definition affine_surface (a1 a2 c : R) : implicit_surface :=
  {| surf_f := fun x =>
       fadd (fadd (fmul (Fin a1) x.1) (fmul (Fin a2) x.2)) (Fin c);
     surf_grad := fun _ => (Fin a1, Fin a2) |}.

(** The unit circle: [x^2 + y^2 - 1] with its gradient [2 x]. *)
Definition circle_surface : implicit_surface :=
  {| surf_f := fun x => fsub (vdot x x) (Fin 1);
     surf_grad := fun x => vscale (Fin 2) x |}.

(** The constant function 1, whose gradient vanishes. *)
Definition constant_surface : implicit_surface :=
  {| surf_f := fun _ => Fin 1;
     surf_grad := fun _ => (Fin 0, Fin 0) |}.

(** The second and the third iterate from the start point. *)
Definition line_even : PrimFloat.float * PrimFloat.float :=
  Binary64.line_sweep (Binary64.line_sweep Binary64.line_start).

Definition line_odd : PrimFloat.float * PrimFloat.float :=
  Binary64.line_sweep line_even.

(** *** Boundary points under the fixed-point rules *)

(** What optimesh relies on when it calls the collaborator: the constructor
    stores the points it is given, recomputing the derived arrays and
    flipping edges move no point and leave the boundary flags alone, and no
    inradius becomes negative. *)
Class MeshLaws (ops : MeshOps) : Prop := {
  MeshTri_points X cs : points (MeshTri X cs) = X;
  update_values_points m : points (update_values m) = points m;
  update_values_boundary m :
    is_boundary_point (update_values m) = is_boundary_point m;
  update_values_inradius m :
    Forall not_negative (cell_inradius m) ->
    Forall not_negative (cell_inradius (update_values m));
  flip_points m : points (flip_until_delaunay m) = points m;
  flip_boundary m :
    is_boundary_point (flip_until_delaunay m) = is_boundary_point m;
  flip_inradius m :
    Forall not_negative (cell_inradius m) ->
    Forall not_negative (cell_inradius (flip_until_delaunay m))
}.

(** The two fixed-point rules of odt.py. *)
Definition odt_rule (uniform_density : bool)
    (boundary_step : option boundary_step_fn) : rule :=
  if uniform_density then FixedPointUniform.get_new_points boundary_step
  else FixedPointDensityPreserving.get_new_points boundary_step.

(** The state the runner keeps for the boundary points of [m0]. *)
Definition boundary_kept (m0 m : mesh) : Prop :=
  is_boundary_point m = is_boundary_point m0
  /\ Forall not_negative (cell_inradius m)
  /\ forall i, is_boundary_point m0 !! i = Some true ->
               points m !! i = points m0 !! i.

(** *** The gradient of the energy *)

(** The gradient of the ODT energy at point [p]:
    [2 / (d + 1) * sum over the cells c around p of (x_p - cc_c) * vol_c],
    with [d = 2]; a cell counts once for each corner that is [p]. *)
Definition gradient_spec (P cc : list (R * R)) (vol : list R) (cs : list cell)
    (p : nat) : R * R :=
  let x := default (0, 0)%R (P !! p) in
  (2 / (2 + 1)
   * star_sum p cs (zip_with (fun (c : R * R) v => (x.1 - c.1) * v) cc vol),
   2 / (2 + 1)
   * star_sum p cs (zip_with (fun (c : R * R) v => (x.2 - c.2) * v) cc vol))%R.

(** The values scattered by one pass of the gradient loop. *)
Definition gradient_vals (coord : R * R -> R) (P cc : list (R * R))
    (vol : list R) (mcn : list nat) : list R :=
  zip_with Rmult
    (zip_with (fun x c : R * R => coord x - coord c)%R
       (map (fun i => default (0, 0)%R (P !! i)) mcn) cc) vol.

(** The indices at which a mask is true, in increasing order, counted
    from [k]. *)
Fixpoint true_indices_from (k : nat) (mask : list bool) : list nat :=
  match mask with
  | [] => []
  | b :: mask' =>
      (if b then [k] else []) ++ true_indices_from (S k) mask'
  end.

(** The indices of the rows that a boolean mask selects. *)
Definition true_indices (mask : list bool) : list nat :=
  true_indices_from 0 mask.

(** What optimesh relies on when it reads the two flag arrays of the
    collaborator: a boundary point is not an interior point. *)
Definition interior_not_boundary (m : mesh) : Prop :=
  forall i, is_boundary_point m !! i = Some true ->
            is_interior_point m !! i <> Some true.

(** *** The energy *)

(** The sum of a list of reals. *)
Definition rsum (l : list R) : R := foldr Rplus 0%R l.

(** Squared norm, and the coordinates of point [i] of [P]. *)
Definition normsq (v : R * R) : R := (v.1 * v.1 + v.2 * v.2)%R.
Definition point_at (P : list (R * R)) (i : nat) : R * R :=
  default (0, 0)%R (P !! i).

Definition rtriangle : Type := (R * R) * (R * R) * (R * R).

(** The corners of a cell, its area, and its embedding. *)
Definition corners (P : list (R * R)) (c : cell) : rtriangle :=
  (point_at P c.1.1, point_at P c.1.2, point_at P c.2).

Definition area (t : rtriangle) : R :=
  let '(a, b, c) := t in
  (1 / 2 * Rabs ((b.1 - a.1) * (c.2 - a.2) - (b.2 - a.2) * (c.1 - a.1)))%R.

Definition tfin (t : rtriangle) : triangle :=
  (vfin t.1.1, vfin t.1.2, vfin t.2).

(** The sum of the squared norms of the corners. *)
Definition corner_normsq (t : rtriangle) : R :=
  (normsq t.1.1 + normsq t.1.2 + normsq t.2)%R.

(** The weighted mean of [|x|^2] over the points of the rule. *)
Definition quad_real (scheme : quadrature) (t : rtriangle) : R :=
  let '(a, b, c) := t in
  rsum ((fun wl : R * (R * R * R) =>
           let '(l0, l1, l2) := wl.2 in
           wl.1 * normsq (l0 * a.1 + l1 * b.1 + l2 * c.1,
                          l0 * a.2 + l1 * b.2 + l2 * c.2))%R <$> scheme).

(** A second moment of the rule in barycentric coordinates. *)
Definition moment (i j : R * R * R -> R) (scheme : quadrature) : R :=
  rsum ((fun wl : R * (R * R * R) => wl.1 * i wl.2 * j wl.2)%R <$> scheme).

Definition l0 (l : R * R * R) : R := l.1.1.
Definition l1 (l : R * R * R) : R := l.1.2.
Definition l2 (l : R * R * R) : R := l.2.

(** A rule of degree 2: its points are barycentric and it integrates the
    products of two barycentric coordinates exactly. *)
Definition exact_degree2 (scheme : quadrature) : Prop :=
  Forall (fun wl : R * (R * R * R) => l0 wl.2 + l1 wl.2 + l2 wl.2 = 1)%R scheme
  /\ moment l0 l0 scheme = (1 / 6)%R /\ moment l1 l1 scheme = (1 / 6)%R
  /\ moment l2 l2 scheme = (1 / 6)%R /\ moment l0 l1 scheme = (1 / 12)%R
  /\ moment l0 l2 scheme = (1 / 12)%R /\ moment l1 l2 scheme = (1 / 12)%R.

(** The three-point rule of Strang, Fix and Cowper. *)
Definition strang_fix_cowper : quadrature :=
  [(1 / 3, (2 / 3, 1 / 6, 1 / 6)); (1 / 3, (1 / 6, 2 / 3, 1 / 6));
   (1 / 3, (1 / 6, 1 / 6, 2 / 3))]%R.

(** The weights of the star volumes on real data. *)
Definition star_weights (uniform_density : bool) (vol : list R) (n : nat)
  : list R :=
  if uniform_density then vol else replicate n 1%R.

(** *** Concrete meshes and a collaborator at rest *)

(** The unit square cut into four cells around its centre. *)
Definition square_mesh : mesh :=
  Mesh (map vfin [(0, 0); (1, 0); (1, 1); (0, 1); (1 / 2, 1 / 2)]%R)
       [(0, 1, 4); (1, 2, 4); (2, 3, 4); (3, 0, 4)]
       (map vfin [(1 / 2, 0); (1, 1 / 2); (1 / 2, 1); (0, 1 / 2)]%R)
       (map vfin [(1 / 2, 1 / 6); (5 / 6, 1 / 2); (1 / 2, 5 / 6);
                  (1 / 6, 1 / 2)]%R)
       (map Fin [1 / 4; 1 / 4; 1 / 4; 1 / 4]%R)
       (map Fin [(sqrt 2 - 1) / 2; (sqrt 2 - 1) / 2; (sqrt 2 - 1) / 2;
                 (sqrt 2 - 1) / 2]%R)
       [true; true; true; true; false] [false; false; false; false; true]
       [0; 1; 2; 3].

(** The collaborator of a mesh at rest: the constructor returns the arrays
    stored for [m0], nothing is recomputed and no edge is flipped. *)
Definition rest_ops (m0 : mesh) : MeshOps :=
  {| MeshTri := fun X cs =>
       Mesh X cs (cell_circumcenters m0) (cell_barycenters m0)
            (cell_volumes m0) (cell_inradius m0) (is_boundary_point m0)
            (is_interior_point m0) (boundary_edges_cells m0);
     update_values := fun m => m;
     flip_until_delaunay := fun m => m |}.

(** A rule that proposes to move every point of the triangle by [(3, 4)]. *)
Definition shift_rule : rule :=
  fun m => Ok (map vfin [(3, 4); (4, 4); (3, 5)]%R, m).

(** *** The mesh of one triangle at rest *)

(** The one-triangle mesh after the uniform rule has run on it. *)
Definition triangle_at_rest : mesh :=
  set_cell_circumcenters single_triangle_mesh [vfin (1 / 3, 1 / 3)%R].

(** *** cli/main.py: [prune] *)

(** The mesh object of meshio, as far as [prune] reads and writes it: the
    point array, the cell blocks [(cell_type, data)] with [data] an integer
    array of one row per cell, and the dictionary of per-point data. *)
Record io_mesh (K A D : Type) : Type := IOMesh {
  io_points : list A;
  io_cells : list (K * list (list nat));
  io_point_data : list (K * list D)
}.
Arguments IOMesh {K A D} _ _ _.
Arguments io_points {K A D} _.
Arguments io_cells {K A D} _.
Arguments io_point_data {K A D} _.

(** [numpy.concatenate] of a sequence of arrays (the rows of a 2-d array are
    such a sequence): it raises on the empty sequence. *)
Definition np_concatenate {A} (arrays : list (list A)) : result (list A) :=
  match arrays with
  | [] => Raise ValueError
  | _ => Ok (concat arrays)
  end.

(** Insertion into a strictly increasing list. *)
Fixpoint insert_unique (x : nat) (l : list nat) : list nat :=
  match l with
  | [] => [x]
  | y :: l' =>
      if decide (x < y) then x :: l
      else if decide (x = y) then l
      else y :: insert_unique x l'
  end.

(** The position of the first [x] in [l]. *)
Fixpoint index_of (x : nat) (l : list nat) : nat :=
  match l with
  | [] => 0
  | y :: l' => if decide (x = y) then 0 else S (index_of x l')
  end.

(** [numpy.unique(a, return_inverse=True)]: the sorted distinct values of
    [a], and for every entry of [a] its position among them. *)
Definition np_unique (a : list nat) : list nat := foldr insert_unique [] a.

Definition np_unique_inverse (a : list nat) : list nat * list nat :=
  let u := np_unique a in (u, map (fun x => index_of x u) a).

(** [flat.reshape(data.shape)]: the rows of [flat] with the widths of the
    rows of [data]. *)
Fixpoint reshape_like (data : list (list nat)) (flat : list nat)
  : list (list nat) :=
  match data with
  | [] => []
  | row :: data' =>
      firstn (length row) flat :: reshape_like data' (skipn (length row) flat)
  end.

(** The loop [for cell_type, data in mesh.cells:
    data[:] = uidx[k : k + n].reshape(data.shape); k += n],
    with [n = numpy.prod(data.shape)] the number of entries of [data]. *)
Fixpoint renumber {K} (uidx : list nat) (k : nat)
    (blocks : list (K * list (list nat))) : list (K * list (list nat)) :=
  match blocks with
  | [] => []
  | (cell_type, data) :: blocks' =>
      let n := length (concat data) in
      (cell_type, reshape_like data (firstn n (skipn k uidx)))
        :: renumber uidx (k + n) blocks'
  end.

(** A comprehension whose body may raise. *)
Fixpoint traverse {A B} (f : A -> result B) (l : list A) : result (list B) :=
  match l with
  | [] => Ok []
  | x :: l' => y ← f x; ys ← traverse f l'; Ok (y :: ys)
  end.

(** [prune(mesh)] of cli/main.py. *)
Definition prune {K A D} (m : io_mesh K A D) : result (io_mesh K A D) :=
  flats ← traverse (fun b : K * list (list nat) => np_concatenate b.2)
                   (io_cells m);
  ncells ← np_concatenate flats;
  let '(uvertices, uidx) := np_unique_inverse ncells in
  let cells' := renumber uidx 0 (io_cells m) in
  pts ← take uvertices (io_points m);
  pd ← traverse (fun kd : K * list D => d ← take uvertices kd.2; Ok (kd.1, d))
                (io_point_data m);
  Ok (IOMesh pts cells' pd).

(** Strictly increasing lists. *)
Fixpoint increasing (l : list nat) : Prop :=
  match l with
  | [] => True
  | x :: l' => Forall (lt x) l' /\ increasing l'
  end.

(** All the point indices of the cell blocks, in storage order. *)
Definition io_corners {K A D} (m : io_mesh K A D) : list nat :=
  concat (map (fun b : K * list (list nat) => concat b.2) (io_cells m)).

(** The block types and row widths of the cell blocks. *)
Definition io_shape {K A D} (m : io_mesh K A D) : list (K * list nat) :=
  map (fun b : K * list (list nat) => (b.1, map length b.2)) (io_cells m).

(** A mesh with two points that no cell uses, and what is left of it. *)
Import String.StringSyntax.
Local Open Scope string_scope.

Definition unpruned_mesh : io_mesh String.string (R * R) nat :=
  IOMesh [(0, 0); (9, 9); (1, 0); (0, 1); (7, 7); (1, 1)]%R
         [("triangle", [[5; 2; 0]; [3; 5; 0]])]
         [("tag", [10; 11; 12; 13; 14; 15])].

Definition pruned_mesh : io_mesh String.string (R * R) nat :=
  IOMesh [(0, 0); (1, 0); (0, 1); (1, 1)]%R
         [("triangle", [[3; 1; 0]; [2; 3; 0]])]
         [("tag", [10; 12; 13; 15])].

Local Close Scope string_scope.

(** *** The closed form of the energy *)

(** The sum of the squared lengths of the three edges of a triangle. *)
Definition edge_normsq (t : rtriangle) : R :=
  let '(a, b, c) := t in
  (normsq (a.1 - b.1, a.2 - b.2) + normsq (a.1 - c.1, a.2 - c.2)
   + normsq (b.1 - c.1, b.2 - c.2))%R.

(** The points moved by the vector [t]. *)
Definition translate (t : R * R) (P : list (R * R)) : list (R * R) :=
  map (fun p : R * R => (p.1 + t.1, p.2 + t.2)%R) P.

(** The closed form of the energy: a twelfth of the squared edge lengths of
    every cell, weighted by the area of the cell in the uniform mode. *)
Definition energy_spec (uniform_density : bool) (P : list (R * R))
    (cs : list cell) : R :=
  (1 / 12
   * rsum (map (fun c => (if uniform_density then area (corners P c) else 1)
                         * edge_normsq (corners P c)) cs))%R.

(** *** odt.py: the callback of the solver *)

(** [flip_delaunay(x)] of [nonlinear_optimization_uniform], the callback of
    the solver; the last edge flip after the solver does the same with the
    solution [out.x]. *)
Definition flip_delaunay `{ops : MeshOps} (m : mesh) (x : list float)
  : result mesh :=
  xr ← reshape2 x;
  pts ← mask_assign (is_interior_point m) xr (points m);
  Ok (flip_until_delaunay (update_values (set_points m pts))).

(** *** Further concrete meshes *)

(** The one-triangle mesh with a point count that its cell exceeds. *)
Definition short_mesh : mesh :=
  set_points single_triangle_mesh [vfin (0, 0)%R].

(** Three points and no cell. *)
Definition no_cell_mesh : mesh :=
  Mesh [vfin (0, 0); vfin (1, 0); vfin (0, 1)]%R [] [] [] [] []
       [false; false; false] [false; false; false] [].

(** The mesh with an isolated point after one pass of the density-preserving
    rule: the isolated point is lost. *)
Definition isolated_point_lost : mesh :=
  set_points isolated_point_mesh
    [vfin (0, 0); vfin (1, 0); vfin (0, 1); (NaN, NaN)]%R.

(** *** cli/main.py: the verbosity flag *)

(** [~args.quiet] of [main]: bitwise negation of a Python [bool], which is
    the integer 0 or 1, and the truth value of the result. *)
Definition py_invert (b : bool) : Z := (- Z.b2z b - 1)%Z.

Definition py_truthy (z : Z) : bool := negb (z =? 0)%Z.

(** The [verbose] argument that [main] passes to every method. *)
Definition main_verbose (quiet : bool) : bool := py_truthy (py_invert quiet).

(** *** The reference points of the rules on real data *)

(** The reference point the fixed-point rules hand to the averaging step for
    cell [k], on real data: the barycenter where [substituted k] holds, the
    circumcenter elsewhere. *)
Definition reference_spec (substituted : nat -> bool) (bc cc : list (R * R))
    (ncells : nat) : list (R * R) :=
  map (fun k => if substituted k then point_at bc k else point_at cc k)
      (seq 0 ncells).

(** The cells with exactly two boundary corners. *)
Definition two_boundary_corners (m : mesh) (k : nat) : bool :=
  let bp i := default false (is_boundary_point m !! i) in
  match (cells m !! k : option cell) with
  | Some c =>
      bool_decide (Nat.b2n (bp c.1.1) + Nat.b2n (bp c.1.2) + Nat.b2n (bp c.2)
                   = 2)
  | None => false
  end.

(** The cells the rule replaces the circumcenter of. *)
Definition substituted (uniform_density : bool) (m : mesh) (k : nat) : bool :=
  if uniform_density then bool_decide (k ∈ boundary_edges_cells m)
  else two_boundary_corners m k.

(** *** The pruned mesh as a triangulation *)


(** * Properties *)

(** ** The numpy primitives on well-shaped real data *)

Lemma inplace_same {A B} (f : A -> B -> A) a b :
  length b = length a -> inplace f a b = Ok (zip_with f a b).
Proof. intros H. unfold inplace. by rewrite decide_True. Qed.

Lemma broadcast_same {A B C} (f : A -> B -> C) a b :
  length a = length b -> broadcast f a b = Ok (zip_with f a b).
Proof. intros H. unfold broadcast. by rewrite decide_True. Qed.

Lemma bincount_len_bounded idx n :
  Forall (fun i => i < n) idx -> bincount_len idx n = n.
Proof.
  unfold bincount_len. induction 1 as [|i idx Hi _ IH]; cbn; [done|]. rewrite IH. lia.
Qed.

Lemma alter_tabulate (g : nat -> R) (j : nat) (x : R) (n : nat) :
  alter (fun s => fadd s (Fin x)) j ((fun i => Fin (g i)) <$> seq 0 n)
  = (fun i => Fin (g i + (if decide (j = i) then x else 0))) <$> seq 0 n.
Proof.
  apply list_eq; intros i.
  destruct (decide (i = j)) as [->|Hne].
  - destruct (decide (j < n)) as [Hlt|Hge].
    + rewrite list_lookup_alter_eq, !list_lookup_fmap, lookup_seq_lt by done.
      cbn. by rewrite decide_True.
    + rewrite list_lookup_alter_eq, !list_lookup_fmap, lookup_seq_ge by lia. done.
  - rewrite list_lookup_alter_ne by done.
    rewrite !list_lookup_fmap.
    destruct (seq 0 n !! i) as [k|] eqn:E; cbn; [|done].
    apply lookup_seq in E as [-> _]. rewrite decide_False by done.
    do 2 f_equal. lra.
Qed.

Lemma bincount_fold (g : nat -> R) idx w n :
  length w = length idx ->
  foldl (fun out (iw : nat * float) => alter (fun s => fadd s iw.2) iw.1 out)
        ((fun i => Fin (g i)) <$> seq 0 n) (zip idx (Fin <$> w))
  = (fun i => Fin (g i + wsum i idx w)) <$> seq 0 n.
Proof.
  revert g w. induction idx as [|j idx IH]; intros g [|x w] Hlen; try done.
  - cbn. apply list_fmap_ext. intros _ i _. f_equal. lra.
  - cbn in Hlen. cbn [zip zip_with fmap list_fmap foldl wsum]. cbn.
    rewrite alter_tabulate, IH by lia.
    apply list_fmap_ext. intros _ i _. f_equal. lra.
Qed.

Lemma replicate_tabulate {A} (x : A) n : replicate n x = (fun _ => x) <$> seq 0 n.
Proof.
  apply list_eq; intros i. rewrite list_lookup_fmap.
  destruct (decide (i < n)).
  - by rewrite lookup_replicate_2, lookup_seq_lt by done.
  - rewrite lookup_seq_ge by lia. by apply lookup_replicate_None; lia.
Qed.

(** On weights of the length of the index array [bincount] is the scatter
    sum, also for the empty index array. *)
Lemma bincount_same_length idx (w : list float) n :
  length w = length idx ->
  bincount idx w n
  = Ok (foldl (fun out iw => alter (fun s => fadd s iw.2) iw.1 out)
              (replicate (bincount_len idx n) (Fin 0)) (zip idx w)).
Proof.
  intros H. unfold bincount. destruct idx as [|i idx]; [done|].
  by rewrite decide_True.
Qed.

Lemma bincount_fin idx w n :
  length w = length idx -> Forall (fun i => i < n) idx ->
  bincount idx (Fin <$> w) n = Ok ((fun p => Fin (wsum p idx w)) <$> seq 0 n).
Proof.
  intros Hlen Hidx. rewrite bincount_same_length by (by rewrite length_fmap).
  rewrite bincount_len_bounded by done.
  rewrite (replicate_tabulate (Fin 0)).
  rewrite (bincount_fold (fun _ => 0%R)) by done.
  f_equal. apply list_fmap_ext. intros _ i _. f_equal. lra.
Qed.

Lemma zip_with_tabulate {A B C} (f : A -> B -> C) (g : nat -> A) (h : nat -> B) l :
  zip_with f (g <$> l) (h <$> l) = (fun p => f (g p) (h p)) <$> l.
Proof. induction l; cbn; [done|]. by f_equal. Qed.

Lemma zip_tabulate {A B} (g : nat -> A) (h : nat -> B) (l : list nat) :
  zip (g <$> l) (h <$> l) = (fun p => (g p, h p)) <$> l.
Proof. apply zip_with_tabulate. Qed.

Lemma zip_with_fmul_fin a b :
  zip_with fmul (Fin <$> a) (Fin <$> b) = Fin <$> zip_with Rmult a b.
Proof. revert b; induction a; intros [|y b]; cbn; [done..|]. by f_equal. Qed.

Lemma columns_in_range n cs :
  cells_in_range n cs ->
  Forall (fun i => i < n) ((fun c : cell => c.1.1) <$> cs)
  /\ Forall (fun i => i < n) ((fun c : cell => c.1.2) <$> cs)
  /\ Forall (fun i => i < n) ((fun c : cell => c.2) <$> cs).
Proof.
  induction 1 as [|c cs (?&?&?) _ (?&?&?)]; cbn; [by repeat constructor|].
  by repeat split; constructor.
Qed.

Lemma wsum_columns p cs v :
  (wsum p ((fun c : cell => c.1.1) <$> cs) v
   + wsum p ((fun c : cell => c.1.2) <$> cs) v
   + wsum p ((fun c : cell => c.2) <$> cs) v = star_sum p cs v)%R.
Proof.
  revert v; induction cs as [|c cs IH]; intros [|x v]; cbn; try lra.
  rewrite <- IH. unfold incidence.
  repeat case_decide; repeat case_bool_decide; try done; cbn; lra.
Qed.

(** The two accumulation loops, on real data. *)

Lemma add_bincounts_fin n (vx vy : list R) (gx gy : nat -> R) idx :
  length vx = length idx -> length vy = length idx ->
  Forall (fun i => i < n) idx ->
  add_bincounts n (Fin <$> vx, Fin <$> vy)
    (Ok ((fun p => (Fin (gx p), Fin (gy p))) <$> seq 0 n)) idx
  = Ok ((fun p => (Fin (gx p + wsum p idx vx), Fin (gy p + wsum p idx vy)))
          <$> seq 0 n).
Proof.
  intros Hx Hy Hidx. unfold add_bincounts. cbn.
  rewrite !bincount_fin by done. cbn.
  rewrite zip_tabulate, inplace_same by (by rewrite !length_fmap).
  by rewrite zip_with_tabulate.
Qed.

Lemma add_bincount_fin n (w : list R) (g : nat -> R) idx :
  length w = length idx -> Forall (fun i => i < n) idx ->
  add_bincount n (Fin <$> w) (Ok ((fun p => Fin (g p)) <$> seq 0 n)) idx
  = Ok ((fun p => Fin (g p + wsum p idx w)) <$> seq 0 n).
Proof.
  intros Hw Hidx. unfold add_bincount. cbn.
  rewrite bincount_fin by done. cbn.
  rewrite inplace_same by (by rewrite !length_fmap).
  by rewrite zip_with_tabulate.
Qed.

Lemma new_points_fin n cs (vx vy : list R) :
  length vx = length cs -> length vy = length cs -> cells_in_range n cs ->
  foldl (add_bincounts n (Fin <$> vx, Fin <$> vy)) (Ok (replicate n vzero))
        (cell_columns cs)
  = Ok ((fun p => (Fin (star_sum p cs vx), Fin (star_sum p cs vy)))
          <$> seq 0 n).
Proof.
  intros Hx Hy (H0 & H1 & H2)%columns_in_range.
  rewrite (replicate_tabulate vzero). unfold cell_columns, vzero. cbn [foldl].
  rewrite (add_bincounts_fin n vx vy (fun _ => 0%R) (fun _ => 0%R))
    by (by rewrite ?length_fmap).
  rewrite add_bincounts_fin by (by rewrite ?length_fmap).
  rewrite add_bincounts_fin by (by rewrite ?length_fmap).
  f_equal. apply list_fmap_ext. intros _ p _.
  rewrite <- !wsum_columns. f_equal; f_equal; lra.
Qed.

Lemma omega_fin n cs (w : list R) :
  length w = length cs -> cells_in_range n cs ->
  foldl (add_bincount n (Fin <$> w)) (Ok (replicate n (Fin 0)))
        (cell_columns cs)
  = Ok ((fun p => Fin (star_sum p cs w)) <$> seq 0 n).
Proof.
  intros Hw (H0 & H1 & H2)%columns_in_range.
  rewrite (replicate_tabulate (Fin 0)). unfold cell_columns. cbn [foldl].
  rewrite (add_bincount_fin n w (fun _ => 0%R)) by (by rewrite ?length_fmap).
  rewrite add_bincount_fin by (by rewrite ?length_fmap).
  rewrite add_bincount_fin by (by rewrite ?length_fmap).
  f_equal. apply list_fmap_ext. intros _ p _.
  rewrite <- !wsum_columns. f_equal; lra.
Qed.

Lemma alter_S_tabulate (g : nat -> nat) (j n : nat) :
  alter S j (g <$> seq 0 n)
  = (fun i => g i + (if decide (j = i) then 1 else 0)) <$> seq 0 n.
Proof.
  apply list_eq; intros i.
  destruct (decide (i = j)) as [->|Hne].
  - destruct (decide (j < n)) as [Hlt|Hge].
    + rewrite list_lookup_alter_eq, !list_lookup_fmap, lookup_seq_lt by done.
      cbn. rewrite decide_True by done. f_equal. lia.
    + rewrite list_lookup_alter_eq, !list_lookup_fmap, lookup_seq_ge by lia. done.
  - rewrite list_lookup_alter_ne by done.
    rewrite !list_lookup_fmap.
    destruct (seq 0 n !! i) as [k|] eqn:E; cbn; [|done].
    apply lookup_seq in E as [-> _]. rewrite decide_False by done.
    f_equal. lia.
Qed.

Lemma bincount_count_fold (g : nat -> nat) idx n :
  foldl (fun out i => alter S i out) (g <$> seq 0 n) idx
  = (fun i => g i + ncount i idx) <$> seq 0 n.
Proof.
  revert g. induction idx as [|j idx IH]; intros g; cbn.
  - apply list_fmap_ext. intros _ i _. lia.
  - rewrite alter_S_tabulate, IH.
    apply list_fmap_ext. intros _ i _. lia.
Qed.

Lemma bincount_count_spec idx n :
  Forall (fun i => i < n) idx ->
  bincount_count idx n = (fun p => ncount p idx) <$> seq 0 n.
Proof.
  intros Hidx. unfold bincount_count.
  rewrite bincount_len_bounded, (replicate_tabulate 0) by done.
  by rewrite bincount_count_fold.
Qed.

Lemma cells_flat_in_range n cs :
  cells_in_range n cs -> Forall (fun i => i < n) (cells_flat cs).
Proof.
  unfold cells_flat.
  induction 1 as [|c cs (?&?&?) _ IH]; cbn; [done|]. by repeat constructor.
Qed.

Lemma ncount_cells_flat p cs :
  INR (ncount p (cells_flat cs)) = star_sum p cs (replicate (length cs) 1%R).
Proof.
  unfold cells_flat.
  induction cs as [|c cs IH]; cbn; [done|].
  rewrite <- IH, !plus_INR. unfold incidence. rewrite !plus_INR.
  repeat case_decide; repeat case_bool_decide; try done; cbn; lra.
Qed.

Lemma fmap_fst_vfin (ref : list (R * R)) : fst <$> (vfin <$> ref) = Fin <$> (fst <$> ref).
Proof. by rewrite <- !list_fmap_compose. Qed.

Lemma fmap_snd_vfin (ref : list (R * R)) : snd <$> (vfin <$> ref) = Fin <$> (snd <$> ref).
Proof. by rewrite <- !list_fmap_compose. Qed.

Lemma zip_with_weights {A} (f : A -> R) (ref : list A) (w : list R) :
  zip_with Rmult (f <$> ref) w = zip_with (fun w r => w * f r)%R w ref.
Proof.
  revert w; induction ref; intros [|x w]; cbn; try done. f_equal; [lra|auto].
Qed.

Lemma zip_with_ones {A B} (f : A -> R) (cs : list B) (ref : list A) :
  length ref = length cs ->
  zip_with (fun w r => w * f r)%R (replicate (length cs) 1%R) ref = f <$> ref.
Proof.
  revert ref; induction cs; intros [|x v]; cbn; try done.
  intros [=]. f_equal; [lra|auto].
Qed.

Lemma incident_positive p cs :
  (exists c, c ∈ cs /\ 0 < incidence p c) ->
  (0 < star_sum p cs (replicate (length cs) 1%R))%R.
Proof.
  intros (c & Hc & Hpos).
  assert (Hnn : forall cs', (0 <= star_sum p cs' (replicate (length cs') 1%R))%R).
  { induction cs' as [|c' cs' IH]; cbn; [lra|].
    pose proof (pos_INR (incidence p c')). lra. }
  induction Hc as [c cs|c c' cs Hc IH]; cbn.
  - pose proof (Hnn cs). apply lt_INR in Hpos. cbn in Hpos. lra.
  - pose proof (pos_INR (incidence p c')). specialize (IH Hpos). lra.
Qed.

Lemma bind_Ok {A B} (a : A) (f : A -> result B) : Ok a ≫= f = f a.
Proof. done. Qed.

(** The averaging step on real data of consistent shapes: it returns, and each
    row is the quotient of the accumulated sums. *)
Lemma get_new_points_averaged_real (m : mesh) (ref : list (R * R))
    (weights : option (list R)) :
  let n := length (points m) in
  let cs := cells m in
  let ws := default (replicate (length cs) 1%R) weights in
  cells_in_range n cs ->
  length ref = length cs ->
  length ws = length cs ->
  get_new_points_averaged m (map vfin ref) (fmap (M:=option) (map Fin) weights)
  = Ok (map (fun p =>
               vdivs (Fin (star_sum p cs
                         (zip_with (fun w (r : R * R) => w * r.1)%R ws ref)),
                      Fin (star_sum p cs
                         (zip_with (fun w (r : R * R) => w * r.2)%R ws ref)))
                     (Fin (star_sum p cs ws)))
            (seq 0 n)).
Proof.
  intros n cs ws Hcs Href Hws.
  unfold get_new_points_averaged. fold n cs.
  assert (Hscaled :
    scaled_reference (map vfin ref) (fmap (M:=option) (map Fin) weights)
    = Ok (map Fin (zip_with (fun w (r : R * R) => w * r.1)%R ws ref),
          map Fin (zip_with (fun w (r : R * R) => w * r.2)%R ws ref))).
  { unfold scaled_reference. destruct weights as [w|]; cbn.
    - cbn in ws. subst ws.
      rewrite fmap_fst_vfin, fmap_snd_vfin.
      rewrite !broadcast_same by (rewrite !length_fmap; congruence). cbn.
      by rewrite !zip_with_fmul_fin, !zip_with_weights.
    - cbn in ws. subst ws. rewrite fmap_fst_vfin, fmap_snd_vfin.
      by rewrite !zip_with_ones. }
  rewrite Hscaled, bind_Ok. cbn [fst snd].
  rewrite new_points_fin, bind_Ok
    by (rewrite ?length_zip_with; try done; lia).
  assert (Homega :
    match fmap (M:=option) (map Fin) weights with
    | Some w =>
        foldl (add_bincount n w) (Ok (replicate n (Fin 0))) (cell_columns cs)
    | None => Ok (map of_nat (bincount_count (cells_flat cs) n))
    end = Ok (map (fun p => Fin (star_sum p cs ws)) (seq 0 n))).
  { destruct weights as [w|]; cbn.
    - by apply omega_fin.
    - rewrite bincount_count_spec by (by apply cells_flat_in_range).
      rewrite <- list_fmap_compose. f_equal. apply list_fmap_ext.
      intros _ p _. cbn. unfold of_nat. by rewrite ncount_cells_flat. }
  rewrite Homega, bind_Ok.
  rewrite inplace_same by (by rewrite !length_fmap).
  by rewrite zip_with_tabulate.
Qed.

(** ** The averaging aggregator *)

(** C6: on a mesh in which every point has an incident cell and, when
    weights are given, a positive weight sum, [get_new_points_averaged]
    returns for each point the weighted sum of the reference values of its
    incident cells divided by the sum of their weights; the weights are 1 when
    the argument is omitted, and a cell counts once for each occurrence of the
    point among its corners. *)
Theorem get_new_points_averaged_correct (m : mesh) (ref : list (R * R))
    (weights : option (list R)) :
  let n := length (points m) in
  let cs := cells m in
  let ws := default (replicate (length cs) 1%R) weights in
  cells_in_range n cs ->
  length ref = length cs ->
  length ws = length cs ->
  (forall p, p < n -> exists c, c ∈ cs /\ 0 < incidence p c) ->
  (is_Some weights -> forall p, p < n -> (0 < star_sum p cs ws)%R) ->
  get_new_points_averaged m (map vfin ref) (fmap (M:=option) (map Fin) weights)
  = Ok (map (fun p => vfin (averaged_spec cs ref ws p)) (seq 0 n)).
Proof.
  intros n cs ws Hcs Href Hws Hinc Hpos.
  assert (Hsum : forall p, p < n -> (0 < star_sum p cs ws)%R).
  { destruct weights as [w|]; [by apply Hpos|].
    intros p Hp. by apply incident_positive, Hinc. }
  rewrite get_new_points_averaged_real by done. fold n cs ws. f_equal.
  apply list_fmap_ext. intros i p Hp%lookup_seq. destruct Hp as [-> Hp].
  specialize (Hsum _ Hp). unfold vdivs, averaged_spec, vfin. cbn.
  rewrite !decide_False by lra. done.
Qed.

(** ** Degenerate inputs of the averaging aggregator *)

Ltac np_step :=
  first [ rewrite decide_True by (cbn; first [lia | lra | done])
        | rewrite decide_False by (cbn; first [lia | lra | done])
        | rewrite bool_decide_eq_true_2 by (cbn; first [lia | lra | done])
        | rewrite bool_decide_eq_false_2 by (cbn; first [lia | lra | done]) ].
Ltac np_eval := cbn; repeat (np_step; cbn).

Lemma star_sum_not_incident p cs v :
  (forall c, c ∈ cs -> incidence p c = 0) -> star_sum p cs v = 0%R.
Proof.
  revert v; induction cs as [|c cs IH]; intros [|x v] H; cbn; try done.
  rewrite (H c) by constructor.
  rewrite IH by (intros c' Hc'; apply H; by constructor).
  cbn. lra.
Qed.

Lemma inf_of_sign_not_finite r : ~ is_finite (inf_of_sign r PInf NInf).
Proof. unfold inf_of_sign. repeat case_decide; cbn; tauto. Qed.

Lemma vdivs_zero a b :
  ~ is_finite (vdivs (Fin a, Fin b) (Fin 0)).1
  /\ ~ is_finite (vdivs (Fin a, Fin b) (Fin 0)).2.
Proof.
  unfold vdivs. cbn [fst snd fdiv]. rewrite !decide_True by done.
  split; apply inf_of_sign_not_finite.
Qed.

(** C8, as the claim states it, fails: for a point of no cell the averaging
    step raises nothing; it returns an array whose row for that point is
    [(nan, nan)]. *)
Lemma get_new_points_averaged_isolated_point :
  (~ exists c, c ∈ cells isolated_point_mesh /\ 0 < incidence 3 c)
  /\ get_new_points_averaged isolated_point_mesh [vfin (1, 2)%R] None
     = Ok [vfin (1, 2)%R; vfin (1, 2)%R; vfin (1, 2)%R; (NaN, NaN)].
Proof.
  split.
  - intros (c & Hc & Hpos). cbn in Hc. apply list_elem_of_singleton in Hc as ->.
    vm_compute in Hpos. lia.
  - unfold get_new_points_averaged, add_bincounts, inplace, bincount, vdivs,
      vadd, of_nat, fdiv, inf_of_sign.
    np_eval. unfold vfin; cbn. repeat f_equal; lra.
Qed.

(** C8, amended: on a degenerate input of consistent shapes the averaging
    step raises no error and returns an array: the row of a point of no cell
    is [(nan, nan)], a row whose weight sum is zero is not finite, and a
    negative weight sum divides like any other. *)
Theorem get_new_points_averaged_degenerate (m : mesh) (ref : list (R * R))
    (weights : option (list R)) :
  let n := length (points m) in
  let cs := cells m in
  let ws := default (replicate (length cs) 1%R) weights in
  cells_in_range n cs ->
  length ref = length cs ->
  length ws = length cs ->
  exists out,
    get_new_points_averaged m (map vfin ref)
                            (fmap (M:=option) (map Fin) weights) = Ok out
    /\ length out = n
    /\ forall p, p < n ->
         ((forall c, c ∈ cs -> incidence p c = 0) ->
          out !! p = Some (NaN, NaN))
         /\ (star_sum p cs ws = 0%R ->
             exists row, out !! p = Some row
                         /\ ~ is_finite row.1 /\ ~ is_finite row.2)
         /\ ((star_sum p cs ws < 0)%R ->
             out !! p = Some (vfin (averaged_spec cs ref ws p))).
Proof.
  intros n cs ws Hcs Href Hws.
  rewrite get_new_points_averaged_real by done. fold n cs ws.
  match goal with |- exists o, Ok ?x = Ok o /\ _ => exists x end.
  split; [done|]. split; [by rewrite length_fmap, length_seq|].
  intros p Hp.
  split; [|split]; intros H; rewrite list_lookup_fmap, lookup_seq_lt by done;
    cbn [fmap option_fmap option_map Nat.add]; revert H.
  - intros Hiso. rewrite !star_sum_not_incident by done.
    unfold vdivs. cbn [fst snd fdiv]. rewrite !decide_True by done.
    unfold inf_of_sign. by rewrite !decide_False by lra.
  - intros Hz. eexists; split; [done|]. rewrite Hz. apply vdivs_zero.
  - intros Hneg. unfold vdivs, averaged_spec, vfin. cbn [fst snd fdiv].
    by rewrite !decide_False by lra.
Qed.

(** ** The reference points of the fixed-point rules *)

Lemma bind_Ok_inv {A B} (c : result A) (f : A -> result B) b :
  c ≫= f = Ok b -> exists a, c = Ok a /\ f a = Ok b.
Proof. destruct c as [a| |]; cbn; [by exists a|done..]. Qed.

Lemma take_Ok_inv {A} idx (a : list A) v :
  take idx a = Ok v -> Forall2 (fun i x => a !! i = Some x) idx v.
Proof.
  revert v; induction idx as [|i idx IH]; intros v; cbn.
  - intros [= <-]. constructor.
  - destruct (a !! i) as [x|] eqn:E; [|done].
    intros (xs & Hxs & [= <-])%bind_Ok_inv. constructor; auto.
Qed.

Lemma take_in_range {A} idx (a : list A) :
  Forall (fun i => i < length a) idx -> exists v, take idx a = Ok v.
Proof.
  induction 1 as [|i idx Hi _ [v Hv]]; cbn; [by eexists|].
  destruct (lookup_lt_is_Some_2 a i Hi) as [x ->]. rewrite Hv. by eexists.
Qed.

Lemma put_take_spec {A} (ids : list nat) (bc : list A) :
  forall (cc : list A) v,
  Forall2 (fun i x => bc !! i = Some x) ids v ->
  Forall (fun i => i < length cc) ids ->
  exists out, put ids v cc = Ok out /\ length out = length cc
    /\ forall k, out !! k = if decide (k ∈ ids) then bc !! k else cc !! k.
Proof.
  induction ids as [|i ids IH]; intros cc v Hv Hcc.
  - apply Forall2_nil_inv_l in Hv as ->. exists cc. split; [done|]. split; [done|].
    intros k. rewrite decide_False; [done|]. by intros ?%elem_of_nil.
  - apply Forall2_cons_inv_l in Hv as (x & v' & Hx & Hv' & ->).
    apply Forall_cons in Hcc as [Hi Hcc]. cbn. rewrite decide_True by done.
    destruct (IH (<[i:=x]> cc) v' Hv') as (out & Hout & Hlen & Hlook).
    { by rewrite length_insert. }
    exists out. split; [done|]. split; [by rewrite Hlen, length_insert|].
    intros k. rewrite Hlook.
    destruct (decide (k ∈ ids)) as [Hk|Hk].
    + rewrite decide_True; [done|]. by right.
    + destruct (decide (k = i)) as [->|Hne].
      * rewrite decide_True by left. by rewrite list_lookup_insert_eq.
      * rewrite decide_False by (rewrite elem_of_cons; by intros [?|?]).
        by rewrite list_lookup_insert_ne.
Qed.

Lemma reference_uniform_spec (m : mesh) :
  let ids := boundary_edges_cells m in
  Forall (fun i => i < length (cell_barycenters m)) ids ->
  Forall (fun i => i < length (cell_circumcenters m)) ids ->
  exists cc',
    FixedPointUniform.reference m = Ok (cc', set_cell_circumcenters m cc')
    /\ length cc' = length (cell_circumcenters m)
    /\ forall k, cc' !! k = if decide (k ∈ ids) then cell_barycenters m !! k
                            else cell_circumcenters m !! k.
Proof.
  intros ids Hbc Hcc. unfold FixedPointUniform.reference. fold ids.
  destruct (take_in_range _ _ Hbc) as [v Hv]. rewrite Hv, bind_Ok.
  destruct (put_take_spec ids (cell_barycenters m) (cell_circumcenters m) v)
    as (out & Hout & Hlen & Hlook); [by apply take_Ok_inv|done|..].
  rewrite Hout, bind_Ok. by exists out.
Qed.

Lemma mask_select_Ok {A} (mask : list bool) (a : list A) :
  length mask = length a ->
  mask_select mask a
  = Ok (select mask a).
Proof. intros H. unfold mask_select. by rewrite decide_True. Qed.

Lemma mask_select_Ok_inv {A} (mask : list bool) (a v : list A) :
  mask_select mask a = Ok v ->
  length mask = length a
  /\ v = select mask a.
Proof. unfold mask_select. case_decide; [|done]. by intros [= <-]. Qed.

Lemma length_mask_select {A} (mask : list bool) (a : list A) :
  length mask = length a ->
  length (select mask a) = count_true mask.
Proof.
  unfold select.
  revert a; induction mask as [|[] mask IH]; intros [|x a];
    cbn; try done; intros [=]; auto.
Qed.

(** Rows under the mask come from [g], the others from [a]. *)
Lemma mask_fill_select {A} (mask : list bool) (g a : list A) :
  length mask = length g -> length mask = length a ->
  mask_fill mask (select mask g) a
  = zip_with (fun (b : bool) (ga : A * A) => if b then ga.1 else ga.2)
             mask (zip g a).
Proof.
  unfold select.
  revert g a; induction mask as [|[] mask IH]; intros [|y g] [|x a];
    cbn; try done; intros [=] [=]; f_equal; auto.
Qed.

Lemma mask_assign_select {A} (mask : list bool) (g a : list A) :
  length mask = length g -> length mask = length a ->
  (v ← mask_select mask g; mask_assign mask v a)
  = Ok (zip_with (fun (b : bool) (ga : A * A) => if b then ga.1 else ga.2)
                 mask (zip g a)).
Proof.
  intros Hg Ha. rewrite mask_select_Ok, bind_Ok by done.
  unfold mask_assign. rewrite decide_True by done.
  rewrite decide_True by (by apply length_mask_select).
  by rewrite mask_fill_select.
Qed.

Lemma take_cells_Ok_inv {A} cs (a : list A) v :
  take_cells cs a = Ok v ->
  Forall2 (fun (c : cell) (x : A * A * A) =>
             a !! c.1.1 = Some x.1.1 /\ a !! c.1.2 = Some x.1.2
             /\ a !! c.2 = Some x.2) cs v.
Proof.
  revert v; induction cs as [|c cs IH]; intros v; cbn.
  - intros [= <-]. constructor.
  - destruct (a !! c.1.1) as [x|] eqn:E1; [|done].
    destruct (a !! c.1.2) as [y|] eqn:E2; [|done].
    destruct (a !! c.2) as [z|] eqn:E3; [|done].
    intros (xs & Hxs & [= <-])%bind_Ok_inv. constructor; auto.
Qed.

Lemma take_cells_length {A} cs (a : list A) v :
  take_cells cs a = Ok v -> length v = length cs.
Proof.
  intros H%take_cells_Ok_inv. symmetry. by eapply Forall2_length.
Qed.

(** What the density-preserving rule hands to the averaging step: the
    barycenter for the cells with exactly two boundary corners, the
    circumcenter for all others. *)
Lemma reference_density_preserving_spec (m : mesh) flags :
  take_cells (cells m) (is_boundary_point m) = Ok flags ->
  length (cell_barycenters m) = length (cells m) ->
  length (cell_circumcenters m) = length (cells m) ->
  FixedPointDensityPreserving.reference m
  = Ok (zip_with
          (fun (f : bool * bool * bool) (r : vec2 * vec2) =>
             if bool_decide (Nat.b2n f.1.1 + Nat.b2n f.1.2 + Nat.b2n f.2 = 2)
             then r.1 else r.2)
          flags (zip (cell_barycenters m) (cell_circumcenters m))).
Proof.
  intros Hflags Hbc Hcc.
  pose proof (take_cells_length _ _ _ Hflags) as Hlen.
  unfold FixedPointDensityPreserving.reference,
    FixedPointDensityPreserving.is_boundary_cell.
  rewrite Hflags, !bind_Ok.
  rewrite mask_assign_select by (rewrite length_fmap; lia).
  f_equal. generalize (zip (cell_barycenters m) (cell_circumcenters m)).
  clear. induction flags as [|f flags IH]; intros [|r l]; cbn; try done.
  by rewrite IH.
Qed.

(** C7: on a mesh of one triangle the two rules disagree: the uniform rule
    hands the barycenter of the cell to the averaging step, the
    density-preserving rule its circumcenter, although all three edges of the
    cell are boundary edges. *)
Theorem fixed_point_references_differ :
  FixedPointUniform.reference single_triangle_mesh
  = Ok ([vfin (1 / 3, 1 / 3)%R],
        set_cell_circumcenters single_triangle_mesh [vfin (1 / 3, 1 / 3)%R])
  /\ FixedPointDensityPreserving.reference single_triangle_mesh
     = Ok [vfin (1 / 2, 1 / 2)%R].
Proof.
  split.
  - unfold FixedPointUniform.reference. by np_eval.
  - unfold FixedPointDensityPreserving.reference,
      FixedPointDensityPreserving.is_boundary_cell, mask_select, mask_assign.
    by np_eval.
Qed.

(** ** The circumcenter array of the mesh *)

Lemma put_take_inv {A} (ids : list nat) (bc : list A) :
  forall (cc : list A) v out,
  Forall2 (fun i x => bc !! i = Some x) ids v ->
  put ids v cc = Ok out ->
  length out = length cc
  /\ forall k, out !! k = if decide (k ∈ ids) then bc !! k else cc !! k.
Proof.
  induction ids as [|i ids IH]; intros cc v out Hv.
  - apply Forall2_nil_inv_l in Hv as ->. cbn. intros [= <-]. split; [done|].
    intros k. rewrite decide_False; [done|]. by intros ?%elem_of_nil.
  - apply Forall2_cons_inv_l in Hv as (x & v' & Hx & Hv' & ->). cbn.
    case_decide as Hi; [|done]. intros Hout.
    destruct (IH _ _ _ Hv' Hout) as [Hlen Hlook].
    split; [by rewrite Hlen, length_insert|].
    intros k. rewrite Hlook.
    destruct (decide (k ∈ ids)) as [Hk|Hk].
    + rewrite decide_True; [done|]. by right.
    + destruct (decide (k = i)) as [->|Hne].
      * rewrite decide_True by left. by rewrite list_lookup_insert_eq.
      * rewrite decide_False by (rewrite elem_of_cons; tauto).
        by rewrite list_lookup_insert_ne.
Qed.

Lemma reference_uniform_inv (m : mesh) cc' m' :
  FixedPointUniform.reference m = Ok (cc', m') ->
  m' = set_cell_circumcenters m cc'
  /\ length cc' = length (cell_circumcenters m)
  /\ forall k, cc' !! k = if decide (k ∈ boundary_edges_cells m)
                          then cell_barycenters m !! k
                          else cell_circumcenters m !! k.
Proof.
  unfold FixedPointUniform.reference.
  intros (v & Hv%take_Ok_inv & (out & Hout & [= <- <-])%bind_Ok_inv)%bind_Ok_inv.
  split; [done|]. by eapply put_take_inv.
Qed.

(** C10: the uniform rule writes the barycenters of the cells of the
    boundary edges into the circumcenter array of the mesh itself: after the
    rule has run the stored array holds a barycenter wherever it differs from
    the circumcenter, while points and cells are as before; the
    density-preserving rule works on a copy and returns the mesh as it
    was. *)
Theorem uniform_rule_overwrites_mesh_circumcenters
    (boundary_step : option boundary_step_fn) (m : mesh) :
  let ids := boundary_edges_cells m in
  let cc := cell_circumcenters m in
  let bc := cell_barycenters m in
  Forall (fun i => i < length bc) ids ->
  Forall (fun i => i < length cc) ids ->
  (exists cc',
     FixedPointUniform.reference m = Ok (cc', set_cell_circumcenters m cc'))
  /\ (forall X m',
        FixedPointUniform.get_new_points boundary_step m = Ok (X, m') ->
        points m' = points m
        /\ cells m' = cells m
        /\ (forall k, cell_circumcenters m' !! k
                      = if decide (k ∈ ids) then bc !! k else cc !! k)
        /\ (forall k, k ∈ ids -> bc !! k <> cc !! k ->
                      cell_circumcenters m' !! k <> cc !! k))
  /\ (forall X m',
        FixedPointDensityPreserving.get_new_points boundary_step m
        = Ok (X, m') ->
        m' = m).
Proof.
  intros ids cc bc Hbc Hcc. split; [|split].
  - destruct (reference_uniform_spec m Hbc Hcc) as (cc' & H & _). by exists cc'.
  - intros X m'. unfold FixedPointUniform.get_new_points.
    intros ([cc' m1] & Href & H)%bind_Ok_inv.
    apply reference_uniform_inv in Href as (-> & Hlen & Hlook).
    apply bind_Ok_inv in H as (X1 & _ & H).
    apply bind_Ok_inv in H as (X2 & _ & [= <- <-]).
    split; [done|]. split; [done|]. split; [done|].
    intros k Hk Hne. cbn. rewrite Hlook, decide_True by done. done.
  - intros X m'. unfold FixedPointDensityPreserving.get_new_points.
    intros (cc' & _ & H)%bind_Ok_inv.
    apply bind_Ok_inv in H as (X1 & _ & H).
    by apply bind_Ok_inv in H as (X2 & _ & [= <- <-]).
Qed.

(** ** The step bound *)

(** [min_inradius] is what its name says: the inradius of an incident cell
    that no incident cell undercuts, and nothing for a point of no cell. *)
Lemma star_min_spec p : forall cs inr acc,
  length inr = length cs ->
  match star_min p cs inr acc with
  | Some b =>
      (acc = Some b
       \/ exists k c, cs !! k = Some c /\ 0 < incidence p c
                      /\ inr !! k = Some b)
      /\ (forall x, acc = Some x -> (b <= x)%R)
      /\ (forall k c r, cs !! k = Some c -> 0 < incidence p c ->
                        inr !! k = Some r -> (b <= r)%R)
  | None => acc = None /\ forall c, c ∈ cs -> incidence p c = 0
  end.
Proof.
  induction cs as [|c cs IH]; intros [|r inr] acc Hlen; cbn in *; try done.
  - destruct acc as [x|].
    + split; [by left|]. split; [intros ? [= <-]; lra|].
      intros k ? ?. by rewrite lookup_nil.
    + split; [done|]. intros ?. by rewrite elem_of_nil.
  - specialize (IH inr (if decide (0 < incidence p c) then omin acc r else acc)
                  ltac:(lia)).
    destruct (star_min p cs inr _) as [b|].
    + destruct IH as (Hex & Hacc & Hall). case_decide as Hinc.
      * split; [|split].
        -- destruct Hex as [Hb|(k & c' & ? & ? & ?)].
           ++ destruct acc as [x|]; cbn in Hb; injection Hb as <-.
              ** unfold Rmin. destruct (Rle_dec x r); [by left|].
                 right. by exists 0, c.
              ** right. by exists 0, c.
           ++ right. by exists (S k), c'.
        -- intros x ->. specialize (Hacc _ eq_refl).
           pose proof (Rmin_l x r). lra.
        -- intros [|k] c' r'; cbn; [|apply Hall].
           intros [= <-] _ [= <-]. destruct acc as [x|].
           ++ specialize (Hacc _ eq_refl). pose proof (Rmin_r x r). lra.
           ++ specialize (Hacc _ eq_refl). lra.
      * split; [|split; [done|]].
        -- destruct Hex as [Hb|(k & c' & ? & ? & ?)]; [by left|].
           right. by exists (S k), c'.
        -- intros [|k] c' r'; cbn; [|apply Hall].
           intros [= <-] ?. lia.
    + destruct IH as [Hnone Hall]. case_decide as Hinc.
      * by destruct acc.
      * split; [done|]. intros c' [->|?]%elem_of_cons; [lia|auto].
Qed.

Lemma min_inradius_spec p cs inr :
  length inr = length cs ->
  match min_inradius p cs inr with
  | Some b =>
      (exists k c, cs !! k = Some c /\ 0 < incidence p c
                   /\ inr !! k = Some b)
      /\ (forall k c r, cs !! k = Some c -> 0 < incidence p c ->
                        inr !! k = Some r -> (b <= r)%R)
  | None => forall c, c ∈ cs -> incidence p c = 0
  end.
Proof.
  intros Hlen. unfold min_inradius.
  pose proof (star_min_spec p cs inr None Hlen) as H.
  destruct (star_min p cs inr None) as [b|].
  - destruct H as ([?|?] & _ & ?); done.
  - by destruct H.
Qed.

Lemma fminimum_to_float acc r :
  fminimum (to_float acc) (Fin r) = to_float (omin acc r).
Proof.
  destruct acc as [x|]; cbn; [|done].
  unfold Rmin. case_bool_decide; destruct (Rle_dec x r); done.
Qed.

Lemma alter_min_tabulate (g : nat -> option R) (j : nat) (r : R) (n : nat) :
  alter (fun x => fminimum x (Fin r)) j ((fun i => to_float (g i)) <$> seq 0 n)
  = (fun i => to_float (if decide (j = i) then omin (g i) r else g i))
      <$> seq 0 n.
Proof.
  apply list_eq; intros i.
  destruct (decide (i = j)) as [->|Hne].
  - destruct (decide (j < n)) as [Hlt|Hge].
    + rewrite list_lookup_alter_eq, !list_lookup_fmap, lookup_seq_lt by done.
      cbn. by rewrite decide_True, fminimum_to_float.
    + rewrite list_lookup_alter_eq, !list_lookup_fmap, lookup_seq_ge by lia. done.
  - rewrite list_lookup_alter_ne by done.
    rewrite !list_lookup_fmap.
    destruct (seq 0 n !! i) as [k|] eqn:E; cbn; [|done].
    apply lookup_seq in E as [-> _]. by rewrite decide_False.
Qed.

Lemma minimum_at_fold (g : nat -> option R) idx vals n :
  length vals = length idx -> Forall (fun i => i < n) idx ->
  foldl (fun acc (iv : nat * float) =>
           a' ← acc;
           if decide (iv.1 < length a') then
             Ok (alter (fun x => fminimum x iv.2) iv.1 a')
           else Raise IndexError)
        (Ok ((fun i => to_float (g i)) <$> seq 0 n))
        (zip idx (Fin <$> vals))
  = Ok ((fun i => to_float (wmin i idx vals (g i))) <$> seq 0 n).
Proof.
  revert g vals. induction idx as [|j idx IH]; intros g [|r vals] Hlen Hidx;
    try done.
  cbn in Hlen. apply Forall_cons in Hidx as [Hj Hidx].
  cbn [zip zip_with fmap list_fmap foldl wmin]. rewrite bind_Ok. cbn [fst snd].
  rewrite decide_True by (by rewrite length_fmap, length_seq).
  rewrite alter_min_tabulate, IH by (done || lia). done.
Qed.

Lemma minimum_at_real idx vals n :
  length vals = length idx -> Forall (fun i => i < n) idx ->
  minimum_at (replicate n PInf) idx (Fin <$> vals)
  = Ok ((fun p => to_float (wmin p idx vals None)) <$> seq 0 n).
Proof.
  intros Hlen Hidx. unfold minimum_at.
  rewrite decide_True, bind_Ok by (by rewrite length_fmap).
  rewrite (replicate_tabulate PInf).
  by rewrite (minimum_at_fold (fun _ => None)).
Qed.

Lemma omin_idem acc r : omin (omin acc r) r = omin acc r.
Proof.
  destruct acc as [x|]; unfold omin; f_equal; apply Rmin_left;
    [apply Rmin_r|lra].
Qed.

Lemma wmin_cells p cs inr acc :
  wmin p (cells_flat cs) (repeat3 inr) acc = star_min p cs inr acc.
Proof.
  unfold cells_flat, repeat3.
  revert inr acc; induction cs as [|c cs IH]; intros [|r inr] acc; try done.
  cbn. rewrite IH. f_equal. unfold incidence.
  repeat case_decide; repeat case_bool_decide; cbn in *;
    rewrite ?omin_idem; try done; lia.
Qed.

Lemma repeat3_fmap {A B} (f : A -> B) (a : list A) :
  repeat3 (f <$> a) = f <$> repeat3 a.
Proof. unfold repeat3. induction a; cbn; [done|]. by rewrite IHa. Qed.

Lemma length_repeat3_cells {A} (a : list A) cs :
  length a = length cs -> length (repeat3 a) = length (cells_flat cs).
Proof.
  unfold repeat3, cells_flat.
  revert a; induction cs as [|c cs IH]; intros [|x a]; cbn; try done.
  intros [=]. auto.
Qed.

Lemma max_step_real (m : mesh) (inr : list R) :
  cells_in_range (length (points m)) (cells m) ->
  cell_inradius m = Fin <$> inr ->
  length inr = length (cells m) ->
  max_step m
  = Ok ((fun p => to_float (step_bound p (cells m) inr))
          <$> seq 0 (length (points m))).
Proof.
  intros Hcs Hinr Hlen. unfold max_step.
  rewrite Hinr, repeat3_fmap, minimum_at_real, bind_Ok
    by (by apply length_repeat3_cells || by apply cells_flat_in_range).
  rewrite <- list_fmap_compose. f_equal. apply list_fmap_ext. intros _ p _. cbn.
  rewrite wmin_cells. unfold step_bound, min_inradius.
  destruct (star_min p (cells m) inr None) as [x|]; cbn.
  - f_equal. lra.
  - unfold inf_of_sign. by rewrite decide_True by lra.
Qed.

(** ** The clamp of the displacement *)

Lemma mask_fill_scaled (mask : list bool) (d : list vec2) (ms sl : list float) :
  length d = length mask -> length ms = length mask ->
  length sl = length mask ->
  mask_fill mask
    (zip_with vmuls (select mask d)
       (zip_with fdiv (select mask ms) (select mask sl))) d
  = zip_with (fun (b : bool) (x : vec2 * (float * float)) =>
                if b then vmuls x.1 (fdiv x.2.1 x.2.2) else x.1)
      mask (zip d (zip ms sl)).
Proof.
  unfold select.
  revert d ms sl; induction mask as [|[] mask IH];
    intros [|x d] [|y ms] [|z sl]; cbn; try done;
    intros [=] [=] [=]; f_equal; auto.
Qed.

Lemma clamp_rows (diff : list vec2) (ms : list float) :
  length ms = length diff ->
  clamp diff ms = Ok (zip_with clamp_row diff ms).
Proof.
  intros Hlen. unfold clamp.
  set (sl := (fun d => fsqrt (vdot d d)) <$> diff).
  assert (Hsl : length sl = length diff) by (by unfold sl; rewrite length_fmap).
  rewrite broadcast_same, bind_Ok by congruence.
  set (mask := zip_with fgt sl ms).
  assert (Hmask : length mask = length diff).
  { unfold mask. rewrite length_zip_with. lia. }
  rewrite !mask_select_Ok, !bind_Ok by congruence.
  unfold mask_assign. rewrite decide_True by done.
  rewrite decide_True.
  2:{ rewrite !length_zip_with, !length_mask_select by congruence. lia. }
  rewrite mask_fill_scaled by congruence. f_equal.
  unfold mask, sl. clear. revert ms; induction diff as [|d diff IH];
    intros [|b ms]; cbn; try done. f_equal; auto.
Qed.

Lemma norm_nonneg v : (0 <= norm v)%R.
Proof. apply sqrt_pos. Qed.

Lemma norm_scale (s : R) (v : R * R) :
  (0 <= s)%R -> norm (v.1 * s, v.2 * s)%R = (s * norm v)%R.
Proof.
  intros Hs. unfold norm. cbn.
  replace (v.1 * s * (v.1 * s) + v.2 * s * (v.2 * s))%R
    with ((s * s) * (v.1 * v.1 + v.2 * v.2))%R by lra.
  rewrite sqrt_mult by nra. by rewrite sqrt_square.
Qed.

Lemma fsqrt_vdot_fin (v : R * R) : fsqrt (vdot (vfin v) (vfin v)) = Fin (norm v).
Proof.
  unfold vdot, vfin, norm. cbn. rewrite decide_False; [done|]. nra.
Qed.

Lemma clamp_row_fin (raw : R * R) (bound : option R) :
  (forall b, bound = Some b -> 0 <= b)%R ->
  clamp_row (vfin raw) (to_float bound) = vfin (clamp_real raw bound).
Proof.
  intros Hb. unfold clamp_row, clamp_real. rewrite fsqrt_vdot_fin.
  destruct bound as [b|]; cbn [to_float fgt flt]; [|done].
  specialize (Hb b eq_refl). pose proof (norm_nonneg raw) as Hn.
  case_bool_decide as Hlt.
  - rewrite decide_True by done. unfold vmuls, vfin. cbn.
    by rewrite decide_False by lra.
  - by rewrite decide_False.
Qed.

Lemma clamp_real_spec (raw : R * R) (bound : option R) :
  (forall b, bound = Some b -> 0 <= b)%R ->
  match bound with
  | Some b =>
      ((b < norm raw)%R ->
       clamp_real raw bound
       = (raw.1 * (b / norm raw), raw.2 * (b / norm raw))%R
       /\ (0 <= b / norm raw)%R /\ norm (clamp_real raw bound) = b)
      /\ ((norm raw <= b)%R -> clamp_real raw bound = raw)
      /\ (norm (clamp_real raw bound) <= b)%R
  | None => clamp_real raw bound = raw
  end.
Proof.
  intros Hb. destruct bound as [b|]; [|done]. unfold clamp_real.
  specialize (Hb b eq_refl). pose proof (norm_nonneg raw) as Hn.
  case_decide as Hlt.
  - assert (Hs : (0 <= b / norm raw)%R).
    { apply Rmult_le_pos; [done|]. apply Rlt_le, Rinv_0_lt_compat. lra. }
    assert (Hnorm :
      norm (raw.1 * (b / norm raw), raw.2 * (b / norm raw))%R = b).
    { rewrite (norm_scale _ raw) by done. field. lra. }
    split; [done|]. split; [lra|]. lra.
  - split; [lra|]. split; [done|]. lra.
Qed.

Lemma star_min_nonneg p cs inr acc b :
  Forall (fun r => 0 <= r)%R inr ->
  (forall a, acc = Some a -> 0 <= a)%R ->
  star_min p cs inr acc = Some b -> (0 <= b)%R.
Proof.
  intros Hinr. revert cs acc.
  induction Hinr as [|r inr Hr _ IH]; intros [|c cs] acc Hacc; cbn;
    try (by intros ->%Hacc).
  apply IH. case_decide; [|done]. intros a [= <-].
  destruct acc as [x|]; [|done]. apply Rmin_glb; [|done]. by apply Hacc.
Qed.

Lemma step_bound_nonneg p cs inr b :
  Forall (fun r => 0 <= r)%R inr -> step_bound p cs inr = Some b -> (0 <= b)%R.
Proof.
  intros Hinr. unfold step_bound, min_inradius.
  destruct (star_min p cs inr None) as [x|] eqn:E; [|done]. intros [= <-].
  apply star_min_nonneg in E; [lra|done..].
Qed.

Lemma vsub_fin (x q : R * R) : vsub (vfin x) (vfin q) = vfin (x.1 - q.1, x.2 - q.2)%R.
Proof. done. Qed.
Lemma vadd_fin (q d : R * R) : vadd (vfin q) (vfin d) = vfin (q.1 + d.1, q.2 + d.2)%R.
Proof. done. Qed.

Lemma zip_with_fmap_fmap {A B C A' B' C'} (f : A' -> B' -> C') (g : A -> B -> C)
    (i : A -> A') (j : B -> B') (k : C -> C') (a : list A) (b : list B) :
  (forall x y, f (i x) (j y) = k (g x y)) ->
  zip_with f (i <$> a) (j <$> b) = k <$> zip_with g a b.
Proof.
  intros H. revert b; induction a as [|x a IH]; intros [|y b]; cbn; try done.
  by rewrite H, IH.
Qed.

Lemma fmap_zip_with_out {A B C D} (g : C -> D) (f : A -> B -> C) a b :
  g <$> zip_with f a b = zip_with (fun x y => g (f x y)) a b.
Proof. revert b; induction a; intros [|y b]; cbn; [done..|]. by f_equal. Qed.

(** C1, amended: in exact arithmetic, in an iteration of the runner on
    finite candidates, points and inradii, the displacement of a point whose
    raw displacement [omega * (candidate - current)] is longer than half the
    smallest inradius of its cells (read from the mesh before the points
    move; no bound for a point of no cell) is the raw displacement scaled by
    a non-negative factor so that its length is exactly the bound; every
    other displacement is the raw one; so no applied displacement is longer
    than the bound.  The displacement is what is added to the points. *)
Theorem displacement_clamped `{ops : MeshOps} (get_new_points : rule)
    (omega : R) (m m1 : mesh) (X P : list (R * R)) (inr : list R) :
  get_new_points m = Ok (map vfin X, m1) ->
  points m1 = map vfin P ->
  length X = length P ->
  cells_in_range (length P) (cells m1) ->
  cell_inradius m1 = map Fin inr ->
  length inr = length (cells m1) ->
  Forall (fun r => 0 <= r)%R inr ->
  exists diff : list (R * R),
    displacement get_new_points (Fin omega) m = Ok (map vfin diff, m1)
    /\ (forall surface_tol fuel,
          iteration get_new_points (Fin omega) None surface_tol fuel m
          = Ok (map vfin diff,
                flip_until_delaunay
                  (update_values
                     (set_points m1
                        (map vfin
                           (zip_with
                              (fun q d : R * R => (q.1 + d.1, q.2 + d.2)%R)
                              P diff))))))
    /\ length diff = length P
    /\ forall p raw, raw_displacement omega X P !! p = Some raw ->
         exists d, diff !! p = Some d
         /\ match step_bound p (cells m1) inr with
            | Some b =>
                ((b < norm raw)%R ->
                 d = (raw.1 * (b / norm raw), raw.2 * (b / norm raw))%R
                 /\ (0 <= b / norm raw)%R /\ norm d = b)
                /\ ((norm raw <= b)%R -> d = raw)
                /\ (norm d <= b)%R
            | None => d = raw
            end.
Proof.
  intros Hrule HP HX Hcs Hinr Hlen Hnn.
  set (bounds := (fun p => step_bound p (cells m1) inr) <$> seq 0 (length P)).
  exists (zip_with clamp_real (raw_displacement omega X P) bounds).
  assert (Hraw : length (raw_displacement omega X P) = length P).
  { unfold raw_displacement. rewrite length_zip_with. lia. }
  assert (Hbounds : length bounds = length P).
  { unfold bounds. by rewrite length_fmap, length_seq. }
  assert (Hdisp :
    displacement get_new_points (Fin omega) m
    = Ok (map vfin (zip_with clamp_real (raw_displacement omega X P) bounds),
          m1)).
  { unfold displacement. rewrite Hrule, bind_Ok. cbn beta iota zeta.
    rewrite HP, broadcast_same, bind_Ok by (by rewrite !length_fmap).
    rewrite (max_step_real m1 inr), bind_Ok
      by (rewrite ?HP, ?length_fmap; done).
    rewrite HP, length_fmap.
    replace ((fun p => to_float (step_bound p (cells m1) inr))
               <$> seq 0 (length P))
      with (to_float <$> bounds)
      by (by unfold bounds; rewrite <- list_fmap_compose).
    rewrite (zip_with_fmap_fmap vsub _ vfin vfin vfin X P vsub_fin).
    rewrite <- list_fmap_compose.
    rewrite (list_fmap_ext (vscale (Fin omega) ∘ vfin)
               (vfin ∘ (fun v : R * R => (omega * v.1, omega * v.2)%R)))
      by done.
    rewrite list_fmap_compose.
    rewrite clamp_rows, bind_Ok
      by (rewrite !length_fmap, length_zip_with; lia).
    do 2 f_equal.
    assert (Hall : Forall (fun bd => forall b, bd = Some b -> 0 <= b)%R bounds).
    { unfold bounds. apply Forall_fmap, Forall_forall. intros p _ b.
      by apply step_bound_nonneg. }
    unfold raw_displacement.
    replace ((fun v : R * R => (omega * v.1, omega * v.2)%R)
               <$> zip_with (fun x q : R * R => (x.1 - q.1, x.2 - q.2)%R) X P)
      with (zip_with (fun x q : R * R =>
                        (omega * (x.1 - q.1), omega * (x.2 - q.2))%R) X P)
      by (by rewrite fmap_zip_with_out).
    generalize (zip_with (fun x q : R * R =>
                  (omega * (x.1 - q.1), omega * (x.2 - q.2))%R) X P).
    clear -Hall. intros raws. revert raws.
    induction Hall as [|bd bounds Hbd _ IH]; intros [|raw raws]; cbn; try done.
    by rewrite clamp_row_fin, IH. }
  split; [done|]. split; [|split].
  - intros surface_tol fuel. unfold iteration. rewrite Hdisp, bind_Ok.
    cbn beta iota zeta.
    rewrite HP, inplace_same, bind_Ok
      by (rewrite !length_fmap, length_zip_with; lia).
    by rewrite (zip_with_fmap_fmap vadd _ vfin vfin vfin _ _ vadd_fin).
  - rewrite length_zip_with. lia.
  - intros p raw Hp.
    assert (Hlt : p < length P) by (apply lookup_lt_Some in Hp; lia).
    exists (clamp_real raw (step_bound p (cells m1) inr)).
    split.
    + rewrite lookup_zip_with, Hp. cbn. unfold bounds.
      by rewrite list_lookup_fmap, lookup_seq_lt.
    + apply clamp_real_spec. intros b. by apply step_bound_nonneg.
Qed.

(** ** The loop of the runner *)

Lemma project_to_surface_fuel fuel fuel' s tol pts fval r :
  project_to_surface fuel s tol pts fval = Ok r -> fuel <= fuel' ->
  project_to_surface fuel' s tol pts fval = Ok r.
Proof.
  revert fuel' pts fval. induction fuel as [|fuel IH]; intros fuel' pts fval.
  - cbn. destruct (np_any _) eqn:E; [done|]. intros [= <-] _.
    destruct fuel'; cbn; by rewrite E.
  - cbn. destruct (np_any _) eqn:E.
    + intros H Hle. destruct fuel' as [|fuel']; [lia|]. cbn. rewrite E.
      apply IH; [done|lia].
    + intros [= <-] _. destruct fuel'; cbn; by rewrite E.
Qed.

Section Loop.
Context `{ops : MeshOps}.
Variable get_new_points : rule.
Variable tol max_num_steps omega : float.
Variable surface : option implicit_surface.
Variable surface_tol : float.

Local Abbreviation iter := (iteration get_new_points omega surface surface_tol).
Local Abbreviation iters_from :=
  (iterations_from get_new_points omega surface surface_tol).
Local Abbreviation loop :=
  (runner_loop get_new_points tol max_num_steps omega surface surface_tol).
Local Abbreviation final := (is_final tol max_num_steps).

Lemma iteration_fuel fuel fuel' m r :
  iter fuel m = Ok r -> fuel <= fuel' -> iter fuel' m = Ok r.
Proof.
  unfold iteration. intros ([d m1] & -> & H)%bind_Ok_inv Hle.
  rewrite bind_Ok. cbn beta iota in *.
  apply bind_Ok_inv in H as (pts & -> & H). rewrite bind_Ok.
  apply bind_Ok_inv in H as (pts' & Hs & H).
  destruct surface as [s|]; [|by rewrite Hs].
  by rewrite (project_to_surface_fuel _ _ _ _ _ _ _ Hs Hle).
Qed.

(** One pass of the loop. *)
Lemma runner_loop_step fuel k m d m' :
  iter fuel m = Ok (d, m') ->
  loop (S fuel) k m
  = if final (S k) d
    then r ← np_max (map fsqrt (diff_norm_2 d)); Ok (S k, r, m')
    else loop fuel (S k) m'.
Proof. intros H. cbn. by rewrite H. Qed.

Lemma is_final_iff k d :
  final k d = true
  <-> Forall (fun v => flt (vdot v v) (fmul tol tol) = true) d
      \/ fge (of_nat k) max_num_steps = true.
Proof.
  unfold is_final, np_all, diff_norm_2.
  rewrite orb_true_iff, forallb_forall, Forall_forall.
  apply or_iff_compat_r. split.
  - intros H v Hv. apply H. apply in_map_iff.
    exists (vdot v v). split; [done|].
    apply list_elem_of_In, list_elem_of_fmap. by exists v.
  - intros H b (x & <- & Hx)%in_map_iff.
    apply list_elem_of_In, list_elem_of_fmap in Hx as (v & -> & Hv). by apply H.
Qed.

(** The loop returns at the first pass that is final. *)
Lemma runner_loop_first_final f j : forall fuel k m d0 d m' r,
  iters_from f (S j) d0 m = Ok (d, m') ->
  (forall i di mi, i < j -> iters_from f (S i) d0 m = Ok (di, mi) ->
                   final (k + S i) di = false) ->
  final (k + S j) d = true ->
  np_max (map fsqrt (diff_norm_2 d)) = Ok r ->
  f + j < fuel ->
  loop fuel k m = Ok (k + S j, r, m').
Proof.
  induction j as [|j IH]; intros fuel k m d0 d m' r Hit Hnot Hfin Hmax Hfuel.
  - destruct fuel as [|fuel]; [lia|]. cbn in Hit.
    apply bind_Ok_inv in Hit as ([d1 m1] & Hit & [= -> ->]).
    rewrite (runner_loop_step fuel k m d m')
      by (eapply iteration_fuel; [done|lia]).
    replace (k + 1) with (S k) in * by lia. by rewrite Hfin, Hmax.
  - destruct fuel as [|fuel]; [lia|].
    change (iters_from f (S (S j)) d0 m)
      with ('(d', m') ← iter f m; iters_from f (S j) d' m') in Hit.
    apply bind_Ok_inv in Hit as ([d1 m1] & Hit1 & Hit).
    rewrite (runner_loop_step fuel k m d1 m1)
      by (eapply iteration_fuel; [done|lia]).
    assert (H1 : final (S k) d1 = false).
    { replace (S k) with (k + 1) by lia. apply (Hnot 0 d1 m1); [lia|].
      cbn. by rewrite Hit1. }
    rewrite H1.
    replace (k + S (S j)) with (S k + S j) in * by lia.
    apply (IH fuel (S k) m1 d1 d m' r); [done| |done|done|lia].
    intros i di mi Hi Hiti.
    replace (S k + S i) with (k + S (S i)) by lia.
    apply (Hnot (S i) di mi); [lia|].
    change (iters_from f (S (S i)) d0 m)
      with ('(d', m') ← iter f m; iters_from f (S i) d' m').
    by rewrite Hit1.
Qed.
End Loop.

Lemma fmul_self_not_negative a : not_negative (fmul a a) /\ fmul a a <> NInf.
Proof.
  unfold not_negative. destruct a as [x| | |]; cbn; try done.
  split; [|done]. apply bool_decide_eq_false. nra.
Qed.

Lemma fadd_not_negative a b :
  not_negative a -> a <> NInf -> not_negative b -> b <> NInf ->
  not_negative (fadd a b) /\ fadd a b <> NInf.
Proof.
  unfold not_negative.
  destruct a as [x| | |], b as [y| | |]; cbn; try done.
  intros Hx%bool_decide_eq_false _ Hy%bool_decide_eq_false _.
  split; [|done]. apply bool_decide_eq_false. lra.
Qed.

Lemma vdot_self_not_negative v :
  not_negative (vdot v v) /\ vdot v v <> NInf.
Proof.
  unfold vdot.
  destruct (fmul_self_not_negative v.1), (fmul_self_not_negative v.2).
  by apply fadd_not_negative.
Qed.

Lemma flt_square_zero v : flt (vdot v v) (fmul (Fin 0) (Fin 0)) = false.
Proof.
  destruct (vdot_self_not_negative v) as [H _]. unfold not_negative in H.
  destruct (vdot v v) as [x| | |]; cbn in *; try done.
  apply bool_decide_eq_false in H. apply bool_decide_eq_false. lra.
Qed.

Lemma flt_fsqrt (t : R) v :
  (0 < t)%R ->
  flt (vdot v v) (fmul (Fin t) (Fin t)) = flt (fsqrt (vdot v v)) (Fin t).
Proof.
  intros Ht. destruct (vdot_self_not_negative v) as [H Hn].
  unfold not_negative in H.
  destruct (vdot v v) as [x| | |]; cbn in *; try done.
  apply bool_decide_eq_false in H. rewrite decide_False by done. cbn.
  apply bool_decide_ext. split; intros Hlt.
  - apply Rsqr_incrst_0; [|apply sqrt_pos|lra].
    unfold Rsqr. rewrite sqrt_sqrt by lra. done.
  - apply Rsqr_incrst_1 in Hlt; [|apply sqrt_pos|lra].
    unfold Rsqr in Hlt. rewrite sqrt_sqrt in Hlt by lra. done.
Qed.

Lemma flt_fmaximum a b (t : R) :
  flt (fmaximum a b) (Fin t) = flt a (Fin t) && flt b (Fin t).
Proof.
  destruct a as [x| | |], b as [y| | |]; cbn; try done;
    repeat (case_bool_decide; cbn); try done; exfalso; lra.
Qed.

Lemma flt_foldl_fmaximum y ys (t : R) :
  flt (foldl fmaximum y ys) (Fin t)
  = flt y (Fin t) && forallb (fun z => flt z (Fin t)) ys.
Proof.
  revert y; induction ys as [|z ys IH]; intros y; cbn.
  - by rewrite andb_true_r.
  - by rewrite IH, flt_fmaximum, andb_assoc.
Qed.

Lemma forallb_fmap {A B} (f : B -> bool) (g : A -> B) (l : list A) :
  forallb f (g <$> l) = forallb (fun x => f (g x)) l.
Proof. induction l as [|x l IH]; cbn; [done|]. by rewrite IH. Qed.

Lemma forallb_fun_ext {A} (f g : A -> bool) (l : list A) :
  (forall x, f x = g x) -> forallb f l = forallb g l.
Proof. intros H. induction l as [|x l IH]; cbn; [done|]. by rewrite H, IH. Qed.

Lemma all_below_iff (t : R) d :
  (0 < t)%R -> d <> [] ->
  np_all (map (fun x => flt x (fmul (Fin t) (Fin t))) (diff_norm_2 d)) = true
  <-> max_norm_below (Fin t) d.
Proof.
  intros Ht Hd. unfold max_norm_below, np_all, np_max, diff_norm_2.
  rewrite !forallb_fmap.
  rewrite (forallb_fun_ext _ (fun v => flt (fsqrt (vdot v v)) (Fin t)))
    by (intros v; by apply flt_fsqrt).
  destruct d as [|v d]; [done|]. cbn [fmap list_fmap forallb].
  split.
  - intros H. eexists. split; [done|].
    by rewrite flt_foldl_fmaximum, !forallb_fmap.
  - intros (r & [= <-] & H).
    by rewrite flt_foldl_fmaximum, !forallb_fmap in H.
Qed.

Lemma fge_of_nat k N : fge (of_nat k) (of_nat N) = bool_decide (N <= k).
Proof.
  unfold fge, of_nat, fle. apply bool_decide_ext. split.
  - apply INR_le.
  - apply le_INR.
Qed.

Lemma is_final_tol_zero maxn k d :
  d <> [] -> is_final (Fin 0) maxn k d = fge (of_nat k) maxn.
Proof.
  intros Hd. unfold is_final, np_all, diff_norm_2.
  destruct d as [|v d]; [done|]. cbn. by rewrite flt_square_zero.
Qed.

Lemma is_final_no_cap (t : R) k d :
  (0 < t)%R -> d <> [] ->
  is_final (Fin t) PInf k d = true <-> max_norm_below (Fin t) d.
Proof.
  intros Ht Hd. unfold is_final. rewrite <- all_below_iff by done.
  cbn. by rewrite orb_false_r.
Qed.

Lemma np_max_nonempty (a : list float) : a <> [] -> exists r, np_max a = Ok r.
Proof. destruct a; [done|]. by eexists. Qed.

(** C2, amended: the loop of the runner leaves at the end of pass [k]
    exactly when every squared displacement is below [tol ** 2] or
    [k >= max_num_steps].  Hence with [tol = 0] and a cap [N >= 1] it makes
    exactly [N] passes, and, in exact arithmetic, with [tol > 0] and the cap
    [inf] it stops at the first pass whose largest displacement norm is
    below [tol]; it returns the number of passes and the largest
    displacement norm of the last pass. *)
Theorem runner_stops_at_first_final_iteration `{ops : MeshOps}
    (get_new_points : rule) (omega : float)
    (surface : option implicit_surface) (surface_tol : float) :
  (forall tol max_num_steps fuel k m d m',
     iteration get_new_points omega surface surface_tol fuel m = Ok (d, m') ->
     (is_final tol max_num_steps (S k) d = true
      <-> Forall (fun v => flt (vdot v v) (fmul tol tol) = true) d
          \/ fge (of_nat (S k)) max_num_steps = true)
     /\ runner_loop get_new_points tol max_num_steps omega surface surface_tol
          (S fuel) k m
        = if is_final tol max_num_steps (S k) d
          then r ← np_max (map fsqrt (diff_norm_2 d)); Ok (S k, r, m')
          else runner_loop get_new_points tol max_num_steps omega surface
                 surface_tol fuel (S k) m')
  /\ (forall N f m0 d m',
        1 <= N ->
        iterations get_new_points omega surface surface_tol f N
          (flip_until_delaunay m0) = Ok (d, m') ->
        (forall i di mi, 1 <= i <= N ->
           iterations get_new_points omega surface surface_tol f i
             (flip_until_delaunay m0) = Ok (di, mi) -> di <> []) ->
        exists r,
          np_max (map fsqrt (diff_norm_2 d)) = Ok r
          /\ forall fuel, f + N <= fuel ->
               runner get_new_points (Fin 0) (of_nat N) omega surface
                 surface_tol fuel m0 = Ok (N, r, m'))
  /\ (forall (t : R) K f m0 d m',
        (0 < t)%R -> 1 <= K ->
        iterations get_new_points omega surface surface_tol f K
          (flip_until_delaunay m0) = Ok (d, m') ->
        d <> [] ->
        max_norm_below (Fin t) d ->
        (forall i di mi, 1 <= i < K ->
           iterations get_new_points omega surface surface_tol f i
             (flip_until_delaunay m0) = Ok (di, mi) ->
           di <> [] /\ ~ max_norm_below (Fin t) di) ->
        exists r,
          np_max (map fsqrt (diff_norm_2 d)) = Ok r
          /\ flt r (Fin t) = true
          /\ forall fuel, f + K <= fuel ->
               runner get_new_points (Fin t) PInf omega surface surface_tol
                 fuel m0 = Ok (K, r, m')).
Proof.
  split; [|split].
  - intros tol maxn fuel k m d m' Hit. split.
    + apply is_final_iff.
    + by apply runner_loop_step.
  - intros N f m0 d m' HN Hit Hne.
    destruct N as [|j]; [lia|].
    assert (Hd : d <> []) by (apply (Hne (S j) d m'); [lia|done]).
    destruct (np_max_nonempty (map fsqrt (diff_norm_2 d))) as [r Hr].
    { unfold diff_norm_2. by destruct d. }
    exists r. split; [done|]. intros fuel Hfuel. unfold runner.
    apply (runner_loop_first_final _ _ _ _ _ _ f j fuel 0 _ [] d m' r);
      [done| | |done|lia].
    + intros i di mi Hi Hiti. rewrite is_final_tol_zero, fge_of_nat.
      * apply bool_decide_eq_false. lia.
      * apply (Hne (S i) di mi); [lia|done].
    + rewrite is_final_tol_zero, fge_of_nat by done.
      apply bool_decide_eq_true. lia.
  - intros t K f m0 d m' Ht HK Hit Hd Hbelow Hnot.
    destruct K as [|j]; [lia|].
    destruct Hbelow as (r & Hr & Hlt).
    exists r. split; [done|]. split; [done|]. intros fuel Hfuel. unfold runner.
    apply (runner_loop_first_final _ _ _ _ _ _ f j fuel 0 _ [] d m' r);
      [done| | |done|lia].
    + intros i di mi Hi Hiti.
      destruct (Hnot (S i) di mi) as [Hdi Hni]; [lia|done|].
      apply not_true_is_false. by rewrite is_final_no_cap.
    + apply is_final_no_cap; [done..|]. by exists r.
Qed.

(** ** The projection onto an implicit surface *)

Lemma sweep_newton (s : implicit_surface) (pts : list vec2) :
  zip_with vsub pts
    (zip_with vmuls (surf_grad s <$> pts)
       (zip_with fdiv (surf_f s <$> pts)
          ((fun g => vdot g g) <$> (surf_grad s <$> pts))))
  = newton_step s <$> pts.
Proof. induction pts as [|x pts IH]; cbn; [done|]. by rewrite IH. Qed.

Lemma project_to_surface_sweep fuel s tol pts :
  np_any (map (fun v => fgt (fabs v) tol) (map (surf_f s) pts)) = true ->
  project_to_surface (S fuel) s tol pts (map (surf_f s) pts)
  = project_to_surface fuel s tol (map (newton_step s) pts)
      (map (surf_f s) (map (newton_step s) pts)).
Proof. intros H. cbn [project_to_surface]. by rewrite H, sweep_newton. Qed.

Lemma project_to_surface_exit fuel s tol pts :
  np_any (map (fun v => fgt (fabs v) tol) (map (surf_f s) pts)) = false ->
  project_to_surface fuel s tol pts (map (surf_f s) pts) = Ok pts.
Proof. intros H. destruct fuel; cbn [project_to_surface]; by rewrite H. Qed.

Lemma np_any_false_iff (f : vec2 -> bool) (pts : list vec2) :
  np_any (map f pts) = false <-> Forall (fun x => f x = false) pts.
Proof.
  unfold np_any. induction pts as [|x pts IH]; cbn.
  - split; [constructor|done].
  - rewrite orb_false_iff, IH, Forall_cons. done.
Qed.

Lemma fgt_false_fle a b :
  fgt a b = false -> a <> NaN -> b <> NaN -> fle a b = true.
Proof.
  unfold fgt. destruct a as [x| | |], b as [y| | |]; cbn; try done.
  intros H%bool_decide_eq_false _ _. apply bool_decide_eq_true. lra.
Qed.

Lemma fle_true_fgt a b : fle a b = true -> fgt a b = false.
Proof.
  unfold fgt. destruct a as [x| | |], b as [y| | |]; cbn; try done.
  intros H%bool_decide_eq_true. apply bool_decide_eq_false. lra.
Qed.

Lemma fabs_NaN a : fabs a = NaN -> a = NaN.
Proof. by destruct a. Qed.

Lemma project_to_surface_result fuel s tol : forall pts pts',
  project_to_surface fuel s tol pts (map (surf_f s) pts) = Ok pts' ->
  (exists k, k <= fuel /\ pts' = Nat.iter k (map (newton_step s)) pts)
  /\ Forall (fun x => fgt (fabs (surf_f s x)) tol = false) pts'.
Proof.
  induction fuel as [|fuel IH]; intros pts pts'.
  - cbn. destruct (np_any _) eqn:E; [done|]. intros [= <-]. split.
    + by exists 0.
    + rewrite <- list_fmap_compose in E. by apply np_any_false_iff in E.
  - destruct (np_any (map (fun v => fgt (fabs v) tol) (map (surf_f s) pts)))
      eqn:E.
    + rewrite project_to_surface_sweep by done.
      intros ((k & Hk & ->) & Hall)%IH. split; [|done].
      exists (S k). split; [lia|]. by rewrite Nat.iter_succ_r.
    + rewrite project_to_surface_exit by done. intros [= <-]. split.
      * exists 0. split; [lia|done].
      * rewrite <- list_fmap_compose in E. by apply np_any_false_iff in E.
Qed.

Lemma constant_surface_diverges (tau : R) fuel : forall pts,
  (tau < 1)%R -> pts <> [] ->
  project_to_surface fuel constant_surface (Fin tau) pts
    (map (surf_f constant_surface) pts) = OutOfFuel.
Proof.
  induction fuel as [|fuel IH]; intros pts Htau Hpts.
  - destruct pts as [|x pts]; [done|]. cbn. rewrite Rabs_R1.
    by rewrite bool_decide_eq_true_2.
  - rewrite project_to_surface_sweep.
    + apply IH; [done|]. by destruct pts.
    + destruct pts as [|x pts]; [done|]. cbn. rewrite Rabs_R1.
      by rewrite bool_decide_eq_true_2.
Qed.

Lemma affine_newton_on_surface (a1 a2 c : R) (x : R * R) :
  (a1 * a1 + a2 * a2 <> 0)%R ->
  exists y : R * R,
    newton_step (affine_surface a1 a2 c) (vfin x) = vfin y
    /\ surf_f (affine_surface a1 a2 c) (vfin y) = Fin (a1 * y.1 + a2 * y.2 + c)
    /\ (a1 * y.1 + a2 * y.2 + c = 0)%R.
Proof.
  intros Ha. unfold newton_step, affine_surface, vfin. cbn.
  rewrite decide_False by done. cbn.
  eexists (_, _). split; [done|]. split; [done|]. cbn. field. done.
Qed.

Lemma affine_surface_one_sweep (a1 a2 c tau : R) (P : list (R * R)) fuel :
  (a1 * a1 + a2 * a2 <> 0)%R -> (0 <= tau)%R -> 1 <= fuel ->
  let s := affine_surface a1 a2 c in
  exists pts',
    project_to_surface fuel s (Fin tau) (map vfin P) (map (surf_f s) (map vfin P))
    = Ok pts'
    /\ (pts' = map vfin P \/ pts' = map (newton_step s) (map vfin P))
    /\ Forall (fun x => fle (fabs (surf_f s x)) (Fin tau) = true) pts'.
Proof.
  intros Ha Htau Hfuel s. subst s. set (s := affine_surface a1 a2 c).
  destruct (np_any (map (fun v => fgt (fabs v) (Fin tau))
                        (map (surf_f s) (map vfin P)))) eqn:E.
  - destruct fuel as [|fuel]; [lia|].
    rewrite project_to_surface_sweep by done.
    assert (Hall : Forall (fun x => fle (fabs (surf_f s x)) (Fin tau) = true)
                     (map (newton_step s) (map vfin P))).
    { apply Forall_fmap, Forall_fmap, Forall_forall. intros x _.
      change (fle (fabs (surf_f s (newton_step s (vfin x)))) (Fin tau) = true).
      destruct (affine_newton_on_surface a1 a2 c x Ha) as (y & Hy & Hfy & H0).
      fold s in Hy, Hfy. rewrite Hy, Hfy, H0.
      cbn. rewrite Rabs_R0. by apply bool_decide_eq_true. }
    rewrite project_to_surface_exit.
    + eexists. split; [done|]. split; [by right|done].
    + rewrite <- list_fmap_compose. apply np_any_false_iff.
      eapply Forall_impl; [exact Hall|]. intros x Hx. by apply fle_true_fgt.
  - rewrite project_to_surface_exit by done.
    eexists. split; [done|]. split; [by left|].
    rewrite <- list_fmap_compose in E. apply np_any_false_iff in E.
    apply Forall_fmap. apply Forall_fmap in E.
    eapply Forall_impl; [exact E|]. intros x Hx.
    apply fgt_false_fle; [done| |done].
    unfold s, affine_surface, vfin. cbn. done.
Qed.

Lemma project_to_surface_step {F : Type} {arith : Arith F} fuel
    (f : F * F -> F) (grad_f : F * F -> F * F) (tol : F) (p : F * F) :
  f_lt tol (f_abs (f p)) = true ->
  Generic.project_to_surface (S fuel) f grad_f tol [p] [f p]
  = let p' := Generic.vsub p
                (Generic.vmuls (grad_f p)
                   (f_div (f p) (Generic.vdot (grad_f p) (grad_f p)))) in
    Generic.project_to_surface fuel f grad_f tol [p'] [f p'].
Proof. intros H. cbn. by rewrite H. Qed.

Lemma project_to_surface_stuck {F : Type} {arith : Arith F}
    (f : F * F -> F) (grad_f : F * F -> F * F) (tol : F) (p : F * F) :
  f_lt tol (f_abs (f p)) = true ->
  Generic.project_to_surface 0 f grad_f tol [p] [f p] = OutOfFuel.
Proof. intros H. cbn. by rewrite H. Qed.

(** The iterates alternate between two points off the line. *)
Lemma line_cycle :
  Binary64.line_sweep line_odd = line_even
  /\ PrimFloat.ltb Binary64.line_tol
       (PrimFloat.abs (Binary64.line_f Binary64.line_start)) = true
  /\ PrimFloat.ltb Binary64.line_tol
       (PrimFloat.abs
          (Binary64.line_f (Binary64.line_sweep Binary64.line_start))) = true
  /\ PrimFloat.ltb Binary64.line_tol
       (PrimFloat.abs (Binary64.line_f line_even)) = true
  /\ PrimFloat.ltb Binary64.line_tol
       (PrimFloat.abs (Binary64.line_f line_odd)) = true.
Proof. repeat split; vm_compute; reflexivity. Qed.

Lemma line_projection_cycles fuel :
  Generic.project_to_surface (arith := Binary64.binary64) fuel
    Binary64.line_f Binary64.line_grad Binary64.line_tol
    [line_even] [Binary64.line_f line_even] = OutOfFuel
  /\ Generic.project_to_surface (arith := Binary64.binary64) fuel
       Binary64.line_f Binary64.line_grad Binary64.line_tol
       [line_odd] [Binary64.line_f line_odd] = OutOfFuel.
Proof.
  destruct line_cycle as (Hcycle & _ & _ & Heven & Hodd).
  induction fuel as [|fuel [IHe IHo]].
  - split; by apply project_to_surface_stuck.
  - split.
    + rewrite project_to_surface_step by exact Heven. exact IHo.
    + rewrite project_to_surface_step by exact Hodd. cbn zeta.
      change (Generic.vsub line_odd _) with (Binary64.line_sweep line_odd).
      rewrite Hcycle. exact IHe.
Qed.

(** On the machine the projection onto the line [x + 3 y = 0] from the
    point [(75000000.5, 33333333.25)] never ends. *)
Lemma line_projection_diverges fuel :
  Generic.project_to_surface (arith := Binary64.binary64) fuel
    Binary64.line_f Binary64.line_grad Binary64.line_tol
    [Binary64.line_start] [Binary64.line_f Binary64.line_start] = OutOfFuel.
Proof.
  destruct line_cycle as (_ & H0 & H1 & _ & _).
  destruct fuel as [|[|fuel]].
  - by apply project_to_surface_stuck.
  - rewrite project_to_surface_step by exact H0.
    by apply project_to_surface_stuck.
  - rewrite project_to_surface_step by exact H0. cbn zeta.
    change (Generic.vsub Binary64.line_start _)
      with (Binary64.line_sweep Binary64.line_start).
    rewrite project_to_surface_step by exact H1.
    apply (line_projection_cycles fuel).
Qed.

(** C9, as the claim states the exit: false at a point where the gradient
    vanishes. *)
Lemma projection_exits_with_nan_residual :
  project_to_surface 1 circle_surface (Fin (1 / 10000000000)) [vfin (0, 0)%R]
    (map (surf_f circle_surface) [vfin (0, 0)%R])
  = Ok [(NaN, NaN)]
  /\ fle (fabs (surf_f circle_surface (NaN, NaN))) (Fin (1 / 10000000000)) = false.
Proof.
  split; [|done].
  assert (Hf : surf_f circle_surface (vfin (0, 0)%R) = Fin (-1)).
  { unfold circle_surface, vfin, vdot, fsub. cbn. f_equal. lra. }
  assert (Hn : newton_step circle_surface (vfin (0, 0)%R) = (NaN, NaN)).
  { unfold newton_step. rewrite Hf. unfold circle_surface, vfin, vdot. cbn.
    rewrite decide_True by lra. unfold inf_of_sign.
    rewrite decide_False, decide_True by lra.
    unfold vsub, vmuls, vscale. cbn.
    unfold inf_of_sign. by rewrite !decide_False by lra. }
  rewrite project_to_surface_sweep.
  - cbn [fmap list_fmap]. rewrite Hn. done.
  - cbn [fmap list_fmap]. rewrite Hf. cbn.
    replace (Rabs (-1)) with 1%R by (rewrite Rabs_left; lra).
    rewrite bool_decide_eq_true_2; [done|]. lra.
Qed.

(** C9, amended: a sweep of the inner loop replaces every point [x] by
    [x - f(x) * grad f(x) / |grad f(x)|^2] and evaluates [f] again; the loop
    leaves only when no point has [|f(x)| > tol], that is when every residual
    is within the tolerance or is [nan]; there is no cap on the sweeps: for
    the constant function 1 the loop never leaves; for an affine [f] with a
    gradient other than zero it leaves, in exact arithmetic, after at most
    one sweep with every residual within the tolerance, while on the machine
    it need not leave at all: for [f = x + 3 y] from the point
    [(75000000.5, 33333333.25)] with the tolerance [1.0e-10] the iterates
    alternate between two points off the line. *)
Theorem projection_loop (s : implicit_surface) (tol : float) :
  (forall fuel pts,
     np_any (map (fun x => fgt (fabs (surf_f s x)) tol) pts) = true ->
     project_to_surface (S fuel) s tol pts (map (surf_f s) pts)
     = project_to_surface fuel s tol (map (newton_step s) pts)
         (map (surf_f s) (map (newton_step s) pts)))
  /\ (forall fuel pts pts',
        project_to_surface fuel s tol pts (map (surf_f s) pts) = Ok pts' ->
        (exists k, k <= fuel /\ pts' = Nat.iter k (map (newton_step s)) pts)
        /\ Forall (fun x =>
                     fgt (fabs (surf_f s x)) tol = false
                     /\ (surf_f s x <> NaN -> tol <> NaN ->
                         fle (fabs (surf_f s x)) tol = true)) pts')
  /\ (forall fuel (tau : R) pts,
        (tau < 1)%R -> pts <> [] ->
        project_to_surface fuel constant_surface (Fin tau) pts
          (map (surf_f constant_surface) pts) = OutOfFuel)
  /\ (forall (a1 a2 c tau : R) (P : list (R * R)) fuel,
        (a1 * a1 + a2 * a2 <> 0)%R -> (0 <= tau)%R -> 1 <= fuel ->
        exists pts',
          project_to_surface fuel (affine_surface a1 a2 c) (Fin tau)
            (map vfin P) (map (surf_f (affine_surface a1 a2 c)) (map vfin P))
          = Ok pts'
          /\ (pts' = map vfin P
              \/ pts' = map (newton_step (affine_surface a1 a2 c)) (map vfin P))
          /\ Forall (fun x =>
                       fle (fabs (surf_f (affine_surface a1 a2 c) x)) (Fin tau)
                       = true) pts')
  /\ (forall fuel,
        Generic.project_to_surface (arith := Binary64.binary64) fuel
          Binary64.line_f Binary64.line_grad Binary64.line_tol
          [Binary64.line_start] [Binary64.line_f Binary64.line_start]
        = OutOfFuel).
Proof.
  split; [|split; [|split; [|split]]].
  - intros fuel pts H. apply project_to_surface_sweep.
    by rewrite <- list_fmap_compose.
  - intros fuel pts pts' [Hk Hall]%project_to_surface_result. split; [done|].
    eapply Forall_impl; [exact Hall|]. cbn. intros x Hx. split; [done|].
    intros Hf Htol. apply fgt_false_fle; [done| |done].
    by intros ?%fabs_NaN.
  - intros fuel tau pts. apply constant_surface_diverges.
  - intros a1 a2 c tau P fuel. apply affine_surface_one_sweep.
  - apply line_projection_diverges.
Qed.

(** ** Boundary points under the fixed-point rules *)

Lemma place_boundary_reset m X0 X :
  place_boundary None m X0 = Ok X ->
  length X = length (points m)
  /\ length (is_boundary_point m) = length (points m)
  /\ forall i, is_boundary_point m !! i = Some true -> X !! i = points m !! i.
Proof.
  unfold place_boundary.
  intros (v & [Hlen ->]%mask_select_Ok_inv & H)%bind_Ok_inv.
  unfold mask_assign in H. case_decide as Hlen0; [|done].
  rewrite decide_True in H by (by apply length_mask_select).
  injection H as <-. rewrite mask_fill_select by done. split; [|split].
  - rewrite length_zip_with, length_zip. lia.
  - done.
  - intros i Hi. rewrite lookup_zip_with, Hi. cbn.
    rewrite lookup_zip_with.
    destruct (lookup_lt_is_Some_2 (points m) i) as [p Hp].
    { apply lookup_lt_Some in Hi. lia. }
    destruct (lookup_lt_is_Some_2 X0 i) as [x Hx].
    { apply lookup_lt_Some in Hi. lia. }
    by rewrite Hp, Hx.
Qed.

Lemma odt_rule_boundary uniform m X m1 :
  odt_rule uniform None m = Ok (X, m1) ->
  points m1 = points m
  /\ is_boundary_point m1 = is_boundary_point m
  /\ cell_inradius m1 = cell_inradius m
  /\ cells m1 = cells m
  /\ length X = length (points m)
  /\ length (is_boundary_point m) = length (points m)
  /\ forall i, is_boundary_point m !! i = Some true -> X !! i = points m !! i.
Proof.
  unfold odt_rule. destruct uniform.
  - unfold FixedPointUniform.get_new_points.
    intros ([cc' m2] & Href & H)%bind_Ok_inv.
    apply reference_uniform_inv in Href as (-> & _ & _).
    apply bind_Ok_inv in H as (X1 & _ & H).
    apply bind_Ok_inv in H as (X2 & Hpl & [= <- <-]).
    apply place_boundary_reset in Hpl as (Hlen & Hmask & Hb). by repeat split.
  - unfold FixedPointDensityPreserving.get_new_points.
    intros (cc' & _ & H)%bind_Ok_inv.
    apply bind_Ok_inv in H as (X1 & _ & H).
    apply bind_Ok_inv in H as (X2 & Hpl & [= <- <-]).
    apply place_boundary_reset in Hpl as (Hlen & Hmask & Hb). by repeat split.
Qed.

Lemma fminimum_not_negative a b :
  not_negative a -> not_negative b -> not_negative (fminimum a b).
Proof.
  unfold not_negative.
  destruct a as [x| | |], b as [y| | |]; cbn; try done; intros Hx Hy;
    try (by case_bool_decide).
  by destruct (bool_decide (x <= y)%R).
Qed.

Lemma alter_Forall {A} (P : A -> Prop) (f : A -> A) i l :
  (forall x, P x -> P (f x)) -> Forall P l -> Forall P (alter f i l).
Proof.
  intros Hf Hl. apply Forall_lookup. intros j y.
  destruct (decide (i = j)) as [->|Hne].
  - rewrite list_lookup_alter_eq. intros (x & Hx & ->)%fmap_Some.
    apply Hf. by eapply Forall_lookup_1.
  - rewrite list_lookup_alter_ne by done. intros Hy. by eapply Forall_lookup_1.
Qed.

Lemma minimum_at_fold_Forall (P : float -> Prop) l : forall a out,
  (forall x y, P x -> P y -> P (fminimum x y)) ->
  Forall (fun iv : nat * float => P iv.2) l ->
  Forall P a ->
  foldl (fun acc (iv : nat * float) =>
           a' ← acc;
           if decide (iv.1 < length a') then
             Ok (alter (fun x => fminimum x iv.2) iv.1 a')
           else Raise IndexError) (Ok a) l = Ok out ->
  length out = length a /\ Forall P out.
Proof.
  induction l as [|[i v] l IH]; intros a out HP Hl Ha; cbn.
  - by intros [= <-].
  - apply Forall_cons in Hl as [Hv Hl]. case_decide as Hi.
    + intros H. apply IH in H as [Hlen Hout]; [|done|done|].
      * by rewrite Hlen, length_alter.
      * apply alter_Forall; [|done]. intros x Hx. by apply HP.
    + intros H. exfalso. clear -H. induction l as [|iv l IH]; [done|].
      by apply IH.
Qed.

Lemma Forall_repeat3 {A} (P : A -> Prop) (a : list A) :
  Forall P a -> Forall P (repeat3 a).
Proof.
  unfold repeat3. induction 1 as [|x a Hx _ IH]; cbn; [done|].
  by repeat constructor.
Qed.

Lemma max_step_not_negative m ms :
  max_step m = Ok ms ->
  Forall not_negative (cell_inradius m) ->
  length ms = length (points m) /\ Forall not_negative ms.
Proof.
  unfold max_step, minimum_at.
  intros (ms0 & H & [= <-])%bind_Ok_inv Hinr.
  apply bind_Ok_inv in H as (vals & Hvals & H).
  assert (Hv : Forall not_negative vals).
  { case_decide; [injection Hvals as <-; by apply Forall_repeat3|].
    destruct (repeat3 (cell_inradius m)) as [|v [|??]] eqn:E; try done.
    injection Hvals as <-. apply Forall_replicate.
    apply Forall_repeat3 in Hinr. rewrite E in Hinr.
    by apply Forall_cons in Hinr as [? _]. }
  apply (minimum_at_fold_Forall not_negative) in H as [Hlen Hall].
  - rewrite length_fmap, Hlen, length_replicate. split; [done|].
    apply Forall_fmap. eapply Forall_impl; [exact Hall|].
    intros x Hx. cbn. unfold not_negative in *.
    destruct x as [r| | |]; cbn in *; try done.
    + apply bool_decide_eq_false in Hx. apply bool_decide_eq_false. lra.
    + unfold inf_of_sign. by rewrite decide_True by lra.
  - apply fminimum_not_negative.
  - apply Forall_forall. intros [i v] Hiv. cbn.
    apply elem_of_zip_r in Hiv. by eapply Forall_forall in Hv.
  - by apply Forall_replicate.
Qed.

Lemma clamp_row_zero b : not_negative b -> clamp_row vzero b = vzero.
Proof.
  unfold not_negative, clamp_row, vzero, vdot. cbn.
  rewrite decide_False by lra. cbn.
  replace (0 * 0 + 0 * 0)%R with 0%R by lra. rewrite sqrt_0.
  unfold fgt. by intros ->.
Qed.

Lemma vscale_vsub_self (omega : R) p :
  vfinite p -> vscale (Fin omega) (vsub p p) = vzero.
Proof.
  destruct p as [[x| | |] [y| | |]]; unfold vfinite; cbn; try tauto.
  intros _. unfold vscale, vsub, vzero. cbn. f_equal; f_equal; lra.
Qed.

Lemma vadd_vzero p : vfinite p -> vadd p vzero = p.
Proof.
  destruct p as [[x| | |] [y| | |]]; unfold vfinite; cbn; try tauto.
  intros _. unfold vadd. cbn. f_equal; f_equal; lra.
Qed.

Lemma broadcast_same_inv {A B C} (f : A -> B -> C) a b c :
  length a = length b -> broadcast f a b = Ok c -> c = zip_with f a b.
Proof. intros H. rewrite broadcast_same by done. by intros [= <-]. Qed.

Section Boundary.
Context `{ops : MeshOps} {laws : MeshLaws ops}.
Variable uniform_density : bool.
Variable omega : R.
Variable surface_tol : float.
Variable m0 : mesh.
Hypothesis boundary_finite : forall i p,
  is_boundary_point m0 !! i = Some true -> points m0 !! i = Some p ->
  vfinite p.

Local Abbreviation odt := (odt_rule uniform_density None).

Lemma displacement_boundary m d m1 :
  boundary_kept m0 m ->
  displacement odt (Fin omega) m = Ok (d, m1) ->
  boundary_kept m0 m1
  /\ points m1 = points m
  /\ length d = length (points m)
  /\ forall i, is_boundary_point m0 !! i = Some true -> d !! i = Some vzero.
Proof.
  intros (Hb & Hinr & Hpts). unfold displacement.
  intros ([X m2] & Hrule & H)%bind_Ok_inv. cbn beta iota in H.
  apply odt_rule_boundary in Hrule as (HP & HB & HI & _ & HX & Hmask & Hfix).
  assert (HPl : length (points m2) = length (points m)) by (by rewrite HP).
  apply bind_Ok_inv in H as (d0 & Hd0 & H).
  apply broadcast_same_inv in Hd0 as ->; [|congruence].
  apply bind_Ok_inv in H as (ms & Hms & H).
  apply max_step_not_negative in Hms as [Hlen Hms]; [|by rewrite HI].
  apply bind_Ok_inv in H as (d1 & Hcl & [= <- <-]).
  rewrite clamp_rows in Hcl
    by (rewrite length_fmap, length_zip_with; lia).
  injection Hcl as <-.
  split; [|split; [done|split]].
  - split; [congruence|]. split; [by rewrite HI|]. intros i Hi.
    rewrite HP. by apply Hpts.
  - rewrite length_zip_with, length_fmap, length_zip_with. lia.
  - intros i Hi.
    assert (Hi' : is_boundary_point m !! i = Some true) by (by rewrite Hb).
    assert (Hlt : i < length (points m)).
    { apply lookup_lt_Some in Hi'. lia. }
    destruct (lookup_lt_is_Some_2 (points m) i Hlt) as [p Hp].
    destruct (lookup_lt_is_Some_2 ms i) as [b Hbd]; [lia|].
    assert (Hfin : vfinite p).
    { apply (boundary_finite i); [done|]. by rewrite <- Hpts. }
    rewrite lookup_zip_with, list_lookup_fmap, lookup_zip_with.
    rewrite (Hfix i Hi'), HP, Hp, Hbd. cbn.
    rewrite vscale_vsub_self by done. f_equal. apply clamp_row_zero.
    by eapply Forall_lookup_1.
Qed.

Lemma iteration_boundary f m d m' :
  boundary_kept m0 m ->
  iteration odt (Fin omega) None surface_tol f m = Ok (d, m') ->
  boundary_kept m0 m'
  /\ forall i, is_boundary_point m0 !! i = Some true -> d !! i = Some vzero.
Proof.
  intros Hkept. unfold iteration.
  intros ([d1 m1] & Hd & H)%bind_Ok_inv. cbn beta iota in H.
  destruct (displacement_boundary _ _ _ Hkept Hd)
    as ((Hb & Hinr & Hpts) & HP & Hlen & Hzero).
  apply bind_Ok_inv in H as (pts & Hpts' & H).
  rewrite inplace_same in Hpts' by congruence. injection Hpts' as <-.
  cbn in H. injection H as <- <-. split; [|done].
  split; [|split].
  - by rewrite flip_boundary, update_values_boundary.
  - by apply flip_inradius, update_values_inradius.
  - intros i Hi. rewrite flip_points, update_values_points. cbn.
    rewrite lookup_zip_with, (Hzero i Hi), (Hpts i Hi).
    destruct (points m0 !! i) as [p|] eqn:Hp; [|done]. cbn.
    f_equal. apply vadd_vzero. by apply (boundary_finite i).
Qed.

Lemma iterations_from_boundary f j : forall m d0 d m',
  boundary_kept m0 m ->
  iterations_from odt (Fin omega) None surface_tol f j d0 m = Ok (d, m') ->
  boundary_kept m0 m'
  /\ (1 <= j ->
      forall i, is_boundary_point m0 !! i = Some true -> d !! i = Some vzero).
Proof.
  induction j as [|j IH]; intros m d0 d m' Hkept; cbn.
  - intros [= <- <-]. split; [done|lia].
  - intros ([d1 m1] & Hit & H)%bind_Ok_inv. cbn beta iota in H.
    apply iteration_boundary in Hit as [Hkept1 Hzero]; [|done].
    destruct j as [|j].
    + cbn in H. injection H as <- <-. by split.
    + apply IH in H as [Hkept' Hz]; [|done]. split; [done|].
      intros _. apply Hz. lia.
Qed.

Lemma runner_loop_boundary tol maxn fuel : forall k m k' r m',
  boundary_kept m0 m ->
  runner_loop odt tol maxn (Fin omega) None surface_tol fuel k m
  = Ok (k', r, m') ->
  boundary_kept m0 m'.
Proof.
  induction fuel as [|fuel IH]; intros k m k' r m' Hkept; cbn; [done|].
  intros ([d1 m1] & Hit & H)%bind_Ok_inv. cbn beta iota in H.
  apply iteration_boundary in Hit as [Hkept1 _]; [|done].
  destruct (is_final _ _ _ _).
  - apply bind_Ok_inv in H as (r' & _ & [= <- <- <-]). done.
  - by eapply IH.
Qed.

Lemma boundary_kept_initial :
  Forall not_negative (cell_inradius m0) ->
  boundary_kept m0 (flip_until_delaunay m0).
Proof.
  intros Hinr. split; [apply flip_boundary|]. split; [by apply flip_inradius|].
  intros i _. by rewrite flip_points.
Qed.
End Boundary.

(** C3: with the fixed-point rules of odt.py, no [boundary_step] and no
    implicit surface, a boundary point has, after any number of passes and
    when the runner returns, the coordinates it had before the first pass:
    its displacement in every pass is exactly zero, and the collaborator
    moves no point.  The points returned by [fixed_point_uniform] and
    [fixed_point_density_preserving] therefore agree with the points passed
    in at every boundary point. *)
Theorem odt_boundary_points_fixed `{ops : MeshOps} {laws : MeshLaws ops}
    (uniform_density : bool) (tol max_num_steps : float) (omega : R)
    (surface_tol : float) (m0 : mesh) :
  Forall not_negative (cell_inradius m0) ->
  (forall i p, is_boundary_point m0 !! i = Some true ->
               points m0 !! i = Some p -> vfinite p) ->
  (forall f j d m',
     iterations (odt_rule uniform_density None) (Fin omega) None surface_tol
       f j (flip_until_delaunay m0) = Ok (d, m') ->
     forall i, is_boundary_point m0 !! i = Some true ->
       points m' !! i = points m0 !! i
       /\ (1 <= j -> d !! i = Some vzero))
  /\ (forall fuel k r m',
        runner (odt_rule uniform_density None) tol max_num_steps (Fin omega)
          None surface_tol fuel m0 = Ok (k, r, m') ->
        forall i, is_boundary_point m0 !! i = Some true ->
          points m' !! i = points m0 !! i)
  /\ (forall fuel X cs pts cs',
        m0 = MeshTri X cs ->
        (if uniform_density then fixed_point_uniform
         else fixed_point_density_preserving)
          fuel X cs tol max_num_steps (Fin omega) None None surface_tol
        = Ok (pts, cs') ->
        forall i, is_boundary_point m0 !! i = Some true ->
          pts !! i = X !! i).
Proof.
  intros Hinr Hfin.
  assert (Hrunner : forall fuel k r m',
    runner (odt_rule uniform_density None) tol max_num_steps (Fin omega)
      None surface_tol fuel m0 = Ok (k, r, m') ->
    forall i, is_boundary_point m0 !! i = Some true ->
      points m' !! i = points m0 !! i).
  { intros fuel k r m' Hrun i Hi. unfold runner in Hrun.
    eapply runner_loop_boundary in Hrun as (_ & _ & Hpts);
      [|done|by apply boundary_kept_initial].
    by apply Hpts. }
  split; [|split; [done|]].
  - intros f j d m' Hit i Hi. unfold iterations in Hit.
    eapply iterations_from_boundary in Hit as [(_ & _ & Hpts) Hz];
      [|done|by apply boundary_kept_initial].
    split; [by apply Hpts|]. intros Hj. by apply Hz.
  - intros fuel X cs pts cs' Hm0 Hrun i Hi.
    assert (exists k r m',
      runner (odt_rule uniform_density None) tol max_num_steps (Fin omega)
        None surface_tol fuel m0 = Ok (k, r, m') /\ pts = points m')
      as (k & r & m' & Hr & ->).
    { subst m0. unfold odt_rule.
      destruct uniform_density;
        unfold fixed_point_uniform, fixed_point_density_preserving in Hrun;
        apply bind_Ok_inv in Hrun as ([[k r] m'] & Hr & [= <- <-]);
        by exists k, r, m'. }
    rewrite (Hrunner _ _ _ _ Hr i Hi). subst m0. by rewrite MeshTri_points.
Qed.

(** ** The gradient of the energy *)

Lemma reshape2_flatten2 rows : reshape2 (flatten2 rows) = Ok rows.
Proof.
  unfold flatten2. induction rows as [|[a b] rows IH]; cbn; [done|].
  by rewrite IH.
Qed.

Lemma take_fin (idx : list nat) (P : list (R * R)) :
  Forall (fun i => i < length P) idx ->
  take idx (map vfin P)
  = Ok (map vfin (map (fun i => default (0, 0)%R (P !! i)) idx)).
Proof.
  induction 1 as [|i idx Hi _ IH]; cbn; [done|].
  rewrite list_lookup_fmap.
  destruct (lookup_lt_is_Some_2 P i Hi) as [x ->]. cbn. by rewrite IH.
Qed.

Lemma wsum_ext p idx (v v' : list R) :
  length v = length idx -> length v' = length idx ->
  (forall k, idx !! k = Some p -> v !! k = v' !! k) ->
  wsum p idx v = wsum p idx v'.
Proof.
  revert v v'. induction idx as [|i idx IH]; intros [|x v] [|x' v']; cbn;
    try done.
  intros [= Hv] [= Hv'] Hk.
  rewrite (IH v v') by (try done; intros k; apply (Hk (S k))).
  case_decide as Hi; [|done]. subst i.
  specialize (Hk 0 eq_refl). cbn in Hk. by injection Hk as ->.
Qed.

Lemma wsum_gradient_vals (coord : R * R -> R) P cc vol mcn p :
  length cc = length mcn -> length vol = length mcn ->
  wsum p mcn (gradient_vals coord P cc vol mcn)
  = wsum p mcn
      (zip_with (fun (c : R * R) v =>
                   (coord (default (0, 0)%R (P !! p)) - coord c) * v)%R cc vol).
Proof.
  intros Hcc Hvol. apply wsum_ext.
  - unfold gradient_vals. rewrite !length_zip_with, length_fmap. lia.
  - rewrite length_zip_with. lia.
  - intros k Hk. unfold gradient_vals.
    rewrite !lookup_zip_with, list_lookup_fmap, Hk. cbn.
    destruct (cc !! k) as [c|]; [|done]. cbn. by destruct (vol !! k).
Qed.

Lemma add_gradient_fin `{ops : MeshOps} (m : mesh) (P cc : list (R * R))
    (vol : list R) (gx gy : nat -> R) (mcn : list nat) :
  points m = map vfin P ->
  cell_circumcenters m = map vfin cc ->
  cell_volumes m = map Fin vol ->
  length cc = length mcn -> length vol = length mcn ->
  Forall (fun i => i < length P) mcn ->
  add_gradient m
    (Ok (map (fun p => (Fin (gx p), Fin (gy p))) (seq 0 (length P)))) mcn
  = Ok (map (fun p =>
               (Fin (gx p + wsum p mcn (gradient_vals fst P cc vol mcn)),
                Fin (gy p + wsum p mcn (gradient_vals snd P cc vol mcn))))
            (seq 0 (length P))).
Proof.
  intros HP Hcc Hvol Hlc Hlv Hidx. unfold add_gradient.
  rewrite bind_Ok, HP, Hcc, Hvol, take_fin, bind_Ok by done.
  rewrite broadcast_same, bind_Ok by (rewrite !length_fmap; lia).
  rewrite (zip_with_fmap_fmap vsub _ vfin vfin vfin _ _ vsub_fin).
  rewrite fmap_fst_vfin, fmap_snd_vfin.
  rewrite (fmap_zip_with_out fst), (fmap_zip_with_out snd). cbn [fst snd].
  rewrite !broadcast_same, !bind_Ok
    by (rewrite !length_fmap, length_zip_with, length_fmap; lia).
  rewrite !zip_with_fmul_fin, length_fmap.
  pose proof (add_bincounts_fin (length P)
                (gradient_vals fst P cc vol mcn)
                (gradient_vals snd P cc vol mcn) gx gy mcn) as Hadd.
  unfold add_bincounts in Hadd. rewrite bind_Ok in Hadd. cbn [fst snd] in Hadd.
  apply Hadd; [| |done].
  - unfold gradient_vals. rewrite !length_zip_with, length_fmap. lia.
  - unfold gradient_vals. rewrite !length_zip_with, length_fmap. lia.
Qed.

Lemma gradient_loop_fin `{ops : MeshOps} (m : mesh) (P cc : list (R * R))
    (vol : list R) :
  points m = map vfin P ->
  cell_circumcenters m = map vfin cc ->
  cell_volumes m = map Fin vol ->
  cells_in_range (length P) (cells m) ->
  length cc = length (cells m) -> length vol = length (cells m) ->
  foldl (add_gradient m) (Ok (replicate (length (points m)) vzero))
        (cell_columns (cells m))
  = Ok (map (fun p =>
          let x := default (0, 0)%R (P !! p) in
          (Fin (star_sum p (cells m)
                  (zip_with (fun (c : R * R) v => (x.1 - c.1) * v)%R cc vol)),
           Fin (star_sum p (cells m)
                  (zip_with (fun (c : R * R) v => (x.2 - c.2) * v)%R cc vol))))
        (seq 0 (length P))).
Proof.
  intros HP Hcc Hvol (H0 & H1 & H2)%columns_in_range Hlc Hlv.
  rewrite HP at 1. rewrite length_fmap.
  rewrite (replicate_tabulate vzero). unfold cell_columns, vzero. cbn [foldl].
  rewrite (add_gradient_fin m P cc vol (fun _ => 0%R) (fun _ => 0%R))
    by (rewrite ?length_fmap; done).
  rewrite (add_gradient_fin m P cc vol) by (rewrite ?length_fmap; done).
  rewrite (add_gradient_fin m P cc vol) by (rewrite ?length_fmap; done).
  f_equal. apply list_fmap_ext. intros _ p _. cbn zeta.
  rewrite !wsum_gradient_vals by (rewrite ?length_fmap; done).
  rewrite <- !wsum_columns. f_equal; f_equal; cbn [fst snd]; lra.
Qed.

Lemma elem_of_true_indices_from mask : forall k i,
  i ∈ true_indices_from k mask <-> k <= i /\ mask !! (i - k) = Some true.
Proof.
  induction mask as [|b mask IH]; intros k i; cbn.
  - rewrite elem_of_nil. split; [done|]. by intros [_ ?].
  - rewrite elem_of_app, IH. split.
    + intros [Hi|[Hle Hi]].
      * destruct b; [|by apply elem_of_nil in Hi].
        apply list_elem_of_singleton in Hi as ->. split; [lia|].
        by rewrite Nat.sub_diag.
      * split; [lia|]. by replace (i - k) with (S (i - S k)) by lia.
    + intros [Hle Hi]. destruct (decide (i = k)) as [->|Hne].
      * rewrite Nat.sub_diag in Hi. cbn in Hi. injection Hi as ->.
        left. by apply list_elem_of_singleton.
      * right. split; [lia|].
        by replace (i - k) with (S (i - S k)) in Hi by lia.
Qed.

Lemma elem_of_true_indices mask i :
  i ∈ true_indices mask <-> mask !! i = Some true.
Proof.
  unfold true_indices. rewrite elem_of_true_indices_from, Nat.sub_0_r.
  split; [by intros [_ ?]|]. intros H. split; [lia|done].
Qed.

(** The rows a mask selects from a table of values. *)
Lemma select_tabulate {A} (g : nat -> A) mask : forall k,
  select mask (map g (seq k (length mask))) = map g (true_indices_from k mask).
Proof.
  unfold select.
  induction mask as [|b mask IH]; intros k; cbn; [done|].
  rewrite fmap_app, <- IH. by destruct b.
Qed.

(** The rows a mask selects from an array. *)
Lemma select_lookup {A} (a : list A) : forall mask k (pre : list A),
  length pre = k -> length mask = length a ->
  select mask a = omap (fun i => (pre ++ a) !! i) (true_indices_from k mask).
Proof.
  unfold select.
  induction a as [|x a IH]; intros [|b mask] k pre Hk; cbn; try done.
  intros [= Hlen].
  rewrite (IH mask (S k) (pre ++ [x])), <- app_assoc;
    [|by rewrite length_app; cbn; lia|done].
  cbn [app]. destruct b; cbn; [|done].
  by rewrite lookup_app_r, Hk, Nat.sub_diag by lia.
Qed.

(** C5: [jac] returns, flattened, one row for each index at which
    [is_interior_point] holds, in increasing order, and the row of such a
    point [i] is [2 / (d + 1)] times the sum over the cells [c] around [i]
    of [(x_i - circumcenter c) * volume c] with [d = 2]; the start vector
    [x0] likewise holds the coordinates of the points at those indices; as
    a boundary point is not an interior point, the index of a boundary point
    is not among them: neither vector has an entry for a boundary point. *)
Theorem jac_is_interior_gradient `{ops : MeshOps} (m : mesh)
    (xs P cc : list (R * R)) (vol : list R) (X : list vec2) (cs : list cell) :
  let mask := is_interior_point m in
  let m' := update_values (set_points m (mask_fill mask (map vfin xs) (points m))) in
  length mask = length (points m) ->
  length xs = count_true mask ->
  points m' = map vfin P ->
  cell_circumcenters m' = map vfin cc ->
  cell_volumes m' = map Fin vol ->
  cells_in_range (length P) (cells m') ->
  length cc = length (cells m') ->
  length vol = length (cells m') ->
  length (is_interior_point m') = length P ->
  length (is_interior_point (MeshTri X cs)) = length X ->
  interior_not_boundary m' ->
  interior_not_boundary (MeshTri X cs) ->
  jac m (flatten2 (map vfin xs))
  = Ok (flatten2
          (map (fun p => vfin (gradient_spec P cc vol (cells m') p))
               (true_indices (is_interior_point m'))), m')
  /\ x0 X cs
     = Ok (flatten2
             (omap (fun i => X !! i)
                   (true_indices (is_interior_point (MeshTri X cs)))))
  /\ (forall i, is_boundary_point m' !! i = Some true ->
                i ∉ true_indices (is_interior_point m'))
  /\ (forall i, is_boundary_point (MeshTri X cs) !! i = Some true ->
                i ∉ true_indices (is_interior_point (MeshTri X cs))).
Proof.
  intros mask m' Hmask Hxs HP Hcc Hvol Hcs Hlc Hlv Hint HX Hb Hb0.
  split; [|split; [|split]].
  - unfold jac. rewrite reshape2_flatten2, bind_Ok.
    unfold mask_assign. fold mask.
    rewrite decide_True, decide_True, bind_Ok by (by rewrite ?length_fmap).
    fold m'. rewrite (gradient_loop_fin m' P cc vol), bind_Ok by done.
    rewrite mask_select_Ok, bind_Ok
      by (by rewrite !length_fmap, length_seq).
    do 3 f_equal. rewrite <- list_fmap_compose.
    rewrite <- Hint, select_tabulate. apply list_fmap_ext.
    intros _ p _. unfold gradient_spec, vmuls, vfin. cbn.
    f_equal; f_equal; lra.
  - unfold x0. rewrite mask_select_Ok, bind_Ok by done. do 2 f_equal.
    by apply (select_lookup X _ 0 []).
  - intros i Hi Hin%elem_of_true_indices. by apply (Hb i).
  - intros i Hi Hin%elem_of_true_indices. by apply (Hb0 i).
Qed.

(** ** The energy *)

Lemma rsum_app l k : rsum (l ++ k) = (rsum l + rsum k)%R.
Proof. unfold rsum. induction l as [|x l IH]; cbn; [lra|]. rewrite IH. lra. Qed.

Lemma foldl_fadd_fin (a : R) (l : list R) :
  foldl fadd (Fin a) (Fin <$> l) = Fin (a + rsum l).
Proof.
  revert a; induction l as [|x l IH]; intros a; cbn.
  - f_equal. lra.
  - rewrite IH. f_equal. unfold rsum. cbn. lra.
Qed.

Lemma np_sum_fin (l : list R) : np_sum (Fin <$> l) = Fin (rsum l).
Proof. unfold np_sum. rewrite foldl_fadd_fin. f_equal. lra. Qed.

Lemma np_dot_fin (a b : list R) :
  length a = length b ->
  np_dot (Fin <$> a) (Fin <$> b) = Ok (Fin (rsum (zip_with Rmult a b))).
Proof.
  intros H. unfold np_dot. rewrite decide_True by (by rewrite !length_fmap).
  by rewrite zip_with_fmul_fin, np_sum_fin.
Qed.

Lemma rsum_fmap_plus {A} (g h : A -> R) (l : list A) :
  rsum ((fun x => g x + h x)%R <$> l) = (rsum (g <$> l) + rsum (h <$> l))%R.
Proof. unfold rsum. induction l as [|x l IH]; cbn; [lra|]. rewrite IH. lra. Qed.

Lemma rsum_fmap_scale {A} (s : R) (g : A -> R) (l : list A) :
  rsum ((fun x => s * g x)%R <$> l) = (s * rsum (g <$> l))%R.
Proof. unfold rsum. induction l as [|x l IH]; cbn; [lra|]. rewrite IH. lra. Qed.

Lemma rsum_fmap_zero {A} (l : list A) : rsum ((fun _ => 0%R) <$> l) = 0%R.
Proof. unfold rsum. induction l as [|x l IH]; cbn; [lra|]. rewrite IH. lra. Qed.

Lemma rsum_fmap_ext {A} (g h : A -> R) (l : list A) :
  (forall x, x ∈ l -> g x = h x) -> rsum (g <$> l) = rsum (h <$> l).
Proof.
  intros H. f_equal. apply list_fmap_ext. intros i x Hx. apply H.
  by eapply list_elem_of_lookup_2.
Qed.

Lemma rsum_fmap_le {A} (g h : A -> R) (l : list A) :
  (forall x, x ∈ l -> g x <= h x)%R -> (rsum (g <$> l) <= rsum (h <$> l))%R.
Proof.
  unfold rsum. induction l as [|x l IH]; intros H; cbn; [lra|].
  pose proof (H x (list_elem_of_here _ _)).
  assert (foldr Rplus 0 (g <$> l) <= foldr Rplus 0 (h <$> l))%R.
  { apply IH. intros y Hy. apply H. by right. }
  lra.
Qed.

(** [sum over p < n of [a = p] * y p = y a]. *)
Lemma rsum_indicator (a n : nat) (y : nat -> R) :
  a < n ->
  rsum ((fun p => INR (Nat.b2n (bool_decide (a = p))) * y p)%R <$> seq 0 n)
  = y a.
Proof.
  induction n as [|n IH]; [lia|]. intros Ha.
  rewrite seq_S, fmap_app, rsum_app. cbn [fmap list_fmap Nat.add rsum foldr].
  destruct (decide (a = n)) as [->|Hne].
  - rewrite bool_decide_eq_true_2 by done. cbn.
    rewrite (rsum_fmap_ext _ (fun _ => 0%R)), rsum_fmap_zero; [lra|].
    intros p [_ Hp]%elem_of_seq. rewrite bool_decide_eq_false_2 by lia. cbn. lra.
  - rewrite bool_decide_eq_false_2 by done. cbn. rewrite IH by lia. lra.
Qed.

Lemma zip_with_seq_points {A} (g : nat -> A -> R) (f : R * R -> A) (P : list (R * R)) :
  zip_with (fun p x => g p x) (seq 0 (length P)) (f <$> P)
  = (fun p => g p (f (point_at P p))) <$> seq 0 (length P).
Proof.
  apply list_eq. intros i.
  rewrite lookup_zip_with, !list_lookup_fmap.
  destruct (decide (i < length P)) as [Hi|Hi].
  - rewrite lookup_seq_lt by done. cbn.
    destruct (lookup_lt_is_Some_2 P i Hi) as [x Hx]. unfold point_at.
    by rewrite Hx.
  - by rewrite lookup_seq_ge by lia.
Qed.

(** Scatter and gather: weighting the points by their accumulated cell
    values is weighting the cells by their accumulated corner values. *)
Lemma scatter_gather (y : nat -> R) (n : nat) cs (v : list R) :
  cells_in_range n cs ->
  rsum ((fun p => star_sum p cs v * y p)%R <$> seq 0 n)
  = rsum (zip_with (fun (c : cell) x => x * (y c.1.1 + y c.1.2 + y c.2))%R
            cs v).
Proof.
  intros Hcs. revert v.
  assert (Hzero : forall cs' v',
    (cs' = [] \/ v' = []) ->
    rsum ((fun p => star_sum p cs' v' * y p)%R <$> seq 0 n) = 0%R).
  { intros cs' v' H. rewrite (rsum_fmap_ext _ (fun _ => 0%R)).
    - apply rsum_fmap_zero.
    - intros p _. destruct H as [-> | ->]; [|destruct cs']; cbn; lra. }
  induction Hcs as [|c cs (Ha & Hb & Hc) _ IH]; intros v.
  - rewrite Hzero by (by left). done.
  - destruct v as [|x v]; [rewrite Hzero by (by right); done|].
    cbn [star_sum zip_with].
    change (rsum (?a :: ?l)) with (a + rsum l)%R. rewrite <- IH.
    rewrite <- (rsum_indicator c.1.1 n y Ha), <- (rsum_indicator c.1.2 n y Hb),
      <- (rsum_indicator c.2 n y Hc) at 1.
    rewrite <- !rsum_fmap_plus, <- rsum_fmap_scale, <- rsum_fmap_plus.
    apply rsum_fmap_ext. intros p _. unfold incidence. rewrite !plus_INR. lra.
Qed.

Lemma strang_fix_cowper_exact : exact_degree2 strang_fix_cowper.
Proof.
  unfold exact_degree2, strang_fix_cowper, moment, rsum, l0, l1, l2. cbn.
  split; [repeat constructor; cbn; lra|]. repeat split; lra.
Qed.

Lemma triangle_volume_fin t : triangle_volume (tfin t) = Fin (area t).
Proof. by destruct t as [[a b] c]. Qed.

Lemma quadrature_sum_fin (scheme : quadrature) (t : rtriangle) :
  np_sum (map (fun wl : R * (R * R * R) =>
                 fmul (Fin wl.1)
                   ((fun x => vdot x x) (quadrature_point (tfin t) wl.2)))
              scheme)
  = Fin (quad_real scheme t).
Proof.
  destruct t as [[a b] c]. unfold quad_real. rewrite <- np_sum_fin.
  rewrite <- list_fmap_compose. f_equal. apply list_fmap_ext.
  intros _ [w [[k0 k1] k2]] _. done.
Qed.

Lemma integrate_fin (scheme : quadrature) (t : rtriangle) :
  integrate scheme (fun x => vdot x x) (tfin t)
  = Fin (area t * quad_real scheme t).
Proof.
  unfold integrate. by rewrite triangle_volume_fin, quadrature_sum_fin.
Qed.

Lemma take_cells_fin cs (P : list (R * R)) :
  cells_in_range (length P) cs ->
  take_cells cs (map vfin P) = Ok (map tfin (map (corners P) cs)).
Proof.
  induction 1 as [|c cs (Ha & Hb & Hc) _ IH]; cbn; [done|].
  rewrite !list_lookup_fmap. unfold corners, point_at.
  destruct (lookup_lt_is_Some_2 P _ Ha) as [x ->].
  destruct (lookup_lt_is_Some_2 P _ Hb) as [y ->].
  destruct (lookup_lt_is_Some_2 P _ Hc) as [z ->]. cbn. by rewrite IH.
Qed.

Lemma quad_real_moments (scheme : quadrature) (a b c : R * R) :
  quad_real scheme (a, b, c)
  = (moment l0 l0 scheme * normsq a + moment l1 l1 scheme * normsq b
     + moment l2 l2 scheme * normsq c
     + 2 * moment l0 l1 scheme * (a.1 * b.1 + a.2 * b.2)
     + 2 * moment l0 l2 scheme * (a.1 * c.1 + a.2 * c.2)
     + 2 * moment l1 l2 scheme * (b.1 * c.1 + b.2 * c.2))%R.
Proof.
  unfold quad_real, moment, rsum, normsq, l0, l1, l2.
  induction scheme as [|[w [[k0 k1] k2]] scheme IH]; cbn; [lra|].
  cbn in IH. rewrite IH. lra.
Qed.


Lemma star_volume_fin (m : mesh) (uniform_density : bool) (vol : list R) n :
  length (points m) = n ->
  cell_volumes m = map Fin vol ->
  length vol = length (cells m) ->
  cells_in_range n (cells m) ->
  foldl (add_star m uniform_density) (Ok (replicate (length (points m)) (Fin 0)))
        (cell_columns (cells m))
  = Ok (map (fun p =>
               Fin (star_sum p (cells m)
                      (star_weights uniform_density vol (length (cells m)))))
            (seq 0 n)).
Proof.
  intros Hn Hvol Hlen Hcs. rewrite Hn.
  set (w := star_weights uniform_density vol (length (cells m))).
  assert (Hw : length w = length (cells m)).
  { unfold w, star_weights. destruct uniform_density; [done|].
    by rewrite length_replicate. }
  rewrite <- (omega_fin n (cells m) w) by done.
  unfold cell_columns. cbn [foldl].
  assert (Hstep : forall acc idx,
    length idx = length (cells m) ->
    add_star m uniform_density acc idx = add_bincount n (Fin <$> w) acc idx).
  { intros acc idx Hidx. unfold add_star, add_bincount. rewrite Hn.
    unfold w, star_weights. destruct uniform_density.
    - by rewrite Hvol.
    - by rewrite fmap_replicate, Hidx. }
  by rewrite !Hstep by (by rewrite length_fmap).
Qed.

Lemma fmap_Fin_tabulate {A} (g : A -> R) (l : list A) :
  (fun p => Fin (g p)) <$> l = Fin <$> (g <$> l).
Proof. by rewrite <- list_fmap_compose. Qed.

Lemma energy_linear_real (m : mesh) (uniform_density : bool)
    (P : list (R * R)) (vol : list R) :
  points m = map vfin P ->
  cell_volumes m = map Fin vol ->
  length vol = length (cells m) ->
  cells_in_range (length P) (cells m) ->
  energy_linear m uniform_density
  = Ok (Fin (1 / 3
             * rsum (zip_with
                       (fun (c : cell) x => x * corner_normsq (corners P c))%R
                       (cells m)
                       (star_weights uniform_density vol (length (cells m)))))).
Proof.
  intros HP Hvol Hlen Hcs. unfold energy_linear.
  rewrite (star_volume_fin m uniform_density vol (length P)), bind_Ok
    by (rewrite ?HP, ?length_fmap; done).
  rewrite HP, <- (list_fmap_compose vfin).
  rewrite (list_fmap_ext ((fun p => vdot p p) ∘ vfin) (Fin ∘ normsq)) by done.
  rewrite (list_fmap_compose normsq Fin).
  rewrite fmap_Fin_tabulate.
  rewrite np_dot_fin, bind_Ok by (by rewrite !length_fmap, length_seq).
  do 3 f_equal.
  rewrite zip_with_fmap_l.
  rewrite (zip_with_seq_points (fun p x => _ * x)%R normsq P).
  by rewrite scatter_gather.
Qed.

Lemma energy_integral_real (scheme : quadrature) (m : mesh)
    (uniform_density : bool) (P : list (R * R)) :
  points m = map vfin P ->
  cell_volumes m = map Fin (map (fun c => area (corners P c)) (cells m)) ->
  Forall (fun c => 0 < area (corners P c))%R (cells m) ->
  cells_in_range (length P) (cells m) ->
  energy_integral scheme m uniform_density
  = Ok (Fin (rsum (map (fun c =>
                          (if uniform_density then area (corners P c) else 1)
                          * quad_real scheme (corners P c))%R
                       (cells m)))).
Proof.
  intros HP Hvol Hpos Hcs. unfold energy_integral.
  rewrite HP, take_cells_fin, bind_Ok by done.
  rewrite <- !list_fmap_compose.
  rewrite (list_fmap_ext (integrate scheme (fun x => vdot x x) ∘ (tfin ∘ corners P))
             (Fin ∘ (fun c => area (corners P c) * quad_real scheme (corners P c))%R))
    by (intros; apply integrate_fin).
  rewrite list_fmap_compose.
  destruct uniform_density.
  - by rewrite np_sum_fin.
  - rewrite Hvol.
    assert (Hrho : map (fdiv (Fin 1)) (map Fin (map (fun c => area (corners P c)) (cells m)))
                   = map Fin (map (fun c => 1 / area (corners P c))%R (cells m))).
    { rewrite <- !list_fmap_compose. apply list_fmap_ext.
      intros i c Hc. cbn. rewrite decide_False; [done|].
      eapply Forall_lookup_1 in Hpos; [|done]. cbn in Hpos. lra. }
    rewrite Hrho, np_dot_fin by (by rewrite !length_fmap).
    do 3 f_equal. rewrite zip_with_fmap_l, zip_with_fmap_r, zip_with_diag.
    apply list_fmap_ext. intros i c Hc.
    eapply Forall_lookup_1 in Hpos; [|done]. cbn in Hpos. cbn. field. lra.
Qed.


(** ** The properties on concrete meshes *)

Lemma rest_laws (m0 : mesh) : MeshLaws (rest_ops m0).
Proof. by split. Defined.

Lemma sqrt2_bounds : (1 <= sqrt 2 <= 2)%R.
Proof.
  pose proof (sqrt_pos 2). pose proof (sqrt_sqrt 2 ltac:(lra)). split; nra.
Qed.

Lemma displacement_clamped_witness :
  exists diff : list (R * R),
    displacement shift_rule (Fin 1) single_triangle_mesh
    = Ok (map vfin diff, single_triangle_mesh)
    /\ (forall surface_tol fuel,
          iteration (ops := rest_ops single_triangle_mesh) shift_rule (Fin 1)
            None surface_tol fuel single_triangle_mesh
          = Ok (map vfin diff,
                set_points single_triangle_mesh
                  (map vfin
                     (zip_with (fun q d : R * R => (q.1 + d.1, q.2 + d.2)%R)
                        [(0, 0); (1, 0); (0, 1)]%R diff))))
    /\ length diff = 3
    /\ forall p raw,
         raw_displacement 1 [(3, 4); (4, 4); (3, 5)]%R
           [(0, 0); (1, 0); (0, 1)]%R !! p = Some raw ->
         exists d, diff !! p = Some d
         /\ match step_bound p [(0, 1, 2)] [(1 - sqrt 2 / 2)%R] with
            | Some b =>
                ((b < norm raw)%R ->
                 d = (raw.1 * (b / norm raw), raw.2 * (b / norm raw))%R
                 /\ (0 <= b / norm raw)%R /\ norm d = b)
                /\ ((norm raw <= b)%R -> d = raw)
                /\ (norm d <= b)%R
            | None => d = raw
            end.
Proof.
  apply (displacement_clamped (ops := rest_ops single_triangle_mesh)
           shift_rule 1 single_triangle_mesh
           single_triangle_mesh [(3, 4); (4, 4); (3, 5)]%R
           [(0, 0); (1, 0); (0, 1)]%R [(1 - sqrt 2 / 2)%R]).
  - reflexivity.
  - reflexivity.
  - reflexivity.
  - repeat constructor.
  - reflexivity.
  - reflexivity.
  - constructor; [|constructor]. pose proof sqrt2_bounds. lra.
Defined.

Ltac eval_incidence :=
  repeat match goal with
    | |- context [incidence ?p ?c] =>
        let v := eval vm_compute in (incidence p c) in
        change (incidence p c) with v
    end.

Lemma single_triangle_in_range : cells_in_range 3 [(0, 1, 2)].
Proof. repeat constructor. Qed.

Lemma square_in_range :
  cells_in_range 5 [(0, 1, 4); (1, 2, 4); (2, 3, 4); (3, 0, 4)].
Proof. repeat constructor. Qed.

Lemma get_new_points_averaged_correct_witness :
  get_new_points_averaged square_mesh
    (map vfin [(1 / 2, 1 / 6); (5 / 6, 1 / 2); (1 / 2, 5 / 6);
               (1 / 6, 1 / 2)]%R)
    (fmap (M:=option) (map Fin) (Some [1; 3; 1; 3]%R))
  = Ok (map (fun p =>
               vfin (averaged_spec (cells square_mesh)
                       [(1 / 2, 1 / 6); (5 / 6, 1 / 2); (1 / 2, 5 / 6);
                        (1 / 6, 1 / 2)]%R
                       [1; 3; 1; 3]%R p))
            (seq 0 5)).
Proof.
  apply (get_new_points_averaged_correct square_mesh
           [(1 / 2, 1 / 6); (5 / 6, 1 / 2); (1 / 2, 5 / 6); (1 / 6, 1 / 2)]%R
           (Some [1; 3; 1; 3]%R)).
  - exact square_in_range.
  - reflexivity.
  - reflexivity.
  - intros p Hp. cbn in Hp.
    destruct p as [|[|[|[|[|p]]]]]; [| | | | |lia].
    + exists (0, 1, 4). split; [by left|vm_compute; lia].
    + exists (0, 1, 4). split; [by left|vm_compute; lia].
    + exists (1, 2, 4). split; [by right; left|vm_compute; lia].
    + exists (2, 3, 4). split; [by right; right; left|vm_compute; lia].
    + exists (0, 1, 4). split; [by left|vm_compute; lia].
  - intros _ p Hp. cbn [default from_option].
    destruct p as [|[|[|[|[|p]]]]]; [| | | | |cbn in Hp; lia].
    all: cbn; eval_incidence; change (INR 1) with 1%R;
      change (INR 0) with 0%R; lra.
Defined.

Lemma get_new_points_averaged_degenerate_witness :
  exists out,
    get_new_points_averaged isolated_point_mesh (map vfin [(1, 2)%R])
      (fmap (M:=option) (map Fin) None) = Ok out
    /\ length out = 4
    /\ forall p, p < 4 ->
         ((forall c, c ∈ [(0, 1, 2)] -> incidence p c = 0) ->
          out !! p = Some (NaN, NaN))
         /\ (star_sum p [(0, 1, 2)] [1%R] = 0%R ->
             exists row, out !! p = Some row
                         /\ ~ is_finite row.1 /\ ~ is_finite row.2)
         /\ ((star_sum p [(0, 1, 2)%nat] [1] < 0)%R ->
             out !! p = Some (vfin (averaged_spec [(0, 1, 2)] [(1, 2)%R]
                                      [1%R] p))).
Proof.
  apply (get_new_points_averaged_degenerate isolated_point_mesh
           [(1, 2)%R] None).
  - repeat constructor.
  - reflexivity.
  - reflexivity.
Defined.

Lemma uniform_rule_overwrites_mesh_circumcenters_witness :
  (exists cc',
     FixedPointUniform.reference single_triangle_mesh
     = Ok (cc', set_cell_circumcenters single_triangle_mesh cc'))
  /\ (forall X m',
        FixedPointUniform.get_new_points None single_triangle_mesh
        = Ok (X, m') ->
        points m' = points single_triangle_mesh
        /\ cells m' = cells single_triangle_mesh
        /\ (forall k, cell_circumcenters m' !! k
                      = if decide (k ∈ [0; 0; 0])
                        then [vfin (1 / 3, 1 / 3)%R] !! k
                        else [vfin (1 / 2, 1 / 2)%R] !! k)
        /\ (forall k, k ∈ [0; 0; 0] ->
                      [vfin (1 / 3, 1 / 3)%R] !! k
                      <> [vfin (1 / 2, 1 / 2)%R] !! k ->
                      cell_circumcenters m' !! k
                      <> [vfin (1 / 2, 1 / 2)%R] !! k))
  /\ (forall X m',
        FixedPointDensityPreserving.get_new_points None single_triangle_mesh
        = Ok (X, m') ->
        m' = single_triangle_mesh).
Proof.
  apply (uniform_rule_overwrites_mesh_circumcenters None single_triangle_mesh).
  - repeat constructor.
  - repeat constructor.
Defined.

Lemma single_triangle_inradius :
  Forall not_negative (cell_inradius single_triangle_mesh).
Proof.
  repeat constructor. unfold not_negative. cbn.
  apply bool_decide_eq_false. pose proof sqrt2_bounds. lra.
Qed.

Lemma single_triangle_finite i p :
  is_boundary_point single_triangle_mesh !! i = Some true ->
  points single_triangle_mesh !! i = Some p -> vfinite p.
Proof.
  destruct i as [|[|[|i]]]; cbn; try done; intros _ [= <-]; by split.
Qed.

Lemma odt_boundary_points_fixed_witness :
  (forall f j d m',
     iterations (ops := rest_ops single_triangle_mesh) (odt_rule true None)
       (Fin 1) None (Fin (1 / 10000000000)) f j single_triangle_mesh
     = Ok (d, m') ->
     forall i, is_boundary_point single_triangle_mesh !! i = Some true ->
       points m' !! i = points single_triangle_mesh !! i
       /\ (1 <= j -> d !! i = Some vzero))
  /\ (forall fuel k r m',
        runner (ops := rest_ops single_triangle_mesh) (odt_rule true None)
          (Fin (1 / 1000)) (of_nat 100) (Fin 1) None (Fin (1 / 10000000000))
          fuel single_triangle_mesh = Ok (k, r, m') ->
        forall i, is_boundary_point single_triangle_mesh !! i = Some true ->
          points m' !! i = points single_triangle_mesh !! i)
  /\ (forall fuel X cs pts cs',
        single_triangle_mesh
        = MeshTri (MeshOps := rest_ops single_triangle_mesh) X cs ->
        fixed_point_uniform (ops := rest_ops single_triangle_mesh) fuel X cs
          (Fin (1 / 1000)) (of_nat 100) (Fin 1) None None
          (Fin (1 / 10000000000))
        = Ok (pts, cs') ->
        forall i, is_boundary_point single_triangle_mesh !! i = Some true ->
          pts !! i = X !! i).
Proof.
  apply (odt_boundary_points_fixed (ops := rest_ops single_triangle_mesh)
           (laws := rest_laws single_triangle_mesh) true (Fin (1 / 1000))
           (of_nat 100) 1 (Fin (1 / 10000000000)) single_triangle_mesh).
  - exact single_triangle_inradius.
  - exact single_triangle_finite.
Defined.

Lemma single_triangle_area :
  area (corners [(0, 0); (1, 0); (0, 1)]%R (0, 1, 2)) = (1 / 2)%R.
Proof.
  unfold area, corners, point_at. cbn. rewrite Rabs_right; lra.
Qed.


Lemma square_interior_not_boundary : interior_not_boundary square_mesh.
Proof.
  intros i Hi Hn. unfold square_mesh in *. cbn in *.
  destruct i as [|[|[|[|[|i]]]]]; cbn in *; try congruence.
  by destruct i.
Qed.

Lemma jac_is_interior_gradient_witness :
  let P := [(0, 0); (1, 0); (1, 1); (0, 1); (1 / 2, 1 / 2)]%R in
  let cc := [(1 / 2, 0); (1, 1 / 2); (1 / 2, 1); (0, 1 / 2)]%R in
  let vol := [1 / 4; 1 / 4; 1 / 4; 1 / 4]%R in
  jac (ops := rest_ops square_mesh) square_mesh
      (flatten2 (map vfin [(1 / 2, 1 / 2)%R]))
  = Ok (flatten2
          (map (fun p => vfin (gradient_spec P cc vol (cells square_mesh) p))
               (true_indices [false; false; false; false; true])),
        square_mesh)
  /\ x0 (ops := rest_ops square_mesh) (points square_mesh) (cells square_mesh)
     = Ok (flatten2
             (omap (fun i => points square_mesh !! i)
                   (true_indices [false; false; false; false; true])))
  /\ (forall i, is_boundary_point square_mesh !! i = Some true ->
                i ∉ true_indices [false; false; false; false; true])
  /\ (forall i, is_boundary_point square_mesh !! i = Some true ->
                i ∉ true_indices [false; false; false; false; true]).
Proof.
  intros P cc vol.
  apply (jac_is_interior_gradient (ops := rest_ops square_mesh) square_mesh
           [(1 / 2, 1 / 2)%R] P cc vol (points square_mesh)
           (cells square_mesh)).
  - reflexivity.
  - reflexivity.
  - reflexivity.
  - reflexivity.
  - reflexivity.
  - exact square_in_range.
  - reflexivity.
  - reflexivity.
  - reflexivity.
  - reflexivity.
  - exact square_interior_not_boundary.
  - exact square_interior_not_boundary.
Defined.

(** ** A run of the runner on the mesh of one triangle *)

Lemma max_step_bounds (m : mesh) (inr : list R) :
  cells_in_range (length (points m)) (cells m) ->
  cell_inradius m = map Fin inr ->
  length inr = length (cells m) ->
  Forall (fun r => 0 <= r)%R inr ->
  exists ms, max_step m = Ok ms /\ length ms = length (points m)
             /\ Forall not_negative ms.
Proof.
  intros Hcs Hinr Hlen Hnn. eexists. split; [by apply max_step_real|].
  split; [by rewrite length_fmap, length_seq|].
  apply Forall_fmap, Forall_forall. intros p _. cbn.
  destruct (step_bound p (cells m) inr) as [b|] eqn:E; cbn; [|done].
  apply bool_decide_eq_false. apply step_bound_nonneg in E; [lra|done].
Qed.

Lemma clamp_rows_at_rest (omega : R) : forall (P : list vec2) (ms : list float),
  Forall vfinite P -> Forall not_negative ms -> length ms = length P ->
  zip_with clamp_row (map (vscale (Fin omega)) (zip_with vsub P P)) ms
  = replicate (length P) vzero.
Proof.
  induction P as [|p P IH]; intros [|b ms] HP Hms Hlen; cbn in *; try done.
  apply Forall_cons in HP as [Hp HP]. apply Forall_cons in Hms as [Hb Hms].
  rewrite vscale_vsub_self, clamp_row_zero by done.
  f_equal. apply IH; [done..|lia].
Qed.

Lemma vadd_zeros : forall P : list vec2,
  Forall vfinite P -> zip_with vadd P (replicate (length P) vzero) = P.
Proof.
  induction P as [|p P IH]; intros HP; cbn; [done|].
  apply Forall_cons in HP as [Hp HP]. by rewrite vadd_vzero, IH.
Qed.

(** When the rule proposes the points the mesh already has, the pass moves
    nothing. *)
Lemma iteration_at_rest `{ops : MeshOps} (get_new_points : rule) (omega : R)
    (surface_tol : float) (fuel : nat) (m m1 : mesh) (ms : list float) :
  get_new_points m = Ok (points m1, m1) ->
  Forall vfinite (points m1) ->
  max_step m1 = Ok ms -> length ms = length (points m1) ->
  Forall not_negative ms ->
  iteration get_new_points (Fin omega) None surface_tol fuel m
  = Ok (replicate (length (points m1)) vzero,
        flip_until_delaunay (update_values (set_points m1 (points m1)))).
Proof.
  intros Hrule Hfin Hms Hlen Hnn. unfold iteration, displacement.
  rewrite Hrule, !bind_Ok. cbn beta iota zeta.
  rewrite broadcast_same, bind_Ok by done.
  rewrite Hms, bind_Ok.
  rewrite clamp_rows, !bind_Ok
    by (rewrite length_fmap, length_zip_with; lia).
  rewrite clamp_rows_at_rest by done. cbn beta iota zeta.
  rewrite inplace_same, bind_Ok by (by rewrite length_replicate).
  by rewrite vadd_zeros.
Qed.

Lemma single_triangle_rule :
  odt_rule true None single_triangle_mesh
  = Ok (points triangle_at_rest, triangle_at_rest)
  /\ odt_rule true None triangle_at_rest
     = Ok (points triangle_at_rest, triangle_at_rest).
Proof.
  split.
  all: unfold odt_rule, FixedPointUniform.get_new_points,
         FixedPointUniform.reference, get_new_points_averaged, add_bincounts,
         add_bincount, place_boundary, mask_select, mask_assign, inplace,
         broadcast, bincount, vdivs, vadd, fdiv, inf_of_sign.
  all: by np_eval.
Qed.

Lemma triangle_at_rest_max_step :
  exists ms, max_step triangle_at_rest = Ok ms
             /\ length ms = length (points triangle_at_rest)
             /\ Forall not_negative ms.
Proof.
  apply (max_step_bounds triangle_at_rest [(1 - sqrt 2 / 2)%R]).
  - repeat constructor.
  - reflexivity.
  - reflexivity.
  - constructor; [|constructor]. pose proof sqrt2_bounds. lra.
Qed.

Lemma triangle_at_rest_finite : Forall vfinite (points triangle_at_rest).
Proof. repeat constructor. Qed.

Lemma single_triangle_iteration surface_tol fuel :
  let zeros := [vzero; vzero; vzero] in
  iteration (ops := rest_ops single_triangle_mesh) (odt_rule true None)
    (Fin 1) None surface_tol fuel single_triangle_mesh
  = Ok (zeros, triangle_at_rest)
  /\ iteration (ops := rest_ops single_triangle_mesh) (odt_rule true None)
       (Fin 1) None surface_tol fuel triangle_at_rest
     = Ok (zeros, triangle_at_rest).
Proof.
  destruct triangle_at_rest_max_step as (ms & Hms & Hlen & Hnn).
  destruct single_triangle_rule as [H0 H1].
  split.
  - by rewrite (iteration_at_rest _ 1 surface_tol fuel _ _ ms H0
                  triangle_at_rest_finite Hms Hlen Hnn).
  - by rewrite (iteration_at_rest _ 1 surface_tol fuel _ _ ms H1
                  triangle_at_rest_finite Hms Hlen Hnn).
Qed.

(** Every pass after the first finds the mesh at rest. *)
Lemma single_triangle_iterations surface_tol fuel j :
  iterations (ops := rest_ops single_triangle_mesh) (odt_rule true None)
    (Fin 1) None surface_tol fuel (S j) single_triangle_mesh
  = Ok ([vzero; vzero; vzero], triangle_at_rest).
Proof.
  destruct (single_triangle_iteration surface_tol fuel) as [H0 H1].
  unfold iterations. cbn [iterations_from]. rewrite H0, bind_Ok.
  cbn beta iota. induction j as [|j IH]; cbn [iterations_from]; [done|].
  rewrite H1, bind_Ok. cbn beta iota. apply IH.
Qed.

Lemma single_triangle_passes surface_tol fuel i di mi :
  1 <= i ->
  iterations (ops := rest_ops single_triangle_mesh) (odt_rule true None)
    (Fin 1) None surface_tol fuel i single_triangle_mesh = Ok (di, mi) ->
  di = [vzero; vzero; vzero].
Proof.
  destruct i as [|i]; [lia|]. intros _.
  rewrite single_triangle_iterations. by intros [= <- _].
Qed.

Lemma max_norm_zeros :
  np_max (map fsqrt (diff_norm_2 [vzero; vzero; vzero])) = Ok (Fin 0).
Proof.
  unfold diff_norm_2. cbn [fmap list_fmap].
  change vzero with (vfin (0, 0)%R). rewrite fsqrt_vdot_fin.
  assert (H : norm (0, 0)%R = 0%R).
  { unfold norm. cbn. replace (0 * 0 + 0 * 0)%R with 0%R by lra. apply sqrt_0. }
  rewrite H. unfold np_max. by np_eval.
Qed.

Lemma runner_stops_at_first_final_iteration_witness :
  (exists r,
     np_max (map fsqrt (diff_norm_2 [vzero; vzero; vzero])) = Ok r
     /\ forall fuel, 0 + 2 <= fuel ->
          runner (ops := rest_ops single_triangle_mesh) (odt_rule true None)
            (Fin 0) (of_nat 2) (Fin 1) None (Fin (1 / 10000000000)) fuel
            single_triangle_mesh
          = Ok (2, r, triangle_at_rest))
  /\ (exists r,
        np_max (map fsqrt (diff_norm_2 [vzero; vzero; vzero])) = Ok r
        /\ flt r (Fin (1 / 1000)) = true
        /\ forall fuel, 0 + 1 <= fuel ->
             runner (ops := rest_ops single_triangle_mesh)
               (odt_rule true None) (Fin (1 / 1000)) PInf (Fin 1) None
               (Fin (1 / 10000000000)) fuel single_triangle_mesh
             = Ok (1, r, triangle_at_rest)).
Proof.
  pose proof (runner_stops_at_first_final_iteration
                (ops := rest_ops single_triangle_mesh) (odt_rule true None)
                (Fin 1) None (Fin (1 / 10000000000))) as (_ & Hcap & Htol).
  split.
  - apply (Hcap 2 0 single_triangle_mesh [vzero; vzero; vzero]
             triangle_at_rest).
    + lia.
    + apply single_triangle_iterations.
    + intros i di mi [Hi _] Hit.
      by rewrite (single_triangle_passes _ _ _ _ _ Hi Hit).
  - apply (Htol (1 / 1000)%R 1 0 single_triangle_mesh [vzero; vzero; vzero]
             triangle_at_rest).
    + lra.
    + lia.
    + apply single_triangle_iterations.
    + done.
    + exists (Fin 0). split; [apply max_norm_zeros|].
      cbn. apply bool_decide_eq_true. lra.
    + intros i di mi Hi. lia.
Defined.

Lemma projection_loop_witness :
  exists pts',
    project_to_surface 1 (affine_surface 1 0 0) (Fin (1 / 10000000000))
      (map vfin [(1, 2)%R])
      (map (surf_f (affine_surface 1 0 0)) (map vfin [(1, 2)%R]))
    = Ok pts'
    /\ (pts' = map vfin [(1, 2)%R]
        \/ pts' = map (newton_step (affine_surface 1 0 0))
                      (map vfin [(1, 2)%R]))
    /\ Forall (fun x =>
                 fle (fabs (surf_f (affine_surface 1 0 0) x))
                     (Fin (1 / 10000000000)) = true) pts'.
Proof.
  apply (proj1 (proj2 (proj2 (proj2 (projection_loop constant_surface
                                       (Fin 0)))))
           1%R 0%R 0%R (1 / 10000000000)%R [(1, 2)%R] 1).
  - lra.
  - lra.
  - lia.
Defined.

(** ** Pruning the points that no cell uses *)

(** *** [numpy.unique] *)

Lemma elem_of_insert_unique x y l :
  y ∈ insert_unique x l <-> y = x \/ y ∈ l.
Proof.
  induction l as [|z l IH]; cbn.
  - rewrite list_elem_of_singleton, elem_of_nil. tauto.
  - repeat case_decide; subst; rewrite ?elem_of_cons, ?IH; tauto.
Qed.

Lemma elem_of_np_unique y a : y ∈ np_unique a <-> y ∈ a.
Proof.
  induction a as [|x a IH]; cbn; [done|].
  by rewrite elem_of_insert_unique, elem_of_cons, IH.
Qed.

Lemma insert_unique_sorted x l :
  increasing l -> increasing (insert_unique x l).
Proof.
  induction l as [|y l IH]; cbn.
  - by repeat constructor.
  - intros [Hy Hl]. repeat case_decide; cbn.
    + split; [|done]. constructor; [done|].
      eapply Forall_impl; [exact Hy|]. cbn. lia.
    + done.
    + split; [|by apply IH]. apply Forall_forall. intros z Hz.
      apply elem_of_insert_unique in Hz as [->|Hz]; [lia|].
      by eapply Forall_forall in Hy.
Qed.

Lemma np_unique_sorted a : increasing (np_unique a).
Proof.
  induction a as [|x a IH]; cbn; [done|by apply insert_unique_sorted].
Qed.

Lemma lookup_index_of x l : x ∈ l -> l !! index_of x l = Some x.
Proof.
  induction l as [|y l IH]; cbn; [by rewrite elem_of_nil|].
  case_decide as E; [by subst|]. rewrite elem_of_cons. intros [?|?]; [done|].
  by apply IH.
Qed.

Lemma index_of_lt x l : x ∈ l -> index_of x l < length l.
Proof. intros H%lookup_index_of. by eapply lookup_lt_Some. Qed.

(** On a strictly increasing list positions grow with the values. *)
Lemma index_of_sorted_lt l x y :
  increasing l -> x ∈ l -> y ∈ l -> x < y ->
  index_of x l < index_of y l.
Proof.
  induction l as [|z l IH]; cbn; [by rewrite elem_of_nil|].
  rewrite !elem_of_cons. intros [Hz Hl] Hx Hy Hlt.
  repeat case_decide; subst; try lia.
  - destruct Hx as [->|Hx]; [done|].
    eapply Forall_forall in Hz; [|exact Hx]. lia.
  - destruct Hx as [?|Hx]; [done|]. destruct Hy as [?|Hy]; [done|].
    specialize (IH Hl Hx Hy Hlt). lia.
Qed.

Lemma sorted_lookup_index_of l : forall i x,
  increasing l -> l !! i = Some x -> index_of x l = i.
Proof.
  induction l as [|y l IH]; intros i x Hs; [done|].
  destruct Hs as [Hy Hs].
  destruct i as [|i]; cbn.
  - intros [= ->]. by rewrite decide_True.
  - intros Hi. case_decide as E.
    + subst. apply list_elem_of_lookup_2 in Hi.
      eapply Forall_forall in Hy; [|exact Hi]. lia.
    + f_equal. by apply IH.
Qed.

(** The sorted list of the distinct values of a list that holds exactly the
    numbers below [n]. *)
Lemma sorted_below_seq l : forall n,
  increasing l -> (forall x, x ∈ l <-> x < n) -> l = seq 0 n.
Proof.
  assert (H : forall l s n, increasing l ->
                (forall x, x ∈ l <-> s <= x < s + n) -> l = seq s n).
  { clear. induction l as [|y l IH]; intros s n Hs Hin.
    - destruct n as [|n]; [done|].
      pose proof (proj2 (Hin s) ltac:(lia)) as H. by apply elem_of_nil in H.
    - destruct Hs as [Hy Hs].
      destruct n as [|n].
      { specialize (proj1 (Hin y) ltac:(by left)). lia. }
      assert (y = s) as ->.
      { pose proof (proj1 (Hin y) ltac:(by left)).
        pose proof (proj2 (Hin s) ltac:(lia)) as [->|Hs']%elem_of_cons;
          [done|].
        eapply Forall_forall in Hy; [|exact Hs']. lia. }
      cbn. f_equal. apply IH; [done|]. intros x. split.
      + intros Hx. pose proof Hx as Hx'.
        eapply Forall_forall in Hx'; [|exact Hy].
        pose proof (proj1 (Hin x) ltac:(by right)). lia.
      + intros Hx.
        pose proof (proj2 (Hin x) ltac:(lia)) as [->|?]%elem_of_cons;
          [lia|done]. }
  intros n Hs Hin. apply H; [done|]. intros x. rewrite Hin. lia.
Qed.

(** *** Reshaping and renumbering *)

Lemma reshape_like_concat data : forall flat,
  length flat = length (concat data) ->
  concat (reshape_like data flat) = flat.
Proof.
  induction data as [|row data IH]; intros flat; cbn.
  - intros H. symmetry. by apply nil_length_inv.
  - rewrite length_app. intros H.
    rewrite IH by (rewrite length_drop; lia). apply take_drop.
Qed.

Lemma reshape_like_shape data : forall flat,
  length flat = length (concat data) ->
  map length (reshape_like data flat) = map length data.
Proof.
  induction data as [|row data IH]; intros flat; cbn; [done|].
  rewrite length_app. intros H.
  rewrite length_take, IH by (rewrite length_drop; lia). f_equal. lia.
Qed.

Lemma reshape_like_id data : reshape_like data (concat data) = data.
Proof.
  induction data as [|row data IH]; cbn; [done|].
  by rewrite take_app_length, drop_app_length, IH.
Qed.

Lemma renumber_corners {K} uidx : forall (blocks : list (K * list (list nat))) k,
  let total := length (concat (map (fun b => concat b.2) blocks)) in
  k + total <= length uidx ->
  concat (map (fun b => concat b.2) (renumber uidx k blocks))
  = firstn total (skipn k uidx).
Proof.
  induction blocks as [|[t data] blocks IH]; intros k; cbn; [done|].
  rewrite length_app. intros H.
  rewrite reshape_like_concat by (rewrite length_take, length_drop; lia).
  rewrite IH by lia. rewrite <- drop_drop. apply take_take_drop.
Qed.

Lemma renumber_shape {K} uidx : forall (blocks : list (K * list (list nat))) k,
  k + length (concat (map (fun b => concat b.2) blocks)) <= length uidx ->
  map (fun b => (b.1, map length b.2)) (renumber uidx k blocks)
  = map (fun b => (b.1, map length b.2)) blocks.
Proof.
  induction blocks as [|[t data] blocks IH]; intros k; cbn; [done|].
  rewrite length_app. intros H.
  rewrite reshape_like_shape by (rewrite length_take, length_drop; lia).
  by rewrite IH by lia.
Qed.

Lemma renumber_id {K} : forall (blocks : list (K * list (list nat))) pre,
  renumber (pre ++ concat (map (fun b => concat b.2) blocks)) (length pre)
    blocks
  = blocks.
Proof.
  induction blocks as [|[t data] blocks IH]; intros pre; cbn; [done|].
  rewrite drop_app_length, take_app_length, reshape_like_id. f_equal.
  rewrite <- length_app, app_assoc. apply IH.
Qed.

(** *** The comprehensions of [prune] *)

Lemma traverse_concat {K} (blocks : list (K * list (list nat))) :
  Forall (fun b => b.2 <> []) blocks ->
  traverse (fun b => np_concatenate b.2) blocks
  = Ok (map (fun b => concat b.2) blocks).
Proof.
  induction 1 as [|[t data] blocks Hd _ IH]; cbn; [done|].
  destruct data; [done|]. cbn. by rewrite IH.
Qed.

Lemma traverse_concat_empty {K} (blocks : list (K * list (list nat))) :
  Exists (fun b => b.2 = []) blocks ->
  traverse (fun b => np_concatenate b.2) blocks = Raise ValueError.
Proof.
  induction 1 as [[t data] blocks Hd|[t data] blocks _ IH]; cbn in *.
  - by subst.
  - destruct data; [done|]. cbn. by rewrite IH.
Qed.

Lemma traverse_concat_inv {K} (blocks : list (K * list (list nat))) flats :
  traverse (fun b => np_concatenate b.2) blocks = Ok flats ->
  Forall (fun b => b.2 <> []) blocks
  /\ flats = map (fun b => concat b.2) blocks.
Proof.
  intros H.
  destruct (decide (Forall (fun b : K * list (list nat) => b.2 <> []) blocks))
    as [Hall|Hex].
  - split; [done|]. rewrite traverse_concat in H by done. by injection H.
  - apply not_Forall_Exists in Hex; [|solve_decision].
    rewrite traverse_concat_empty in H; [done|].
    eapply Exists_impl; [exact Hex|]. cbn. intros b Hb.
    by destruct (b.2); [|destruct Hb].
Qed.

Lemma take_length {A} idx (a v : list A) :
  take idx a = Ok v -> length v = length idx.
Proof. intros H%take_Ok_inv. symmetry. by eapply Forall2_length. Qed.

Lemma take_lookup {A} idx (a v : list A) j i :
  take idx a = Ok v -> idx !! j = Some i ->
  v !! j = a !! i /\ is_Some (a !! i).
Proof.
  intros H%take_Ok_inv Hj.
  destruct (Forall2_lookup_l _ _ _ _ _ H Hj) as (x & Hx & Hax).
  rewrite Hx, Hax. eauto.
Qed.

Lemma take_out_of_range {A} idx (a : list A) :
  Exists (fun i => length a <= i) idx -> take idx a = Raise IndexError.
Proof.
  induction idx as [|i idx IH]; intros H; [by apply Exists_nil in H|].
  cbn. destruct (a !! i) as [x|] eqn:E; [|done].
  apply Exists_cons in H as [H|H].
  - apply lookup_lt_Some in E. lia.
  - by rewrite IH.
Qed.

Lemma take_seq {A} (a : list A) : take (seq 0 (length a)) a = Ok a.
Proof.
  assert (H : forall pre, take (seq (length pre) (length a)) (pre ++ a) = Ok a).
  { induction a as [|x a IH]; intros pre; cbn; [done|].
    rewrite lookup_app_r, Nat.sub_diag by lia. cbn.
    replace (pre ++ x :: a) with ((pre ++ [x]) ++ a) by (by rewrite <- app_assoc).
    replace (S (length pre)) with (length (pre ++ [x]))
      by (rewrite length_app; cbn; lia).
    by rewrite IH. }
  apply (H []).
Qed.

Lemma traverse_data_inv {K D} u (pd : list (K * list D)) pd' :
  traverse (fun kd => d ← take u kd.2; Ok (kd.1, d)) pd = Ok pd' ->
  Forall2 (fun kd' kd => kd'.1 = kd.1 /\ take u kd.2 = Ok kd'.2) pd' pd.
Proof.
  revert pd'. induction pd as [|[k d] pd IH]; intros pd'; cbn.
  - intros [= <-]. constructor.
  - intros (y & (d' & Hd & [= <-])%bind_Ok_inv & H)%bind_Ok_inv.
    apply bind_Ok_inv in H as (ys & Hys & [= <-]). constructor; auto.
Qed.

Lemma traverse_data_seq {K D} n (pd : list (K * list D)) :
  Forall (fun kd => length kd.2 = n) pd ->
  traverse (fun kd => d ← take (seq 0 n) kd.2; Ok (kd.1, d)) pd = Ok pd.
Proof.
  induction 1 as [|[k d] pd Hd _ IH]; cbn in *; [done|].
  subst n. by rewrite take_seq, bind_Ok, IH.
Qed.

(** *** What [prune] returns *)

(** The parts of a successful [prune]. *)
Lemma prune_Ok_inv {K A D} (m m' : io_mesh K A D) :
  prune m = Ok m' ->
  let u := np_unique (io_corners m) in
  io_cells m <> []
  /\ Forall (fun b => b.2 <> []) (io_cells m)
  /\ io_corners m' = map (fun x => index_of x u) (io_corners m)
  /\ io_shape m' = io_shape m
  /\ take u (io_points m) = Ok (io_points m')
  /\ Forall2 (fun kd' kd => kd'.1 = kd.1 /\ take u kd.2 = Ok kd'.2)
       (io_point_data m') (io_point_data m).
Proof.
  unfold prune. intros (flats & Hflats & H)%bind_Ok_inv.
  apply traverse_concat_inv in Hflats as [Hne ->].
  apply bind_Ok_inv in H as (ncells & Hn & H).
  assert (io_cells m <> [] /\ ncells = io_corners m) as [Hcells ->].
  { unfold np_concatenate, io_corners in *.
    destruct (io_cells m); [done|]. by injection Hn as <-. }
  cbn in H. apply bind_Ok_inv in H as (pts & Hpts & H).
  apply bind_Ok_inv in H as (pd & Hpd & [= <-]). cbn.
  split; [done|]. split; [done|]. unfold io_corners, io_shape. cbn.
  rewrite renumber_corners, renumber_shape by (rewrite length_fmap; cbn; lia).
  split; [|split; [done|split; [done|by apply traverse_data_inv]]].
  cbn. fold (io_corners m).
  rewrite <- (length_fmap (fun x => index_of x (np_unique (io_corners m)))).
  apply firstn_all.
Qed.

Lemma np_unique_in_range (a : list nat) n :
  Forall (fun i => i < n) a -> Forall (fun i => i < n) (np_unique a).
Proof.
  rewrite !Forall_forall. intros H x Hx. by apply H, elem_of_np_unique.
Qed.

Lemma traverse_data_in_range {K D} u (pd : list (K * list D)) :
  Forall (fun kd => Forall (fun i => i < length kd.2) u) pd ->
  exists pd', traverse (fun kd => d ← take u kd.2; Ok (kd.1, d)) pd = Ok pd'.
Proof.
  induction 1 as [|[k d] pd Hd _ [pd' IH]]; cbn in *; [by eexists|].
  destruct (take_in_range _ _ Hd) as [v ->]. rewrite bind_Ok, IH. by eexists.
Qed.

Lemma traverse_data_out_of_range {K D} u (pd : list (K * list D)) :
  Exists (fun kd => Exists (fun i => length kd.2 <= i) u) pd ->
  traverse (fun kd => d ← take u kd.2; Ok (kd.1, d)) pd = Raise IndexError.
Proof.
  induction pd as [|[k d] pd IH]; intros H; [by apply Exists_nil in H|].
  cbn. destruct (take u d) as [v| |] eqn:E; cbn.
  - apply Exists_cons in H as [H|H].
    + cbn in H. by rewrite take_out_of_range in E.
    + by rewrite IH.
  - destruct (decide (Forall (fun i => i < length d) u)) as [Hall|Hex].
    + destruct (take_in_range _ _ Hall) as [v Hv]. congruence.
    + apply not_Forall_Exists in Hex; [|solve_decision].
      rewrite take_out_of_range in E; [congruence|].
      eapply Exists_impl; [exact Hex|]. cbn. lia.
  - destruct (decide (Forall (fun i => i < length d) u)) as [Hall|Hex].
    + destruct (take_in_range _ _ Hall) as [v Hv]. congruence.
    + apply not_Forall_Exists in Hex; [|solve_decision].
      rewrite take_out_of_range in E; [congruence|].
      eapply Exists_impl; [exact Hex|]. cbn. lia.
Qed.

(** The first two steps of [prune] on a mesh with cells. *)
Lemma prune_unfold {K A D} (m : io_mesh K A D) :
  io_cells m <> [] ->
  Forall (fun b => b.2 <> []) (io_cells m) ->
  let u := np_unique (io_corners m) in
  prune m
  = (pts ← take u (io_points m);
     pd ← traverse (fun kd : K * list D => d ← take u kd.2; Ok (kd.1, d))
                   (io_point_data m);
     Ok (IOMesh pts
           (renumber (map (fun x => index_of x u) (io_corners m)) 0
              (io_cells m)) pd)).
Proof.
  intros Hcells Hne. unfold prune. rewrite traverse_concat, bind_Ok by done.
  unfold np_concatenate, io_corners.
  by destruct (io_cells m).
Qed.

(** A mesh in which every point is a corner of a cell is left as it is. *)
Lemma prune_fixpoint {K A D} (m : io_mesh K A D) :
  io_cells m <> [] ->
  Forall (fun b => b.2 <> []) (io_cells m) ->
  (forall x, x ∈ io_corners m <-> x < length (io_points m)) ->
  Forall (fun kd => length kd.2 = length (io_points m)) (io_point_data m) ->
  prune m = Ok m.
Proof.
  intros Hcells Hne Hcover Hpd. rewrite prune_unfold by done. cbn zeta.
  assert (Hu : np_unique (io_corners m) = seq 0 (length (io_points m))).
  { apply sorted_below_seq; [apply np_unique_sorted|].
    intros x. by rewrite elem_of_np_unique. }
  rewrite Hu, take_seq, bind_Ok, traverse_data_seq, bind_Ok by done.
  assert (Hidx : map (fun x => index_of x (seq 0 (length (io_points m))))
                   (io_corners m) = io_corners m).
  { rewrite <- (list_fmap_id (io_corners m)) at 2.
    apply list_fmap_ext. intros _ x Hx%list_elem_of_lookup_2%Hcover. cbn.
    apply sorted_lookup_index_of; [rewrite <- Hu; apply np_unique_sorted|].
    by rewrite lookup_seq_lt. }
  rewrite Hidx. unfold io_corners.
  pose proof (renumber_id (io_cells m) []) as Hid. cbn in Hid. rewrite Hid.
  by destruct m.
Qed.

Section Prune.
Context {K A D : Type}.
Implicit Types m : io_mesh K A D.

(** X1: after [prune] the cells refer to existing points only, every point
    is a corner of some cell, and every per-point data array has one row per
    point. *)
Theorem prune_no_unused_point m m' :
  prune m = Ok m' ->
  Forall (fun i => i < length (io_points m')) (io_corners m')
  /\ (forall p, p < length (io_points m') -> p ∈ io_corners m')
  /\ Forall (fun kd => length kd.2 = length (io_points m')) (io_point_data m').
Proof.
  intros (_ & _ & Hc & _ & Hpts & Hpd)%prune_Ok_inv.
  apply take_length in Hpts as Hlen. rewrite Hc, Hlen. split; [|split].
  - apply Forall_fmap, Forall_forall. intros x Hx. cbn.
    by apply index_of_lt, elem_of_np_unique.
  - intros p Hp.
    destruct (lookup_lt_is_Some_2 _ _ Hp) as [x Hx].
    apply list_elem_of_fmap. exists x. split.
    + symmetry. apply sorted_lookup_index_of; [apply np_unique_sorted|done].
    + apply elem_of_np_unique. by eapply list_elem_of_lookup_2.
  - clear -Hpd. induction Hpd as [|kd' kd pd' pd [_ H] _ IH]; constructor.
    + by apply take_length in H.
    + done.
Qed.

(** X2: [prune] keeps the cells: the blocks keep their types and shapes and
    the per-point data their keys; every corner of every cell refers after
    the renumbering to the point, and to the data rows, it referred to
    before; corners that referred to different points still do, in the same
    order of indices. *)
Theorem prune_keeps_cells m m' :
  prune m = Ok m' ->
  io_shape m' = io_shape m
  /\ map fst (io_point_data m') = map fst (io_point_data m)
  /\ Forall2 (fun i' i => io_points m' !! i' = io_points m !! i
                          /\ is_Some (io_points m !! i))
       (io_corners m') (io_corners m)
  /\ Forall2 (fun kd' kd =>
                Forall2 (fun i' i => kd'.2 !! i' = kd.2 !! i)
                  (io_corners m') (io_corners m))
       (io_point_data m') (io_point_data m)
  /\ (forall j k i1 i2 i1' i2',
        io_corners m !! j = Some i1 -> io_corners m !! k = Some i2 ->
        io_corners m' !! j = Some i1' -> io_corners m' !! k = Some i2' ->
        (i1 < i2 <-> i1' < i2')).
Proof.
  intros (_ & _ & Hc & Hshape & Hpts & Hpd)%prune_Ok_inv.
  set (u := np_unique (io_corners m)) in *.
  assert (Hcorner : forall {B} (a v : list B), take u a = Ok v ->
    Forall2 (fun i' i => v !! i' = a !! i /\ is_Some (a !! i))
      (io_corners m') (io_corners m)).
  { intros B a v Ht. rewrite Hc. apply Forall2_fmap_l, Forall_Forall2_diag.
    apply Forall_forall. intros x Hx. cbn.
    apply (take_lookup _ _ _ _ _ Ht). by apply lookup_index_of, elem_of_np_unique. }
  split; [done|]. split; [|split; [|split]].
  - clear -Hpd. induction Hpd as [|kd' kd pd' pd [H _] _ IH]; cbn; [done|].
    by rewrite H, IH.
  - by apply Hcorner.
  - eapply Forall2_impl; [exact Hpd|]. cbn. intros kd' kd [_ Ht].
    eapply Forall2_impl; [exact (Hcorner _ _ _ Ht)|]. cbn. tauto.
  - intros j k i1 i2 i1' i2' Hj Hk. rewrite Hc, !list_lookup_fmap, Hj, Hk. cbn.
    intros [= <-] [= <-].
    assert (H1 : i1 ∈ u) by (apply elem_of_np_unique; by eapply list_elem_of_lookup_2).
    assert (H2 : i2 ∈ u) by (apply elem_of_np_unique; by eapply list_elem_of_lookup_2).
    pose proof (np_unique_sorted (io_corners m)) as Hs. fold u in Hs.
    split; [by apply index_of_sorted_lt|]. intros Hlt.
    destruct (Nat.lt_trichotomy i1 i2) as [?|[->|Hgt]]; [done|lia|].
    pose proof (index_of_sorted_lt u i2 i1 Hs H2 H1 Hgt). lia.
Qed.

(** X3: [prune] is idempotent, and it changes nothing at all in a mesh that
    has cells, whose points are all corners of cells, and whose data arrays
    have one row per point. *)
Theorem prune_idempotent m :
  (io_cells m <> [] ->
   Forall (fun b => b.2 <> []) (io_cells m) ->
   (forall x, x ∈ io_corners m <-> x < length (io_points m)) ->
   Forall (fun kd => length kd.2 = length (io_points m)) (io_point_data m) ->
   prune m = Ok m)
  /\ (forall m', prune m = Ok m' -> prune m' = Ok m').
Proof.
  split; [apply prune_fixpoint|]. intros m' Hm.
  pose proof Hm as (Hcells & Hne & Hc & Hshape & Hpts & Hpd)%prune_Ok_inv.
  apply take_length in Hpts as Hlen.
  assert (Hshape' : map (fun b : K * list (list nat) => length b.2) (io_cells m')
                    = map (fun b : K * list (list nat) => length b.2) (io_cells m)).
  { unfold io_shape in Hshape.
    apply (f_equal (map (fun b : K * list nat => length b.2))) in Hshape.
    rewrite <- !list_fmap_compose in Hshape.
    etrans; [|etrans; [exact Hshape|]]; apply list_fmap_ext; intros _ b _; cbn.
    all: by rewrite length_fmap. }
  apply prune_fixpoint.
  - intros E. rewrite E in Hshape'. by destruct (io_cells m).
  - clear -Hne Hshape'. revert Hshape'.
    generalize (io_cells m'). induction Hne as [|b bs Hb _ IH]; intros [|b' bs'];
      cbn; try done.
    intros [= H1 H2]. constructor; [|by apply IH].
    destruct (b'.2); [|done]. by destruct (b.2).
  - intros x. rewrite Hc, Hlen. split.
    + intros (y & -> & Hy)%list_elem_of_fmap.
      by apply index_of_lt, elem_of_np_unique.
    + intros Hx. destruct (lookup_lt_is_Some_2 _ _ Hx) as [y Hy].
      apply list_elem_of_fmap. exists y. split.
      * symmetry. apply sorted_lookup_index_of; [apply np_unique_sorted|done].
      * apply elem_of_np_unique. by eapply list_elem_of_lookup_2.
  - rewrite Hlen. clear -Hpd.
    induction Hpd as [|kd' kd pd' pd [_ H] _ IH]; constructor; [|done].
    by apply take_length in H.
Qed.

(** X4: [prune] returns exactly on a mesh that has a cell block, no empty
    block, and whose corners all index the point array and every data array;
    without a block, or with an empty one, it raises [ValueError], and with a
    corner beyond the points or a data array it raises [IndexError]. *)
Theorem prune_returns_iff m :
  let well_formed :=
    io_cells m <> []
    /\ Forall (fun b => b.2 <> []) (io_cells m)
    /\ Forall (fun i => i < length (io_points m)) (io_corners m)
    /\ Forall (fun kd => Forall (fun i => i < length kd.2) (io_corners m))
         (io_point_data m) in
  ((exists m', prune m = Ok m') <-> well_formed)
  /\ (io_cells m = [] \/ Exists (fun b => b.2 = []) (io_cells m) ->
      prune m = Raise ValueError)
  /\ (io_cells m <> [] -> Forall (fun b => b.2 <> []) (io_cells m) ->
      ~ well_formed -> prune m = Raise IndexError).
Proof.
  intros well_formed.
  assert (Hix : io_cells m <> [] -> Forall (fun b => b.2 <> []) (io_cells m) ->
                ~ well_formed -> prune m = Raise IndexError).
  { intros Hcells Hne Hnot. rewrite prune_unfold by done. cbn zeta.
    destruct (decide (Forall (fun i => i < length (io_points m))
                        (io_corners m))) as [Hpts|Hpts].
    - destruct (take_in_range _ _ (np_unique_in_range _ _ Hpts)) as [v ->].
      rewrite bind_Ok. rewrite traverse_data_out_of_range; [done|].
      destruct (decide (Forall (fun kd : K * list D =>
                  Forall (fun i => i < length kd.2) (io_corners m))
                  (io_point_data m))) as [Hpd|Hpd].
      { destruct Hnot. by repeat split. }
      apply not_Forall_Exists in Hpd; [|solve_decision].
      eapply Exists_impl; [exact Hpd|]. cbn. intros kd Hkd.
      apply not_Forall_Exists in Hkd; [|solve_decision].
      apply Exists_exists in Hkd as (i & Hi & Hge). cbn in Hge.
      apply Exists_exists. exists i. split; [by apply elem_of_np_unique|lia].
    - apply not_Forall_Exists in Hpts; [|solve_decision].
      rewrite take_out_of_range; [done|].
      apply Exists_exists in Hpts as (i & Hi & Hge). cbn in Hge.
      apply Exists_exists. exists i. split; [by apply elem_of_np_unique|lia]. }
  split; [|split; [|done]].
  - split.
    + intros [m' Hm].
      destruct (decide (io_cells m = [])) as [E|Hcells].
      { apply prune_Ok_inv in Hm as [? _]. done. }
      apply prune_Ok_inv in Hm as Hinv. destruct Hinv as (_ & Hne & _).
      destruct (decide well_formed) as [?|Hnot]; [done|].
      rewrite Hix in Hm by done. done.
    + intros (Hcells & Hne & Hpts & Hpd). rewrite prune_unfold by done.
      cbn zeta.
      destruct (take_in_range _ _ (np_unique_in_range _ _ Hpts)) as [v ->].
      rewrite bind_Ok.
      destruct (traverse_data_in_range (np_unique (io_corners m))
                  (io_point_data m)) as [pd' ->].
      { eapply Forall_impl; [exact Hpd|]. cbn. intros kd.
        apply np_unique_in_range. }
      by eexists.
  - intros [E|Hex]; unfold prune.
    + by rewrite E.
    + by rewrite traverse_concat_empty.
Qed.
End Prune.

Lemma prune_unpruned_mesh : prune unpruned_mesh = Ok pruned_mesh.
Proof. reflexivity. Qed.

Lemma prune_no_unused_point_witness :
  Forall (fun i => i < length (io_points pruned_mesh)) (io_corners pruned_mesh)
  /\ (forall p, p < length (io_points pruned_mesh) ->
               p ∈ io_corners pruned_mesh)
  /\ Forall (fun kd => length kd.2 = length (io_points pruned_mesh))
        (io_point_data pruned_mesh).
Proof.
  apply (prune_no_unused_point unpruned_mesh pruned_mesh). reflexivity.
Defined.

Lemma prune_keeps_cells_witness :
  io_shape pruned_mesh = io_shape unpruned_mesh
  /\ map fst (io_point_data pruned_mesh) = map fst (io_point_data unpruned_mesh)
  /\ Forall2 (fun i' i =>
                io_points pruned_mesh !! i' = io_points unpruned_mesh !! i
                /\ is_Some (io_points unpruned_mesh !! i))
       (io_corners pruned_mesh) (io_corners unpruned_mesh)
  /\ Forall2 (fun kd' kd =>
                Forall2 (fun i' i => kd'.2 !! i' = kd.2 !! i)
                  (io_corners pruned_mesh) (io_corners unpruned_mesh))
       (io_point_data pruned_mesh) (io_point_data unpruned_mesh)
  /\ (forall j k i1 i2 i1' i2',
        io_corners unpruned_mesh !! j = Some i1 ->
        io_corners unpruned_mesh !! k = Some i2 ->
        io_corners pruned_mesh !! j = Some i1' ->
        io_corners pruned_mesh !! k = Some i2' ->
        (i1 < i2 <-> i1' < i2')).
Proof.
  apply (prune_keeps_cells unpruned_mesh pruned_mesh). reflexivity.
Defined.

Lemma prune_idempotent_witness : prune pruned_mesh = Ok pruned_mesh.
Proof.
  apply (proj2 (prune_idempotent unpruned_mesh) pruned_mesh). reflexivity.
Defined.

Lemma prune_returns_iff_witness : exists m', prune unpruned_mesh = Ok m'.
Proof.
  apply (proj1 (prune_returns_iff unpruned_mesh)). cbn. split; [done|].
  split; [by repeat constructor|]. split; repeat constructor.
Defined.

(** ** The closed form of the energy *)

Lemma rsum_fmap_pos {A} (g : A -> R) (l : list A) :
  l <> [] -> (forall x, x ∈ l -> 0 < g x)%R -> (0 < rsum (g <$> l))%R.
Proof.
  unfold rsum. induction l as [|x l IH]; intros Hne H; [done|]. cbn.
  pose proof (H x (list_elem_of_here _ _)).
  destruct l as [|y l]; [cbn; lra|].
  assert (0 < foldr Rplus 0 (g <$> y :: l))%R.
  { apply IH; [done|]. intros z Hz. apply H. by right. }
  lra.
Qed.

Lemma edge_normsq_nonneg t : (0 <= edge_normsq t)%R.
Proof.
  destruct t as [[a b] c]. unfold edge_normsq, normsq. cbn.
  pose proof (pow2_ge_0 (a.1 - b.1)). pose proof (pow2_ge_0 (a.2 - b.2)).
  pose proof (pow2_ge_0 (a.1 - c.1)). pose proof (pow2_ge_0 (a.2 - c.2)).
  pose proof (pow2_ge_0 (b.1 - c.1)). pose proof (pow2_ge_0 (b.2 - c.2)).
  nra.
Qed.

Lemma square_zero (x : R) : (x * x <= 0)%R -> x = 0%R.
Proof. intros H. destruct (Rtotal_order x 0) as [?|[?|?]]; [nra|done|nra]. Qed.

(** A triangle of positive area has an edge of positive length. *)
Lemma edge_normsq_pos t : (0 < area t)%R -> (0 < edge_normsq t)%R.
Proof.
  intros Ha. destruct (edge_normsq_nonneg t) as [?|E]; [done|]. exfalso.
  destruct t as [[a b] c]. unfold edge_normsq, normsq, area in *. cbn in *.
  pose proof (pow2_ge_0 (a.1 - b.1)). pose proof (pow2_ge_0 (a.2 - b.2)).
  pose proof (pow2_ge_0 (a.1 - c.1)). pose proof (pow2_ge_0 (a.2 - c.2)).
  pose proof (pow2_ge_0 (b.1 - c.1)). pose proof (pow2_ge_0 (b.2 - c.2)).
  assert (Hab1 : (a.1 - b.1 = 0)%R) by (apply square_zero; lra).
  assert (Hab2 : (a.2 - b.2 = 0)%R) by (apply square_zero; lra).
  assert (Hac1 : (a.1 - c.1 = 0)%R) by (apply square_zero; lra).
  assert (Hac2 : (a.2 - c.2 = 0)%R) by (apply square_zero; lra).
  replace ((b.1 - a.1) * (c.2 - a.2) - (b.2 - a.2) * (c.1 - a.1))%R with 0%R
    in Ha by nra.
  rewrite Rabs_R0 in Ha. lra.
Qed.

(** Cell by cell: the mean of the corner values exceeds the rule of degree 2
    by a twelfth of the squared edge lengths. *)
Lemma quad_real_edges (scheme : quadrature) (t : rtriangle) :
  exact_degree2 scheme ->
  (1 / 3 * corner_normsq t = quad_real scheme t + 1 / 12 * edge_normsq t)%R.
Proof.
  intros (_ & H00 & H11 & H22 & H01 & H02 & H12). destruct t as [[a b] c].
  rewrite quad_real_moments, H00, H11, H22, H01, H02, H12.
  unfold corner_normsq, edge_normsq, normsq. cbn. lra.
Qed.

(** The value of the energy on real data. *)
Lemma energy_value (scheme : quadrature) (m : mesh) (uniform_density : bool)
    (P : list (R * R)) :
  exact_degree2 scheme ->
  points m = map vfin P ->
  cells_in_range (length P) (cells m) ->
  cell_volumes m = map Fin (map (fun c => area (corners P c)) (cells m)) ->
  Forall (fun c => 0 < area (corners P c))%R (cells m) ->
  energy scheme m uniform_density
  = Ok (Fin (energy_spec uniform_density P (cells m)))
  /\ (0 <= energy_spec uniform_density P (cells m))%R.
Proof.
  intros Hex HP Hcs Hvol Hpos.
  set (vol := map (fun c => area (corners P c)) (cells m)) in *.
  assert (Hlen : length vol = length (cells m))
    by (by unfold vol; rewrite length_fmap).
  pose proof (energy_linear_real m uniform_density P vol HP Hvol Hlen Hcs) as Hl.
  pose proof (energy_integral_real scheme m uniform_density P HP Hvol Hpos Hcs)
    as Hi.
  assert (Hw : zip_with (fun (c : cell) x => x * corner_normsq (corners P c))%R
                 (cells m)
                 (star_weights uniform_density vol (length (cells m)))
               = map (fun c =>
                        (if uniform_density then area (corners P c) else 1)
                        * corner_normsq (corners P c))%R (cells m)).
  { unfold star_weights, vol. destruct uniform_density.
    - by rewrite zip_with_fmap_r, zip_with_diag.
    - by rewrite zip_with_replicate_r_eq. }
  rewrite Hw in Hl. clear Hw.
  assert (Hsplit :
    (1 / 3 * rsum (map (fun c =>
                          (if uniform_density then area (corners P c) else 1)
                          * corner_normsq (corners P c)) (cells m))
     = rsum (map (fun c =>
                    (if uniform_density then area (corners P c) else 1)
                    * quad_real scheme (corners P c)) (cells m))
       + energy_spec uniform_density P (cells m))%R).
  { unfold energy_spec.
    rewrite <- !rsum_fmap_scale, <- rsum_fmap_plus. apply rsum_fmap_ext.
    intros c _. cbn beta.
    pose proof (quad_real_edges scheme (corners P c) Hex) as Hq.
    assert (Hc : corner_normsq (corners P c)
                 = (3 * quad_real scheme (corners P c)
                    + 1 / 4 * edge_normsq (corners P c))%R) by lra.
    rewrite Hc. destruct uniform_density; field. }
  assert (Hnn : (0 <= energy_spec uniform_density P (cells m))%R).
  { unfold energy_spec.
    assert (0 <= rsum (map (fun c =>
                  (if uniform_density then area (corners P c) else 1)
                  * edge_normsq (corners P c)) (cells m)))%R; [|lra].
    rewrite <- (rsum_fmap_zero (cells m)). apply rsum_fmap_le.
    intros c Hc. cbn beta.
    pose proof (edge_normsq_nonneg (corners P c)).
    eapply Forall_forall in Hpos; [|done]. cbn beta in Hpos.
    destruct uniform_density; nra. }
  split; [|done]. unfold energy. rewrite Hl, Hi, !bind_Ok.
  unfold fge, fle, fsub, fneg, fadd.
  rewrite bool_decide_eq_true_2 by lra.
  do 2 f_equal. lra.
Qed.

(** X5: on a mesh whose cells have positive area the energy is, in exact
    arithmetic and for every rule of degree 2, a twelfth of the sum over the
    cells of the squared edge lengths, each cell weighted by its area in the
    uniform mode and by 1 otherwise; so it is positive as soon as the mesh
    has a cell, and 0 on a mesh without cells. *)
Theorem energy_closed_form (scheme : quadrature) (m : mesh)
    (uniform_density : bool) (P : list (R * R)) :
  exact_degree2 scheme ->
  points m = map vfin P ->
  cells_in_range (length P) (cells m) ->
  cell_volumes m = map Fin (map (fun c => area (corners P c)) (cells m)) ->
  Forall (fun c => 0 < area (corners P c))%R (cells m) ->
  energy scheme m uniform_density
  = Ok (Fin (energy_spec uniform_density P (cells m)))
  /\ (cells m <> [] -> (0 < energy_spec uniform_density P (cells m))%R)
  /\ (cells m = [] -> energy_spec uniform_density P (cells m) = 0%R).
Proof.
  intros Hex HP Hcs Hvol Hpos.
  split; [by apply energy_value|]. split.
  - intros Hne. unfold energy_spec.
    assert (0 < rsum (map (fun c =>
                (if uniform_density then area (corners P c) else 1)
                * edge_normsq (corners P c)) (cells m)))%R; [|lra].
    apply rsum_fmap_pos; [done|]. intros c Hc.
    eapply Forall_forall in Hpos; [|done]. cbn beta in Hpos.
    pose proof (edge_normsq_pos _ Hpos). destruct uniform_density; nra.
  - intros ->. unfold energy_spec, rsum. cbn. lra.
Qed.

Lemma point_at_translate t P i :
  i < length P ->
  point_at (translate t P) i
  = ((point_at P i).1 + t.1, (point_at P i).2 + t.2)%R.
Proof.
  intros Hi. unfold point_at, translate. rewrite list_lookup_fmap.
  by destruct (lookup_lt_is_Some_2 P i Hi) as [x ->].
Qed.

Lemma area_translate t P (c : cell) :
  c.1.1 < length P /\ c.1.2 < length P /\ c.2 < length P ->
  area (corners (translate t P) c) = area (corners P c)
  /\ edge_normsq (corners (translate t P) c) = edge_normsq (corners P c).
Proof.
  intros (H1 & H2 & H3). unfold corners, area, edge_normsq, normsq.
  rewrite !point_at_translate by done. cbn. split; [f_equal; f_equal|]; lra.
Qed.

(** X6: the energy does not change when the whole mesh is moved by a
    vector. *)
Theorem energy_translation_invariant (scheme : quadrature) (m m' : mesh)
    (uniform_density : bool) (P : list (R * R)) (t : R * R) :
  exact_degree2 scheme ->
  points m = map vfin P ->
  cells_in_range (length P) (cells m) ->
  cell_volumes m = map Fin (map (fun c => area (corners P c)) (cells m)) ->
  Forall (fun c => 0 < area (corners P c))%R (cells m) ->
  points m' = map vfin (translate t P) ->
  cells m' = cells m ->
  cell_volumes m' = cell_volumes m ->
  energy scheme m' uniform_density = energy scheme m uniform_density.
Proof.
  intros Hex HP Hcs Hvol Hpos HP' Hcells Hvol'.
  assert (Hsame : Forall (fun c =>
            area (corners (translate t P) c) = area (corners P c)
            /\ edge_normsq (corners (translate t P) c)
               = edge_normsq (corners P c)) (cells m)).
  { eapply Forall_impl; [exact Hcs|]. intros c. apply area_translate. }
  destruct (energy_value scheme m uniform_density P) as [-> _]; [done..|].
  destruct (energy_value scheme m' uniform_density (translate t P))
    as [-> _]; [done|done|..].
  - unfold translate. by rewrite length_fmap, Hcells.
  - rewrite Hvol', Hvol, Hcells. f_equal. apply Forall_fmap_ext_1.
    eapply Forall_impl; [exact Hsame|]. cbn. by intros c [-> _].
  - rewrite Hcells. apply Forall_forall. intros c Hc.
    eapply Forall_forall in Hsame as [-> _]; [|done].
    by eapply Forall_forall in Hpos.
  - rewrite Hcells. unfold energy_spec.
    assert (Hmap :
      map (fun c => (if uniform_density
                     then area (corners (translate t P) c) else 1)
                    * edge_normsq (corners (translate t P) c))%R (cells m)
      = map (fun c => (if uniform_density then area (corners P c) else 1)
                      * edge_normsq (corners P c))%R (cells m)).
    { apply Forall_fmap_ext_1. eapply Forall_impl; [exact Hsame|]. cbn.
      by intros c [-> ->]. }
    by rewrite Hmap.
Qed.

Lemma energy_closed_form_witness :
  energy strang_fix_cowper single_triangle_mesh true
  = Ok (Fin (energy_spec true [(0, 0); (1, 0); (0, 1)]%R [(0, 1, 2)]))
  /\ ([(0, 1, 2)] <> [] ->
      (0 < energy_spec true [(0, 0); (1, 0); (0, 1)] [(0, 1, 2)%nat])%R)
  /\ ([(0, 1, 2)] = [] ->
      energy_spec true [(0, 0); (1, 0); (0, 1)]%R [(0, 1, 2)] = 0%R).
Proof.
  apply (energy_closed_form strang_fix_cowper single_triangle_mesh true
           [(0, 0); (1, 0); (0, 1)]%R).
  - exact strang_fix_cowper_exact.
  - reflexivity.
  - exact single_triangle_in_range.
  - unfold single_triangle_mesh. cbn [cell_volumes cells fmap list_fmap].
    by rewrite single_triangle_area.
  - unfold single_triangle_mesh. cbn [cells]. repeat constructor.
    rewrite single_triangle_area. lra.
Defined.

Lemma energy_translation_invariant_witness :
  energy strang_fix_cowper
    (set_points single_triangle_mesh
       (map vfin (translate (3, 4)%R [(0, 0); (1, 0); (0, 1)]%R))) false
  = energy strang_fix_cowper single_triangle_mesh false.
Proof.
  apply (energy_translation_invariant strang_fix_cowper single_triangle_mesh
           _ false [(0, 0); (1, 0); (0, 1)]%R (3, 4)%R).
  - exact strang_fix_cowper_exact.
  - reflexivity.
  - exact single_triangle_in_range.
  - unfold single_triangle_mesh. cbn [cell_volumes cells fmap list_fmap].
    by rewrite single_triangle_area.
  - unfold single_triangle_mesh. cbn [cells]. repeat constructor.
    rewrite single_triangle_area. lra.
  - reflexivity.
  - reflexivity.
  - reflexivity.
Defined.

(** ** Shape errors of the averaging aggregator *)

Lemma bincount_len_ge idx n : n <= bincount_len idx n.
Proof. unfold bincount_len. induction idx as [|i idx IH]; cbn; lia. Qed.

Lemma bincount_len_out_of_range idx n :
  Exists (fun i => n <= i) idx -> n < bincount_len idx n.
Proof.
  unfold bincount_len. induction 1 as [i idx Hi|i idx _ IH]; cbn.
  - pose proof (bincount_len_ge idx n). unfold bincount_len in *. lia.
  - lia.
Qed.

Lemma length_foldl_alter {A B} (f : B -> A -> A) (g : B -> nat) (l : list B) :
  forall out : list A,
  length (foldl (fun out x => alter (f x) (g x) out) out l) = length out.
Proof.
  induction l as [|x l IH]; intros out; cbn; [done|].
  by rewrite IH, length_alter.
Qed.

Lemma bincount_Ok idx (w : list float) n :
  length w = length idx ->
  exists b, bincount idx w n = Ok b /\ length b = bincount_len idx n.
Proof.
  intros H. rewrite bincount_same_length by done. eexists.
  split; [done|].
  rewrite (length_foldl_alter (fun iw : nat * float => fun s => fadd s iw.2) fst).
  by rewrite length_replicate.
Qed.

Lemma bincount_mismatch idx (w : list float) n :
  idx <> [] -> length w <> length idx -> bincount idx w n = Raise ValueError.
Proof.
  intros Hne H. unfold bincount. destruct idx as [|i idx]; [done|].
  by rewrite decide_False.
Qed.

(** One pass of the loop on columns of the right length. *)
Lemma add_bincounts_pass n (vals : list float * list float) acc idx :
  length vals.1 = length idx -> length vals.2 = length idx ->
  length acc = n ->
  (Forall (fun i => i < n) idx ->
   exists acc', add_bincounts n vals (Ok acc) idx = Ok acc' /\ length acc' = n)
  /\ (Exists (fun i => n <= i) idx -> 1 <= n ->
      add_bincounts n vals (Ok acc) idx = Raise ValueError).
Proof.
  intros H1 H2 Hacc. unfold add_bincounts. rewrite bind_Ok.
  destruct (bincount_Ok idx vals.1 n H1) as (bx & -> & Hbx).
  destruct (bincount_Ok idx vals.2 n H2) as (by_ & -> & Hby).
  rewrite !bind_Ok. split.
  - intros Hidx. rewrite bincount_len_bounded in Hbx, Hby by done.
    rewrite inplace_same by (rewrite length_zip_with; lia).
    eexists. split; [done|]. rewrite !length_zip_with. lia.
  - intros Hidx Hn. apply bincount_len_out_of_range in Hidx.
    assert (Hlen : n + 1 <= length (zip bx by_)) by (rewrite length_zip_with; lia).
    unfold inplace. case_decide as E; [rewrite length_zip_with in E; lia|].
    destruct (zip bx by_) as [|y [|z b]]; cbn in Hlen; [lia|lia|done].
Qed.

Lemma vadd_vzero_vzero : vadd vzero (Fin 0, Fin 0) = vzero.
Proof. unfold vadd, vzero. cbn. f_equal; f_equal; lra. Qed.

Lemma zip_with_replicate {A B C} (f : A -> B -> C) (x : A) (y : B) n :
  zip_with f (replicate n x) (replicate n y) = replicate n (f x y).
Proof. induction n as [|n IH]; cbn; [done|]. by rewrite IH. Qed.

(** A pass of the loop over an empty column adds nothing. *)
Lemma add_bincounts_empty n (vals : list float * list float) :
  add_bincounts n vals (Ok (replicate n vzero)) [] = Ok (replicate n vzero).
Proof.
  unfold add_bincounts. cbn.
  rewrite inplace_same by (by rewrite length_zip_with, !length_replicate; lia).
  f_equal. induction n as [|n IH]; cbn [replicate zip_with]; [done|].
  by rewrite IH, vadd_vzero_vzero.
Qed.

(** X7: without weights, on a mesh that has cells, the averaging step raises
    [ValueError] when the number of reference points differs from the number
    of cells, and, on a mesh that has points, when a corner of a cell is not
    the index of a point; on a mesh without cells it raises nothing, whatever
    the reference points are, and returns [(nan, nan)] for every point. *)
Theorem get_new_points_averaged_shape_errors (m : mesh)
    (reference_points : list vec2) :
  (cells m <> [] ->
   length reference_points <> length (cells m) ->
   get_new_points_averaged m reference_points None = Raise ValueError)
  /\ (length reference_points = length (cells m) ->
      1 <= length (points m) ->
      ~ cells_in_range (length (points m)) (cells m) ->
      get_new_points_averaged m reference_points None = Raise ValueError)
  /\ (cells m = [] ->
      get_new_points_averaged m reference_points None
      = Ok (replicate (length (points m)) (NaN, NaN))).
Proof.
  unfold get_new_points_averaged, scaled_reference. rewrite bind_Ok.
  split; [|split].
  - intros Hne Hlen. unfold cell_columns. cbn [foldl].
    unfold add_bincounts at 3. rewrite bind_Ok. cbn [fst snd].
    assert (Hcol : map (fun c : cell => c.1.1) (cells m) <> [])
      by (by destruct (cells m)).
    rewrite !bincount_mismatch by (done || by rewrite !length_fmap). done.
  - intros Hlen Hn Hout.
    set (n := length (points m)) in *.
    set (vals := (map fst reference_points, map snd reference_points)).
    assert (Hcol : forall (f : cell -> nat) acc, length acc = n ->
      (Forall (fun i => i < n) (map f (cells m)) ->
       exists acc', add_bincounts n vals (Ok acc) (map f (cells m)) = Ok acc'
                    /\ length acc' = n)
      /\ (~ Forall (fun i => i < n) (map f (cells m)) ->
          add_bincounts n vals (Ok acc) (map f (cells m)) = Raise ValueError)).
    { intros f acc Hacc.
      destruct (add_bincounts_pass n vals acc (map f (cells m))) as [Hok Hbad].
      - unfold vals. cbn. by rewrite !length_fmap.
      - unfold vals. cbn. by rewrite !length_fmap.
      - done.
      - split; [done|]. intros Hnot. apply Hbad; [|done].
        apply not_Forall_Exists in Hnot; [|solve_decision].
        eapply Exists_impl; [exact Hnot|]. cbn. lia. }
    assert (Hsome : ~ (Forall (fun i => i < n) (map (fun c : cell => c.1.1) (cells m))
                       /\ Forall (fun i => i < n) (map (fun c : cell => c.1.2) (cells m))
                       /\ Forall (fun i => i < n) (map (fun c : cell => c.2) (cells m)))).
    { intros (H1 & H2 & H3). apply Hout. unfold cells_in_range.
      rewrite Forall_fmap in H1, H2, H3. apply Forall_forall. intros c Hc.
      eapply Forall_forall in H1, H2, H3; try exact Hc. done. }
    unfold cell_columns. cbn [foldl].
    destruct (Hcol (fun c : cell => c.1.1) (replicate n vzero))
      as [Hok1 Hbad1]; [by rewrite length_replicate|].
    destruct (decide (Forall (fun i => i < n)
                        (map (fun c : cell => c.1.1) (cells m)))) as [H1|H1].
    2:{ rewrite Hbad1 by done. done. }
    destruct (Hok1 H1) as (acc1 & -> & Hlen1).
    destruct (Hcol (fun c : cell => c.1.2) acc1) as [Hok2 Hbad2]; [done|].
    destruct (decide (Forall (fun i => i < n)
                        (map (fun c : cell => c.1.2) (cells m)))) as [H2|H2].
    2:{ rewrite Hbad2 by done. done. }
    destruct (Hok2 H2) as (acc2 & -> & Hlen2).
    destruct (Hcol (fun c : cell => c.2) acc2) as [_ Hbad3]; [done|].
    rewrite Hbad3; [done|]. intros H3. by apply Hsome.
  - intros ->. cbn [cell_columns fmap list_fmap foldl].
    rewrite !add_bincounts_empty, bind_Ok.
    cbn [cells_flat fmap list_fmap concat]. unfold bincount_count.
    cbn [foldl bincount_len foldr]. rewrite bind_Ok, fmap_replicate.
    rewrite inplace_same by (rewrite 2!length_replicate; reflexivity).
    f_equal. generalize (length (points m)). intros n.
    induction n as [|n IH]; cbn [replicate zip_with]; [done|].
    rewrite IH. f_equal.
    unfold vdivs, vzero, of_nat. cbn. rewrite !decide_True by done.
    unfold inf_of_sign. by rewrite !decide_False by lra.
Qed.

(** ** The averaging aggregator as a weighted mean *)

(** The averaging step wherever no weight sum vanishes. *)
Lemma get_new_points_averaged_nonzero (m : mesh) (ref : list (R * R))
    (weights : option (list R)) :
  let n := length (points m) in
  let cs := cells m in
  let ws := default (replicate (length cs) 1%R) weights in
  cells_in_range n cs ->
  length ref = length cs ->
  length ws = length cs ->
  (forall p, p < n -> star_sum p cs ws <> 0%R) ->
  get_new_points_averaged m (map vfin ref) (fmap (M:=option) (map Fin) weights)
  = Ok (map vfin (map (averaged_spec cs ref ws) (seq 0 n))).
Proof.
  intros n cs ws Hcs Href Hws Hsum.
  rewrite get_new_points_averaged_real by done. fold n cs ws. f_equal.
  rewrite <- list_fmap_compose.
  apply list_fmap_ext. intros i p Hp%lookup_seq. destruct Hp as [-> Hp].
  specialize (Hsum _ Hp). unfold vdivs, averaged_spec, vfin. cbn.
  by rewrite !decide_False.
Qed.

Lemma star_sum_scale p (k : R) : forall cs ws,
  star_sum p cs (map (Rmult k) ws) = (k * star_sum p cs ws)%R.
Proof.
  induction cs as [|c cs IH]; intros [|w ws]; cbn; try lra.
  rewrite IH. lra.
Qed.

Lemma star_sum_affine p (coord : R * R -> R) (t : R * R) (k : R) :
  (forall r : R * R,
     coord (r.1 + t.1, r.2 + t.2)%R = (coord r + coord t)%R) ->
  forall cs ws ref,
  length ws = length cs -> length ref = length cs ->
  star_sum p cs (zip_with (fun w r => w * coord r)%R (map (Rmult k) ws)
                   (translate t ref))
  = (k * (star_sum p cs (zip_with (fun w r => w * coord r)%R ws ref)
          + coord t * star_sum p cs ws))%R.
Proof.
  intros Hc. unfold translate.
  induction cs as [|c cs IH]; intros [|w ws] [|r ref]; cbn;
    try done; try lra.
  intros [= Hw] [= Hr]. rewrite (IH ws ref Hw Hr), Hc. lra.
Qed.

(** X8: in exact arithmetic the averaging step is an affine-invariant
    weighted mean: wherever no weight sum vanishes, moving every reference
    point by a vector [t] moves every new point by [t], and multiplying all
    weights by a number other than zero changes nothing. *)
Theorem get_new_points_averaged_affine (m : mesh) (ref : list (R * R))
    (weights : option (list R)) (k : R) (t : R * R) :
  let n := length (points m) in
  let cs := cells m in
  let ws := default (replicate (length cs) 1%R) weights in
  cells_in_range n cs ->
  length ref = length cs ->
  length ws = length cs ->
  (forall p, p < n -> star_sum p cs ws <> 0%R) ->
  k <> 0%R ->
  exists X : list (R * R),
    get_new_points_averaged m (map vfin ref)
      (fmap (M:=option) (map Fin) weights) = Ok (map vfin X)
    /\ get_new_points_averaged m (map vfin (translate t ref))
         (fmap (M:=option) (map Fin)
            (fmap (M:=option) (map (Rmult k)) weights))
       = Ok (map vfin (translate t X)).
Proof.
  intros n cs ws Hcs Href Hws Hsum Hk.
  exists (map (averaged_spec cs ref ws) (seq 0 n)).
  split; [by apply get_new_points_averaged_nonzero|].
  set (k' := if weights is Some _ then k else 1%R).
  assert (Hk' : k' <> 0%R) by (unfold k'; destruct weights; lra).
  set (ws' := default (replicate (length cs) 1%R)
                (fmap (M:=option) (map (Rmult k)) weights)).
  assert (Hws' : ws' = map (Rmult k') ws).
  { unfold ws', ws, k'. destruct weights as [w|]; cbn; [done|].
    rewrite fmap_replicate. f_equal. lra. }
  rewrite get_new_points_averaged_nonzero; fold n cs ws'.
  - f_equal. unfold translate. rewrite <- !list_fmap_compose.
    apply list_fmap_ext. intros i p Hp%lookup_seq. destruct Hp as [-> Hp].
    specialize (Hsum _ Hp). cbn. unfold averaged_spec. rewrite Hws'.
    fold (translate t ref).
    rewrite (star_sum_affine i fst t k') by (cbn; done || lra).
    rewrite (star_sum_affine i snd t k') by (cbn; done || lra).
    rewrite star_sum_scale. cbn. f_equal. f_equal; field; done.
  - done.
  - unfold translate. by rewrite length_fmap.
  - rewrite Hws'. by rewrite length_fmap.
  - intros p Hp. rewrite Hws', star_sum_scale. specialize (Hsum _ Hp). nra.
Qed.

Lemma star_sum_consensus p (coord : R * R -> R) (r : R * R) :
  forall cs ref ws,
  Forall2 (fun (c : cell) rc => 0 < incidence p c -> rc = r) cs ref ->
  star_sum p cs (zip_with (fun w rc => w * coord rc)%R ws ref)
  = (coord r * star_sum p cs ws)%R.
Proof.
  intros cs ref ws H. revert ws.
  induction H as [|c rc cs ref Hc _ IH]; intros [|w ws]; cbn; try lra.
  rewrite IH. destruct (decide (0 < incidence p c)) as [Hpos|Hzero].
  - rewrite (Hc Hpos). lra.
  - replace (incidence p c) with 0 by lia. cbn. lra.
Qed.

(** X9: in exact arithmetic a point whose incident cells all have the same
    reference point is sent to that reference point, whatever the weights,
    as long as its weight sum does not vanish. *)
Theorem get_new_points_averaged_consensus (m : mesh) (ref : list (R * R))
    (weights : option (list R)) (p : nat) (r : R * R) :
  let n := length (points m) in
  let cs := cells m in
  let ws := default (replicate (length cs) 1%R) weights in
  cells_in_range n cs ->
  length ref = length cs ->
  length ws = length cs ->
  (forall q, q < n -> star_sum q cs ws <> 0%R) ->
  p < n ->
  Forall2 (fun (c : cell) rc => 0 < incidence p c -> rc = r) cs ref ->
  exists X,
    get_new_points_averaged m (map vfin ref)
      (fmap (M:=option) (map Fin) weights) = Ok X
    /\ X !! p = Some (vfin r).
Proof.
  intros n cs ws Hcs Href Hws Hsum Hp Hsame. eexists.
  split; [by apply get_new_points_averaged_nonzero|]. fold n cs ws.
  rewrite !list_lookup_fmap, lookup_seq_lt by done. cbn. f_equal.
  unfold averaged_spec.
  rewrite (star_sum_consensus p fst r), (star_sum_consensus p snd r) by done.
  specialize (Hsum _ Hp). destruct r as [r1 r2]. cbn. f_equal; f_equal; by field.
Qed.

(** ** Stopping of the runner *)

Lemma fmul_fneg_self t : fmul (fneg t) (fneg t) = fmul t t.
Proof. destruct t as [r| | |]; cbn; try done. f_equal. ring. Qed.

Lemma flt_NaN_r a : flt a NaN = false.
Proof. by destruct a. Qed.

Lemma vdot_nan (v : vec2) : v.1 = NaN \/ v.2 = NaN -> vdot v v = NaN.
Proof.
  destruct v as [a b]. unfold vdot. cbn. intros [->| ->]; cbn; [done|].
  by destruct (fmul a a).
Qed.

Lemma fmaximum_NaN_l a : fmaximum NaN a = NaN.
Proof. done. Qed.

Lemma foldl_fmaximum_NaN l : foldl fmaximum NaN l = NaN.
Proof. induction l as [|x l IH]; cbn; [done|exact IH]. Qed.

(** [numpy.max] of an array that holds a [nan]. *)
Lemma np_max_NaN (a : list float) : NaN ∈ a -> np_max a = Ok NaN.
Proof.
  destruct a as [|x a]; [by rewrite elem_of_nil|]. cbn. intros H. f_equal.
  revert x H. induction a as [|y a IH]; intros x.
  - rewrite list_elem_of_singleton. by intros <-.
  - rewrite elem_of_cons. intros [<-|H]; cbn.
    + apply foldl_fmaximum_NaN.
    + apply elem_of_cons in H as [<-|H].
      * destruct x; cbn; apply foldl_fmaximum_NaN.
      * apply IH. by right.
Qed.

Section Stopping.
Context `{ops : MeshOps}.
Variable get_new_points : rule.
Variable omega : float.
Variable surface : option implicit_surface.
Variable surface_tol : float.

Local Abbreviation pass := (iteration get_new_points omega surface surface_tol).
Local Abbreviation passes_from :=
  (iterations_from get_new_points omega surface surface_tol).
Local Abbreviation passes :=
  (iterations get_new_points omega surface surface_tol).

Lemma is_final_fneg tol maxn k d :
  is_final (fneg tol) maxn k d = is_final tol maxn k d.
Proof. unfold is_final. by rewrite fmul_fneg_self. Qed.

(** X10: the tolerance enters the runner only through its square: with the
    tolerance [-tol] the runner does what it does with [tol]. *)
Theorem runner_tolerance_sign (tol maxn : float) (fuel : nat) (m : mesh) :
  runner get_new_points (fneg tol) maxn omega surface surface_tol fuel m
  = runner get_new_points tol maxn omega surface surface_tol fuel m.
Proof.
  unfold runner. generalize (flip_until_delaunay m) 0. clear m.
  induction fuel as [|fuel IH]; intros m k; cbn; [done|].
  destruct (pass fuel m) as [[d m']| |]; cbn; [|done..].
  rewrite is_final_fneg. destruct (is_final _ _ _ _); [done|apply IH].
Qed.

Lemma is_final_never (tol maxn : float) k d :
  tol = Fin 0 \/ tol = NaN -> maxn = PInf \/ maxn = NaN -> d <> [] ->
  is_final tol maxn k d = false.
Proof.
  intros Htol Hmax Hd. unfold is_final. apply orb_false_iff. split.
  - destruct d as [|v d]; [done|]. unfold np_all, diff_norm_2. cbn.
    destruct Htol as [->| ->].
    + by rewrite flt_square_zero.
    + cbn. by rewrite flt_NaN_r.
  - by destruct Hmax as [->| ->].
Qed.

(** X11: without a stopping rule the runner never returns: with a tolerance
    of 0 (or [nan]) and the cap [inf] (or [nan]) no amount of fuel gives a
    result. *)
Theorem runner_needs_a_stopping_rule (tol maxn : float) :
  tol = Fin 0 \/ tol = NaN -> maxn = PInf \/ maxn = NaN ->
  forall fuel m res,
    runner get_new_points tol maxn omega surface surface_tol fuel m <> Ok res.
Proof.
  intros Htol Hmax fuel m. unfold runner.
  generalize (flip_until_delaunay m) 0. clear m.
  induction fuel as [|fuel IH]; intros m k res; cbn; [done|].
  destruct (pass fuel m) as [[d m']| |]; cbn; [|done..].
  destruct d as [|v d].
  - by destruct (is_final _ _ _ _).
  - rewrite is_final_never by done. apply IH.
Qed.

(** X12: a pass whose displacement holds a [nan] is never final by the
    tolerance; the loop leaves there only through the cap, and then it
    returns [nan] as the largest displacement. *)
Theorem runner_nan_displacement (tol maxn : float) (fuel k : nat)
    (m m' : mesh) (d : list vec2) (i : nat) (v : vec2) :
  pass fuel m = Ok (d, m') ->
  d !! i = Some v -> v.1 = NaN \/ v.2 = NaN ->
  runner_loop get_new_points tol maxn omega surface surface_tol (S fuel) k m
  = if fge (of_nat (S k)) maxn then Ok (S k, NaN, m')
    else runner_loop get_new_points tol maxn omega surface surface_tol
           fuel (S k) m'.
Proof.
  intros Hpass Hi Hv. cbn. rewrite Hpass. cbn.
  assert (Hnan : NaN ∈ diff_norm_2 d).
  { unfold diff_norm_2. apply list_elem_of_fmap. exists v.
    split; [by rewrite vdot_nan|by eapply list_elem_of_lookup_2]. }
  assert (Hall : np_all (map (fun x => flt x (fmul tol tol)) (diff_norm_2 d))
                 = false).
  { unfold np_all. apply not_true_iff_false. rewrite forallb_forall.
    intros H. specialize (H false). apply diff_false_true, H.
    apply list_elem_of_In, list_elem_of_fmap. by exists NaN. }
  unfold is_final. rewrite Hall. cbn.
  destruct (fge _ _); [|done].
  rewrite np_max_NaN; [done|]. apply list_elem_of_fmap. by exists NaN.
Qed.

Lemma iterations_from_fuel f f' j : forall d0 m r,
  passes_from f j d0 m = Ok r -> f <= f' -> passes_from f' j d0 m = Ok r.
Proof.
  induction j as [|j IH]; intros d0 m r; cbn; [done|].
  intros ([d1 m1] & H1 & H)%bind_Ok_inv Hle.
  rewrite (iteration_fuel _ _ _ _ _ _ _ _ H1 Hle), bind_Ok. by apply IH.
Qed.

Lemma runner_loop_returns tol maxn fuel : forall k0 m d0 k r m' F,
  runner_loop get_new_points tol maxn omega surface surface_tol fuel k0 m
  = Ok (k, r, m') ->
  fuel <= F ->
  exists j d,
    k = k0 + S j /\ S j <= fuel
    /\ passes_from F (S j) d0 m = Ok (d, m')
    /\ np_max (map fsqrt (diff_norm_2 d)) = Ok r
    /\ is_final tol maxn k d = true
    /\ forall i di mi, i < j -> passes_from F (S i) d0 m = Ok (di, mi) ->
         is_final tol maxn (k0 + S i) di = false.
Proof.
  induction fuel as [|fuel IH]; intros k0 m d0 k r m' F; cbn; [done|].
  intros ([d1 m1] & H1 & H)%bind_Ok_inv HF. cbn beta iota in H.
  assert (H1F : pass F m = Ok (d1, m1))
    by (eapply iteration_fuel; [done|lia]).
  destruct (is_final tol maxn (S k0) d1) eqn:Hfin.
  - apply bind_Ok_inv in H as (r' & Hr & [= <- <- <-]).
    exists 0, d1. split; [lia|]. split; [lia|]. cbn. rewrite H1F.
    split; [done|]. split; [done|]. split; [done|]. intros i di mi Hi. lia.
  - apply (IH _ _ d1 _ _ _ F) in H as (j & d & -> & Hj & Hit & Hr & Hf & Hnot);
      [|lia].
    exists (S j), d. split; [lia|]. split; [lia|]. split.
    { change (passes_from F (S (S j)) d0 m)
        with ('(d', m') ← pass F m; passes_from F (S j) d' m').
      by rewrite H1F. }
    split; [done|]. split; [done|]. intros [|i] di mi Hi.
    + cbn. rewrite H1F. cbn. intros [= <- <-].
      by replace (k0 + 1) with (S k0) by lia.
    + change (passes_from F (S (S i)) d0 m)
        with ('(d', m') ← pass F m; passes_from F (S i) d' m').
      rewrite H1F, bind_Ok. cbn beta iota. intros Hiti.
      replace (k0 + S (S i)) with (S k0 + S i) by lia.
      apply (Hnot i di mi); [lia|done].
Qed.

(** X13: whenever the runner returns [(k, r)], it has made at least one
    pass, pass [k] was the first one to pass the exit test, the mesh it
    leaves is the mesh after [k] passes, and [r] is the largest displacement
    norm of pass [k]. *)
Theorem runner_returns_first_final_pass (tol maxn : float) (fuel k : nat)
    (r : float) (m0 m' : mesh) :
  runner get_new_points tol maxn omega surface surface_tol fuel m0
  = Ok (k, r, m') ->
  1 <= k <= fuel
  /\ exists d,
       passes fuel k (flip_until_delaunay m0) = Ok (d, m')
       /\ np_max (map fsqrt (diff_norm_2 d)) = Ok r
       /\ is_final tol maxn k d = true
       /\ forall j dj mj, 1 <= j < k ->
            passes fuel j (flip_until_delaunay m0) = Ok (dj, mj) ->
            is_final tol maxn j dj = false.
Proof.
  unfold runner, iterations.
  intros (j & d & -> & Hj & Hit & Hr & Hf & Hnot)%(runner_loop_returns
    _ _ _ _ _ [] _ _ _ fuel); [|done].
  split; [lia|]. exists d. split; [done|]. split; [done|]. split; [done|].
  intros [|i] di mi Hi; [lia|]. apply (Hnot i di mi). lia.
Qed.
End Stopping.

(** ** The boundary step and the optimizer callbacks *)

(** *** Assignment under a boolean mask *)

Lemma length_mask_fill {A} (mask : list bool) : forall (vals a : list A),
  length (mask_fill mask vals a) = length a.
Proof.
  induction mask as [|[] mask IH]; intros vals [|x a]; cbn; try done.
  - destruct vals; cbn; by rewrite IH.
  - by rewrite IH.
Qed.

Lemma mask_fill_false {A} (mask : list bool) : forall (vals a : list A) i,
  mask !! i = Some false -> mask_fill mask vals a !! i = a !! i.
Proof.
  induction mask as [|b mask IH]; intros vals a i; [done|].
  destruct a as [|x a]; [by destruct b|].
  destruct i as [|i]; cbn.
  - by intros [= ->].
  - intros Hi. destruct b; [destruct vals|]; cbn; by apply IH.
Qed.

Lemma select_mask_fill {A} (mask : list bool) : forall (vals a : list A),
  length mask = length a -> length vals = count_true mask ->
  select mask (mask_fill mask vals a) = vals.
Proof.
  unfold select.
  induction mask as [|[] mask IH]; intros vals [|x a]; cbn; try done.
  - intros _ H. symmetry. by apply nil_length_inv.
  - destruct vals as [|v vals]; [done|]. cbn. intros [= Ha] [= Hv].
    f_equal. by apply IH.
  - intros [= Ha] Hv. by apply IH.
Qed.

Lemma mask_assign_inv {A} (mask : list bool) (vals a r : list A) :
  mask_assign mask vals a = Ok r ->
  length mask = length a
  /\ length r = length a
  /\ (forall i, mask !! i = Some false -> r !! i = a !! i)
  /\ (length vals = count_true mask -> select mask r = vals).
Proof.
  unfold mask_assign. case_decide as Hlen; [|done].
  case_decide as Hv.
  - intros [= <-]. split; [done|]. split; [apply length_mask_fill|].
    split; [intros i; apply mask_fill_false|]. intros _.
    by apply select_mask_fill.
  - destruct vals as [|v [|]]; try done. intros [= <-]. split; [done|].
    split; [rewrite length_zip_with; lia|]. split; [|done].
    intros i Hi. rewrite lookup_zip_with, Hi. cbn. by destruct (a !! i).
Qed.

Lemma mask_assign_Ok {A} (mask : list bool) (vals a : list A) :
  length mask = length a -> length vals = count_true mask ->
  mask_assign mask vals a = Ok (mask_fill mask vals a).
Proof. intros H1 H2. unfold mask_assign. by rewrite !decide_True. Qed.

Lemma mask_fill_select_same {A} (mask : list bool) : forall a : list A,
  length mask = length a -> mask_fill mask (select mask a) a = a.
Proof.
  unfold select.
  induction mask as [|[] mask IH]; intros [|x a]; cbn; try done;
    intros [= H]; f_equal; by apply IH.
Qed.

(** X14: the last step of both fixed-point rules replaces rows of boundary
    points only: the candidate of every other point is what the averaging
    step returned.  Without [boundary_step] the boundary rows are the current
    points; with it they are, in order, the rows it returns for the boundary
    candidates. *)
Theorem place_boundary_spec (boundary_step : option boundary_step_fn)
    (m : mesh) (X0 X : list vec2) :
  place_boundary boundary_step m X0 = Ok X ->
  let idx := is_boundary_point m in
  length X = length X0
  /\ length idx = length X0
  /\ (forall i, idx !! i = Some false -> X !! i = X0 !! i)
  /\ match boundary_step with
     | None => select idx X = select idx (points m)
     | Some bs =>
         length (bs (select idx X0)) = count_true idx ->
         select idx X = bs (select idx X0)
     end.
Proof.
  intros H. cbn zeta. unfold place_boundary in H.
  set (idx := is_boundary_point m) in *.
  destruct boundary_step as [bs|].
  - apply bind_Ok_inv in H as (v & [Hlen ->]%mask_select_Ok_inv & H).
    apply mask_assign_inv in H as (_ & Hl & Hfalse & Hsel). by repeat split.
  - apply bind_Ok_inv in H as (v & [Hlen ->]%mask_select_Ok_inv & H).
    apply mask_assign_inv in H as (Hm & Hl & Hfalse & Hsel).
    repeat split; try done. apply Hsel. by apply length_mask_select.
Qed.

(** X15: the writes of the optimizer callbacks touch the rows of interior
    points only: after [flip_delaunay(x)], and after [jac(x)], the mesh has
    as many points as before, every row that is not interior is unchanged,
    and the interior rows are, in order, the rows of [x]. *)
Theorem optimizer_writes_interior_rows `{ops : MeshOps} {laws : MeshLaws ops}
    (m : mesh) (x : list float) (xr : list vec2) :
  let idx := is_interior_point m in
  let written m' :=
    length (points m') = length (points m)
    /\ (forall i, idx !! i = Some false -> points m' !! i = points m !! i)
    /\ select idx (points m') = xr in
  reshape2 x = Ok xr ->
  length idx = length (points m) ->
  length xr = count_true idx ->
  (exists m', flip_delaunay m x = Ok m' /\ written m')
  /\ (forall g m', jac m x = Ok (g, m') -> written m').
Proof.
  intros idx written Hx Hidx Hxr.
  pose proof (mask_assign_Ok idx xr (points m) Hidx Hxr) as Hassign.
  assert (Hw : forall m', points m' = mask_fill idx xr (points m) -> written m').
  { intros m' Hm'. unfold written. rewrite Hm'.
    split; [apply length_mask_fill|].
    split; [intros i; apply mask_fill_false|]. by apply select_mask_fill. }
  split.
  - unfold flip_delaunay. fold idx. rewrite Hx, bind_Ok, Hassign, bind_Ok.
    eexists. split; [done|]. apply Hw.
    by rewrite flip_points, update_values_points.
  - intros g m'. unfold jac. fold idx. rewrite Hx, bind_Ok, Hassign, bind_Ok.
    cbn zeta. intros (grad & _ & H)%bind_Ok_inv.
    apply bind_Ok_inv in H as (sel & _ & [= _ <-]).
    apply Hw. by rewrite update_values_points.
Qed.

(** X16: the start vector [x0] holds the interior rows of the input: written
    back by [flip_delaunay] it leaves every point where it was. *)
Theorem x0_round_trip `{ops : MeshOps} {laws : MeshLaws ops}
    (X : list vec2) (cs : list cell) :
  let m := MeshTri X cs in
  length (is_interior_point m) = length X ->
  exists x m',
    x0 X cs = Ok x
    /\ reshape2 x = Ok (select (is_interior_point m) X)
    /\ flip_delaunay m x = Ok m'
    /\ points m' = X.
Proof.
  intros m Hlen. set (idx := is_interior_point m) in *.
  assert (HX : points m = X) by apply MeshTri_points.
  exists (flatten2 (select idx X)),
         (flip_until_delaunay (update_values (set_points m X))).
  split; [|split; [apply reshape2_flatten2|split]].
  - unfold x0. fold m idx. by rewrite mask_select_Ok.
  - unfold flip_delaunay. fold idx.
    rewrite reshape2_flatten2, bind_Ok, HX.
    rewrite mask_assign_Ok, bind_Ok by (by rewrite ?length_mask_select).
    by rewrite mask_fill_select_same.
  - by rewrite flip_points, update_values_points.
Qed.

Lemma reshape2_odd : forall x, Nat.odd (length x) = true ->
  reshape2 x = Raise ValueError.
Proof.
  intros x. induction x as [x IH] using (induction_ltof1 _ length).
  unfold ltof in IH. destruct x as [|a [|b x]]; cbn; [done|done|].
  rewrite Nat.odd_succ_succ. intros H. rewrite IH; [done|cbn; lia|done].
Qed.

Lemma reshape2_length x xr : reshape2 x = Ok xr -> length x = 2 * length xr.
Proof.
  revert xr. induction x as [x IH] using (induction_ltof1 _ length).
  unfold ltof in IH. destruct x as [|a [|b x]]; intros xr; cbn.
  - by intros [= <-].
  - done.
  - intros (r & Hr & [= <-])%bind_Ok_inv. apply IH in Hr; cbn; lia.
Qed.

(** X17: [jac(x)] raises [ValueError] on an [x] of odd length and on an [x]
    that holds neither one row per interior point nor a single row, and
    [IndexError] when the mask of interior points does not have the length of
    the point array. *)
Theorem jac_shape_errors `{ops : MeshOps} (m : mesh) (x : list float) :
  (Nat.odd (length x) = true -> jac m x = Raise ValueError)
  /\ (forall xr, reshape2 x = Ok xr ->
        length (is_interior_point m) <> length (points m) ->
        jac m x = Raise IndexError)
  /\ (forall xr, reshape2 x = Ok xr ->
        length (is_interior_point m) = length (points m) ->
        length xr <> count_true (is_interior_point m) ->
        length xr <> 1 ->
        jac m x = Raise ValueError).
Proof.
  unfold jac. split; [|split].
  - intros H. by rewrite reshape2_odd.
  - intros xr -> H. rewrite bind_Ok. unfold mask_assign.
    by rewrite decide_False.
  - intros xr -> Hm Hc H1. rewrite bind_Ok. unfold mask_assign.
    rewrite decide_True, decide_False by done.
    by destruct xr as [|v [|]].
Qed.

(** X18: the two fixed-point rules hand the same reference points to the
    averaging step exactly on the cells where "has a boundary edge" and "has
    exactly two boundary corners" agree; they hand the same array when the
    two agree on every cell. *)
Theorem fixed_point_references_agree (m : mesh)
    (flags : list (bool * bool * bool)) :
  let two_corners k :=
    exists f, flags !! k = Some f
              /\ Nat.b2n f.1.1 + Nat.b2n f.1.2 + Nat.b2n f.2 = 2 in
  take_cells (cells m) (is_boundary_point m) = Ok flags ->
  length (cell_barycenters m) = length (cells m) ->
  length (cell_circumcenters m) = length (cells m) ->
  Forall (fun i => i < length (cells m)) (boundary_edges_cells m) ->
  exists ref_uniform ref_density m',
    FixedPointUniform.reference m = Ok (ref_uniform, m')
    /\ FixedPointDensityPreserving.reference m = Ok ref_density
    /\ length ref_uniform = length (cells m)
    /\ length ref_density = length (cells m)
    /\ (forall k, k < length (cells m) ->
          (k ∈ boundary_edges_cells m <-> two_corners k) ->
          ref_uniform !! k = ref_density !! k)
    /\ ((forall k, k < length (cells m) ->
           (k ∈ boundary_edges_cells m <-> two_corners k)) ->
        ref_uniform = ref_density).
Proof.
  intros two_corners Hflags Hbc Hcc Hids.
  destruct (reference_uniform_spec m) as (ru & Hru & Hlen_u & Hu);
    [by rewrite Hbc|by rewrite Hcc|].
  pose proof (reference_density_preserving_spec m flags Hflags Hbc Hcc) as Hrd.
  pose proof (take_cells_length _ _ _ Hflags) as Hfl.
  eexists ru, _, _. split; [exact Hru|]. split; [exact Hrd|].
  split; [lia|].
  assert (Hlen_d : length (zip_with
            (fun (f : bool * bool * bool) (r : vec2 * vec2) =>
               if bool_decide (Nat.b2n f.1.1 + Nat.b2n f.1.2 + Nat.b2n f.2 = 2)
               then r.1 else r.2)
            flags (zip (cell_barycenters m) (cell_circumcenters m)))
          = length (cells m)).
  { rewrite !length_zip_with. lia. }
  split; [done|].
  assert (Hk : forall k, k < length (cells m) ->
            (k ∈ boundary_edges_cells m <-> two_corners k) ->
            ru !! k = zip_with
              (fun (f : bool * bool * bool) (r : vec2 * vec2) =>
                 if bool_decide (Nat.b2n f.1.1 + Nat.b2n f.1.2 + Nat.b2n f.2 = 2)
                 then r.1 else r.2)
              flags (zip (cell_barycenters m) (cell_circumcenters m)) !! k).
  { intros k Hlt Hiff. rewrite Hu, lookup_zip_with, lookup_zip_with.
    destruct (lookup_lt_is_Some_2 flags k) as [f Hf]; [lia|].
    destruct (lookup_lt_is_Some_2 (cell_barycenters m) k) as [b Hb]; [lia|].
    destruct (lookup_lt_is_Some_2 (cell_circumcenters m) k) as [c Hc]; [lia|].
    rewrite Hf, Hb, Hc. cbn.
    case_decide as Hin; case_bool_decide as Htwo; try done.
    - destruct Htwo. apply Hiff in Hin as (f' & Hf' & H2). congruence.
    - destruct Hin. apply Hiff. by exists f. }
  split; [done|]. intros Hall.
  apply list_eq_same_length with (length (cells m)); [done|lia|].
  intros k a b Hlt Ha Hb. specialize (Hk k Hlt (Hall k Hlt)). congruence.
Qed.

(** ** Further properties on concrete meshes *)

Lemma get_new_points_averaged_shape_errors_witness :
  get_new_points_averaged single_triangle_mesh [] None = Raise ValueError
  /\ get_new_points_averaged short_mesh [vfin (1 / 3, 1 / 3)%R] None
     = Raise ValueError
  /\ get_new_points_averaged no_cell_mesh [vfin (1 / 3, 1 / 3)%R] None
     = Ok (replicate 3 (NaN, NaN)).
Proof.
  split; [|split].
  - apply (proj1 (get_new_points_averaged_shape_errors single_triangle_mesh [])).
    + done.
    + cbn. lia.
  - apply (proj1 (proj2 (get_new_points_averaged_shape_errors short_mesh
                           [vfin (1 / 3, 1 / 3)%R]))).
    + reflexivity.
    + cbn. lia.
    + intros H. apply Forall_inv in H. cbn in H. lia.
  - apply (proj2 (proj2 (get_new_points_averaged_shape_errors no_cell_mesh
                           [vfin (1 / 3, 1 / 3)%R]))).
    reflexivity.
Defined.

Lemma single_triangle_weight_sums p :
  p < 3 -> star_sum p [(0, 1, 2)] [(1 / 2)%R] <> 0%R.
Proof.
  intros Hp. destruct p as [|[|[|p]]]; [| | |lia].
  all: cbn; eval_incidence; change (INR 1) with 1%R; lra.
Qed.

Lemma get_new_points_averaged_affine_witness :
  exists X : list (R * R),
    get_new_points_averaged single_triangle_mesh
      (map vfin [(1 / 3, 1 / 3)%R])
      (fmap (M:=option) (map Fin) (Some [(1 / 2)%R])) = Ok (map vfin X)
    /\ get_new_points_averaged single_triangle_mesh
         (map vfin (translate (3, 4)%R [(1 / 3, 1 / 3)%R]))
         (fmap (M:=option) (map Fin)
            (fmap (M:=option) (map (Rmult 2)) (Some [(1 / 2)%R])))
       = Ok (map vfin (translate (3, 4)%R X)).
Proof.
  apply (get_new_points_averaged_affine single_triangle_mesh
           [(1 / 3, 1 / 3)%R] (Some [(1 / 2)%R]) 2 (3, 4)%R).
  - exact single_triangle_in_range.
  - reflexivity.
  - reflexivity.
  - exact single_triangle_weight_sums.
  - lra.
Defined.

Lemma get_new_points_averaged_consensus_witness :
  exists X,
    get_new_points_averaged single_triangle_mesh
      (map vfin [(1 / 3, 1 / 3)%R])
      (fmap (M:=option) (map Fin) (Some [(1 / 2)%R])) = Ok X
    /\ X !! 0 = Some (vfin (1 / 3, 1 / 3)%R).
Proof.
  apply (get_new_points_averaged_consensus single_triangle_mesh
           [(1 / 3, 1 / 3)%R] (Some [(1 / 2)%R]) 0 (1 / 3, 1 / 3)%R).
  - exact single_triangle_in_range.
  - reflexivity.
  - reflexivity.
  - exact single_triangle_weight_sums.
  - cbn. lia.
  - by repeat constructor.
Defined.

Lemma runner_needs_a_stopping_rule_witness :
  (Fin 0 = Fin 0 \/ Fin 0 = NaN)
  /\ forall fuel m res,
       runner (ops := rest_ops single_triangle_mesh) (odt_rule true None)
         (Fin 0) PInf (Fin 1) None (Fin (1 / 10000000000)) fuel m <> Ok res.
Proof.
  split; [by left|].
  apply (runner_needs_a_stopping_rule (ops := rest_ops single_triangle_mesh)
           (odt_rule true None) (Fin 1) None (Fin (1 / 10000000000))
           (Fin 0) PInf).
  - by left.
  - by left.
Defined.

(** A pass on the mesh with an isolated point. *)
Lemma isolated_point_rule :
  odt_rule false None isolated_point_mesh
  = Ok ([vfin (0, 0); vfin (1, 0); vfin (0, 1); (NaN, NaN)]%R,
        isolated_point_mesh).
Proof.
  unfold odt_rule, FixedPointDensityPreserving.get_new_points,
    FixedPointDensityPreserving.reference,
    FixedPointDensityPreserving.is_boundary_cell,
    get_new_points_averaged, add_bincounts,
    add_bincount, place_boundary, mask_select, mask_assign, inplace,
    broadcast, bincount, vdivs, vadd, fdiv, inf_of_sign, of_nat.
  by np_eval.
Qed.

Lemma isolated_point_iteration surface_tol fuel :
  iteration (ops := rest_ops isolated_point_mesh) (odt_rule false None)
    (Fin 1) None surface_tol fuel isolated_point_mesh
  = Ok ([vzero; vzero; vzero; (NaN, NaN)], isolated_point_lost).
Proof.
  unfold iteration, displacement.
  rewrite isolated_point_rule, !bind_Ok. cbn beta iota zeta.
  rewrite broadcast_same, bind_Ok by done.
  rewrite (max_step_real isolated_point_mesh [(1 - sqrt 2 / 2)%R]), bind_Ok
    by (first [done | by repeat constructor]).
  rewrite clamp_rows, !bind_Ok by done.
  cbn [points isolated_point_mesh zip_with fmap list_fmap length seq].
  rewrite !vscale_vsub_self by (by split).
  assert (Hb : forall p, not_negative
            (to_float (step_bound p (cells isolated_point_mesh)
                         [(1 - sqrt 2 / 2)%R]))).
  { intros p. destruct (step_bound _ _ _) as [b|] eqn:E; cbn; [|done].
    apply bool_decide_eq_false. apply step_bound_nonneg in E; [lra|].
    constructor; [|constructor]. pose proof sqrt2_bounds. lra. }
  rewrite !clamp_row_zero by apply Hb.
  assert (Hlast : clamp_row (vscale (Fin 1) (vsub (NaN, NaN) (vfin (5, 5)%R)))
                    (to_float (step_bound 3 (cells isolated_point_mesh)
                                 [(1 - sqrt 2 / 2)%R]))
                  = (NaN, NaN)) by done.
  rewrite Hlast. cbn beta iota zeta.
  rewrite inplace_same, bind_Ok by done. cbn [zip_with].
  rewrite !vadd_vzero by (by split). done.
Qed.

Lemma runner_nan_displacement_witness :
  runner_loop (ops := rest_ops isolated_point_mesh) (odt_rule false None)
    (Fin (1 / 1000)) (of_nat 1) (Fin 1) None (Fin (1 / 10000000000)) 1 0
    isolated_point_mesh
  = if fge (of_nat 1) (of_nat 1) then Ok (1, NaN, isolated_point_lost)
    else runner_loop (ops := rest_ops isolated_point_mesh)
           (odt_rule false None) (Fin (1 / 1000)) (of_nat 1) (Fin 1) None
           (Fin (1 / 10000000000)) 0 1 isolated_point_lost.
Proof.
  apply (runner_nan_displacement (ops := rest_ops isolated_point_mesh)
           (odt_rule false None) (Fin 1) None (Fin (1 / 10000000000))
           (Fin (1 / 1000)) (of_nat 1) 0 0 isolated_point_mesh
           isolated_point_lost [vzero; vzero; vzero; (NaN, NaN)] 3 (NaN, NaN)).
  - apply isolated_point_iteration.
  - reflexivity.
  - by left.
Defined.

(** Two passes on the mesh of one triangle with the cap 2. *)
Lemma single_triangle_run :
  runner (ops := rest_ops single_triangle_mesh) (odt_rule true None)
    (Fin 0) (of_nat 2) (Fin 1) None (Fin (1 / 10000000000)) 2
    single_triangle_mesh
  = Ok (2, Fin 0, triangle_at_rest).
Proof.
  unfold runner.
  destruct (single_triangle_iteration (Fin (1 / 10000000000)) 1) as [H1 _].
  destruct (single_triangle_iteration (Fin (1 / 10000000000)) 0) as [_ H0].
  cbn zeta in H1, H0.
  rewrite (runner_loop_step _ _ _ _ _ _ _ _ _ _ _ H1).
  rewrite is_final_tol_zero, fge_of_nat by done.
  rewrite bool_decide_eq_false_2 by lia.
  rewrite (runner_loop_step _ _ _ _ _ _ _ _ _ _ _ H0).
  rewrite is_final_tol_zero, fge_of_nat by done.
  rewrite bool_decide_eq_true_2 by lia.
  by rewrite max_norm_zeros.
Qed.

Lemma runner_returns_first_final_pass_witness :
  1 <= 2 <= 2
  /\ exists d,
       iterations (ops := rest_ops single_triangle_mesh) (odt_rule true None)
         (Fin 1) None (Fin (1 / 10000000000)) 2 2 single_triangle_mesh
       = Ok (d, triangle_at_rest)
       /\ np_max (map fsqrt (diff_norm_2 d)) = Ok (Fin 0)
       /\ is_final (Fin 0) (of_nat 2) 2 d = true
       /\ forall j dj mj, 1 <= j < 2 ->
            iterations (ops := rest_ops single_triangle_mesh)
              (odt_rule true None) (Fin 1) None (Fin (1 / 10000000000)) 2 j
              single_triangle_mesh = Ok (dj, mj) ->
            is_final (Fin 0) (of_nat 2) j dj = false.
Proof.
  apply (runner_returns_first_final_pass
           (ops := rest_ops single_triangle_mesh) (odt_rule true None)
           (Fin 1) None (Fin (1 / 10000000000)) (Fin 0) (of_nat 2) 2 2
           (Fin 0) single_triangle_mesh triangle_at_rest).
  exact single_triangle_run.
Defined.

Lemma place_boundary_spec_witness :
  let X0 := map vfin [(2, 2); (2, 2); (2, 2); (2, 2); (2 / 5, 3 / 5)]%R in
  let X := map vfin [(0, 0); (1, 0); (1, 1); (0, 1); (2 / 5, 3 / 5)]%R in
  let idx := is_boundary_point square_mesh in
  length X = length X0
  /\ length idx = length X0
  /\ (forall i, idx !! i = Some false -> X !! i = X0 !! i)
  /\ select idx X = select idx (points square_mesh).
Proof.
  intros X0 X.
  apply (place_boundary_spec None square_mesh X0 X). reflexivity.
Defined.

Lemma optimizer_writes_interior_rows_witness :
  let x := [Fin (2 / 5); Fin (3 / 5)] in
  let idx := is_interior_point square_mesh in
  let written m' :=
    length (points m') = length (points square_mesh)
    /\ (forall i, idx !! i = Some false ->
                  points m' !! i = points square_mesh !! i)
    /\ select idx (points m') = [(Fin (2 / 5), Fin (3 / 5))] in
  (exists m', flip_delaunay (ops := rest_ops square_mesh) square_mesh x = Ok m'
              /\ written m')
  /\ (forall g m', jac (ops := rest_ops square_mesh) square_mesh x
                   = Ok (g, m') -> written m').
Proof.
  intros x.
  apply (optimizer_writes_interior_rows (ops := rest_ops square_mesh)
           (laws := rest_laws square_mesh) square_mesh x
           [(Fin (2 / 5), Fin (3 / 5))]).
  - reflexivity.
  - reflexivity.
  - reflexivity.
Defined.

Lemma x0_round_trip_witness :
  exists x m',
    x0 (ops := rest_ops square_mesh) (points square_mesh) (cells square_mesh)
    = Ok x
    /\ reshape2 x
       = Ok (select (is_interior_point square_mesh) (points square_mesh))
    /\ flip_delaunay (ops := rest_ops square_mesh) square_mesh x = Ok m'
    /\ points m' = points square_mesh.
Proof.
  apply (x0_round_trip (ops := rest_ops square_mesh)
           (laws := rest_laws square_mesh) (points square_mesh)
           (cells square_mesh)).
  reflexivity.
Defined.

Lemma jac_shape_errors_witness :
  jac (ops := rest_ops square_mesh) square_mesh [Fin 1] = Raise ValueError.
Proof.
  apply (proj1 (jac_shape_errors (ops := rest_ops square_mesh) square_mesh
                  [Fin 1])).
  reflexivity.
Defined.

Lemma fixed_point_references_agree_witness :
  exists ref_uniform ref_density m',
    FixedPointUniform.reference square_mesh = Ok (ref_uniform, m')
    /\ FixedPointDensityPreserving.reference square_mesh = Ok ref_density
    /\ length ref_uniform = 4
    /\ length ref_density = 4
    /\ (forall k, k < 4 ->
          (k ∈ [0; 1; 2; 3]
           <-> exists f, [(true, true, false); (true, true, false);
                          (true, true, false); (true, true, false)] !! k
                         = Some f
                         /\ Nat.b2n f.1.1 + Nat.b2n f.1.2 + Nat.b2n f.2 = 2) ->
          ref_uniform !! k = ref_density !! k)
    /\ ((forall k, k < 4 ->
           (k ∈ [0; 1; 2; 3]
            <-> exists f, [(true, true, false); (true, true, false);
                           (true, true, false); (true, true, false)] !! k
                          = Some f
                          /\ Nat.b2n f.1.1 + Nat.b2n f.1.2 + Nat.b2n f.2 = 2)) ->
        ref_uniform = ref_density).
Proof.
  apply (fixed_point_references_agree square_mesh
           [(true, true, false); (true, true, false); (true, true, false);
            (true, true, false)]).
  - reflexivity.
  - reflexivity.
  - reflexivity.
  - repeat constructor.
Defined.

(** ** The command line *)

(** X19: [main] passes [verbose=~args.quiet], and [~] of a Python [bool] is
    -1 or -2: the methods are verbose whether or not [--quiet] is given. *)
Theorem main_quiet_has_no_effect (quiet : bool) : main_verbose quiet = true.
Proof. by destruct quiet. Qed.

(** ** The steps composed: averaging, reference points and pruning *)

Lemma star_sum_nonneg p : forall cs ws,
  Forall (fun w => 0 <= w)%R ws -> (0 <= star_sum p cs ws)%R.
Proof.
  induction cs as [|c cs IH]; intros ws Hws; cbn; [lra|].
  destruct Hws as [|w ws Hw Hws]; [lra|].
  pose proof (pos_INR (incidence p c)). specialize (IH _ Hws). nra.
Qed.

Lemma star_sum_halfplane p (a b bound : R) : forall cs ref ws,
  Forall2 (fun (c : cell) (rc : R * R) =>
             0 < incidence p c -> (a * rc.1 + b * rc.2 <= bound)%R) cs ref ->
  Forall (fun w => 0 <= w)%R ws ->
  (a * star_sum p cs (zip_with (fun w (rc : R * R) => w * rc.1) ws ref)
   + b * star_sum p cs (zip_with (fun w (rc : R * R) => w * rc.2) ws ref)
   <= bound * star_sum p cs ws)%R.
Proof.
  intros cs ref ws H. revert ws.
  induction H as [|c rc cs ref Hc _ IH]; intros ws Hws; cbn.
  - destruct ws; cbn; lra.
  - destruct Hws as [|w ws Hw Hws]; cbn; [lra|].
    specialize (IH _ Hws).
    destruct (decide (0 < incidence p c)) as [Hpos|Hzero].
    + specialize (Hc Hpos). pose proof (pos_INR (incidence p c)) as Hi.
      assert (0 <= INR (incidence p c) * w)%R by nra.
      nra.
    + replace (incidence p c) with 0 by lia. cbn. lra.
Qed.

(** X20: in exact arithmetic, with weights that are not negative, a point
    goes into the convex hull of the reference points of its incident cells:
    every half-plane that holds those reference points holds the new
    point. *)
Theorem get_new_points_averaged_convex (m : mesh) (ref : list (R * R))
    (weights : option (list R)) (p : nat) (a b bound : R) :
  let n := length (points m) in
  let cs := cells m in
  let ws := default (replicate (length cs) 1%R) weights in
  cells_in_range n cs ->
  length ref = length cs ->
  length ws = length cs ->
  Forall (fun w => 0 <= w)%R ws ->
  (forall q, q < n -> star_sum q cs ws <> 0%R) ->
  p < n ->
  Forall2 (fun (c : cell) (rc : R * R) =>
             0 < incidence p c -> (a * rc.1 + b * rc.2 <= bound)%R) cs ref ->
  exists (X : list (R * R)) (x : R * R),
    get_new_points_averaged m (map vfin ref)
      (fmap (M:=option) (map Fin) weights) = Ok (map vfin X)
    /\ X !! p = Some x
    /\ (a * x.1 + b * x.2 <= bound)%R.
Proof.
  intros n cs ws Hcs Href Hws Hnn Hsum Hp Hhalf.
  exists (map (averaged_spec cs ref ws) (seq 0 n)), (averaged_spec cs ref ws p).
  split; [by apply get_new_points_averaged_nonzero|].
  split; [by rewrite list_lookup_fmap, lookup_seq_lt|].
  pose proof (star_sum_halfplane p a b bound cs ref ws Hhalf Hnn) as Hle.
  pose proof (star_sum_nonneg p cs ws Hnn) as Hge.
  specialize (Hsum _ Hp).
  assert (Hpos : (0 < star_sum p cs ws)%R) by lra.
  unfold averaged_spec. cbn [fst snd].
  set (S0 := star_sum p cs ws) in *.
  set (S1 := star_sum p cs (zip_with (fun w (r : R * R) => w * r.1)%R ws ref))
    in *.
  set (S2 := star_sum p cs (zip_with (fun w (r : R * R) => w * r.2)%R ws ref))
    in *.
  apply (Rmult_le_reg_r S0); [done|].
  replace ((a * (S1 / S0) + b * (S2 / S0)) * S0)%R with (a * S1 + b * S2)%R
    by (field; lra).
  lra.
Qed.

Lemma take_cells_in_range {A} cs (a : list A) :
  cells_in_range (length a) cs -> exists v, take_cells cs a = Ok v.
Proof.
  induction 1 as [|c cs (H1 & H2 & H3) _ [v Hv]]; cbn; [by eexists|].
  destruct (lookup_lt_is_Some_2 a _ H1) as [x ->].
  destruct (lookup_lt_is_Some_2 a _ H2) as [y ->].
  destruct (lookup_lt_is_Some_2 a _ H3) as [z ->].
  rewrite Hv. by eexists.
Qed.

Lemma lookup_reference_spec s bc cc ncells k :
  k < ncells ->
  reference_spec s bc cc ncells !! k
  = Some (if s k then point_at bc k else point_at cc k).
Proof.
  intros Hk. unfold reference_spec. by rewrite list_lookup_fmap, lookup_seq_lt.
Qed.

Lemma length_reference_spec s bc cc ncells :
  length (reference_spec s bc cc ncells) = ncells.
Proof. unfold reference_spec. by rewrite length_fmap, length_seq. Qed.

Lemma lookup_vfin_point_at (P : list (R * R)) k :
  k < length P -> map vfin P !! k = Some (vfin (point_at P k)).
Proof.
  intros Hk. destruct (lookup_lt_is_Some_2 _ _ Hk) as [x Hx].
  unfold point_at. by rewrite list_lookup_fmap, Hx.
Qed.

(** The averaging step followed by the reset of the boundary points. *)
Lemma averaged_then_boundary (m : mesh) (ref : list (R * R))
    (weights : option (list R)) :
  let n := length (points m) in
  let cs := cells m in
  let ws := default (replicate (length cs) 1%R) weights in
  cells_in_range n cs ->
  length ref = length cs ->
  length ws = length cs ->
  (forall p, p < n -> star_sum p cs ws <> 0%R) ->
  length (is_boundary_point m) = n ->
  exists X0 X,
    get_new_points_averaged m (map vfin ref)
      (fmap (M:=option) (map Fin) weights) = Ok X0
    /\ place_boundary None m X0 = Ok X
    /\ length X = n
    /\ forall p, p < n ->
         X !! p = if default false (is_boundary_point m !! p)
                  then points m !! p
                  else Some (vfin (averaged_spec cs ref ws p)).
Proof.
  intros n cs ws Hcs Href Hws Hsum Hbp.
  eexists _, _. split; [by apply get_new_points_averaged_nonzero|].
  fold n cs ws. set (X0 := map vfin _).
  assert (HX0 : length X0 = n)
    by (unfold X0; by rewrite !length_fmap, length_seq).
  unfold place_boundary. rewrite mask_assign_select by (unfold n in *; congruence).
  split; [done|]. split.
  - rewrite length_zip_with, length_zip_with, Hbp, !length_fmap, length_seq.
    unfold n. lia.
  - intros p Hp. rewrite lookup_zip_with, lookup_zip_with.
    destruct (lookup_lt_is_Some_2 (is_boundary_point m) p) as [b Hb]; [lia|].
    destruct (lookup_lt_is_Some_2 (points m) p) as [x Hx]; [done|].
    rewrite Hb, Hx. cbn. unfold X0.
    rewrite !list_lookup_fmap, lookup_seq_lt by done. cbn. by destruct b.
Qed.

(** X21: what the two fixed-point rules compute on real data: every boundary
    point stays where it is, and every other point goes to the weighted mean
    of the reference points of its incident cells, where the reference point
    of a cell is its circumcenter, or its barycenter when the cell owns a
    boundary edge (uniform rule) or has exactly two boundary corners
    (density-preserving rule), and the weights are the cell volumes (uniform
    rule) or 1 (density-preserving rule). *)
Theorem odt_rule_candidates (uniform_density : bool) (m : mesh)
    (bc cc : list (R * R)) (vol : list R) :
  let n := length (points m) in
  let cs := cells m in
  let weights := if uniform_density then Some vol else None in
  let ws := default (replicate (length cs) 1%R) weights in
  let ref := reference_spec (substituted uniform_density m) bc cc (length cs) in
  cell_barycenters m = map vfin bc ->
  cell_circumcenters m = map vfin cc ->
  cell_volumes m = map Fin vol ->
  length bc = length cs -> length cc = length cs -> length vol = length cs ->
  cells_in_range n cs ->
  length (is_boundary_point m) = n ->
  Forall (fun k => k < length cs) (boundary_edges_cells m) ->
  (forall p, p < n -> star_sum p cs ws <> 0%R) ->
  exists X,
    odt_rule uniform_density None m
    = Ok (X, if uniform_density then set_cell_circumcenters m (map vfin ref)
             else m)
    /\ length X = n
    /\ forall p, p < n ->
         X !! p = if default false (is_boundary_point m !! p)
                  then points m !! p
                  else Some (vfin (averaged_spec cs ref ws p)).
Proof.
  intros n cs weights ws ref Hbc Hcc Hvol Lbc Lcc Lvol Hcs Hbp Hids Hsum.
  assert (Lws : length ws = length cs).
  { unfold ws, weights. destruct uniform_density; cbn; [done|].
    by rewrite length_replicate. }
  assert (Lref : length ref = length cs) by apply length_reference_spec.
  destruct uniform_density; unfold odt_rule.
  - destruct (reference_uniform_spec m) as (cc' & Hru & Hlen & Hlook).
    { by rewrite Hbc, length_fmap, Lbc. }
    { by rewrite Hcc, length_fmap, Lcc. }
    assert (Hcc' : cc' = map vfin ref).
    { apply list_eq. intros k. rewrite Hlook, Hbc, Hcc.
      destruct (decide (k < length cs)) as [Hk|Hk].
      - unfold ref.
        rewrite (list_lookup_fmap vfin (reference_spec _ _ _ _)),
          lookup_reference_spec by done.
        unfold substituted. cbn [option_fmap fmap option_map].
        rewrite !lookup_vfin_point_at by lia.
        case_decide; [by rewrite bool_decide_eq_true_2|
                      by rewrite bool_decide_eq_false_2].
      - rewrite !lookup_ge_None_2 by (rewrite ?length_fmap; lia).
        by case_decide. }
    subst cc'.
    destruct (averaged_then_boundary (set_cell_circumcenters m (map vfin ref))
                ref (Some vol)) as (X0 & X & HX0 & HX & HlenX & Hrows);
      try done.
    exists X. unfold FixedPointUniform.get_new_points.
    rewrite Hru, bind_Ok. cbn beta iota.
    change (cell_volumes (set_cell_circumcenters m (map vfin ref)))
      with (cell_volumes m).
    rewrite Hvol. cbn [fmap option_fmap option_map] in HX0.
    rewrite HX0, bind_Ok, HX, bind_Ok. done.
  - destruct (take_cells_in_range cs (is_boundary_point m)) as [flags Hflags].
    { by rewrite Hbp. }
    pose proof (reference_density_preserving_spec m flags Hflags) as Hrd.
    rewrite Hbc, Hcc, !length_fmap in Hrd. specialize (Hrd Lbc Lcc).
    pose proof (take_cells_length _ _ _ Hflags) as Lflags.
    pose proof (take_cells_Ok_inv _ _ _ Hflags) as Hfl.
    assert (Href : zip_with
              (fun (f : bool * bool * bool) (r : vec2 * vec2) =>
                 if bool_decide (Nat.b2n f.1.1 + Nat.b2n f.1.2 + Nat.b2n f.2 = 2)
                 then r.1 else r.2)
              flags (zip (map vfin bc) (map vfin cc)) = map vfin ref).
    { apply list_eq. intros k.
      destruct (decide (k < length cs)) as [Hk|Hk].
      - unfold ref.
        rewrite (list_lookup_fmap vfin (reference_spec _ _ _ _)),
          lookup_reference_spec by done.
        rewrite lookup_zip_with, lookup_zip_with.
        destruct (lookup_lt_is_Some_2 flags k) as [f Hf]; [fold cs in Lflags; lia|].
        destruct (lookup_lt_is_Some_2 cs k) as [c Hc]; [done|].
        destruct (Forall2_lookup_lr _ _ _ _ _ _ Hfl Hc Hf) as (H1 & H2 & H3).
        unfold substituted, two_boundary_corners. unfold cs in Hc.
        rewrite Hc, H1, H2, H3, Hf, !lookup_vfin_point_at by lia. cbn.
        by case_bool_decide.
      - rewrite !lookup_ge_None_2; [done|..].
        + rewrite length_fmap. fold cs in Lref. lia.
        + rewrite length_zip_with. fold cs in Lflags. lia. }
    rewrite Href in Hrd.
    destruct (averaged_then_boundary m ref None)
      as (X0 & X & HX0 & HX & HlenX & Hrows); try done.
    exists X. unfold FixedPointDensityPreserving.get_new_points.
    rewrite Hrd, bind_Ok. cbn [fmap option_fmap option_map] in HX0.
    rewrite HX0, bind_Ok, HX, bind_Ok. done.
Qed.





(** ** The composed steps on concrete meshes *)

Lemma square_weight_sums (w : R) p :
  (0 < w)%R -> p < 5 ->
  star_sum p [(0, 1, 4); (1, 2, 4); (2, 3, 4); (3, 0, 4)] [w; w; w; w] <> 0%R.
Proof.
  intros Hw Hp. destruct p as [|[|[|[|[|p]]]]]; [| | | | |lia].
  all: cbn; eval_incidence; change (INR 1) with 1%R; change (INR 0) with 0%R;
    lra.
Qed.

Lemma get_new_points_averaged_convex_witness :
  exists (X : list (R * R)) (x : R * R),
    get_new_points_averaged square_mesh
      (map vfin [(1 / 2, 0); (1, 1 / 2); (1 / 2, 1); (0, 1 / 2)]%R)
      (fmap (M:=option) (map Fin) None) = Ok (map vfin X)
    /\ X !! 4 = Some x
    /\ (1 * x.1 + 0 * x.2 <= 1)%R.
Proof.
  apply (get_new_points_averaged_convex square_mesh
           [(1 / 2, 0); (1, 1 / 2); (1 / 2, 1); (0, 1 / 2)]%R None 4 1 0 1).
  - exact square_in_range.
  - reflexivity.
  - reflexivity.
  - cbn. repeat (constructor; [lra|]). constructor.
  - intros q Hq. apply square_weight_sums; [lra|exact Hq].
  - cbn. lia.
  - repeat (constructor; [cbn; intros; lra|]). constructor.
Defined.

Lemma odt_rule_candidates_witness :
  exists X,
    odt_rule true None square_mesh
    = Ok (X, set_cell_circumcenters square_mesh
               (map vfin
                  (reference_spec (substituted true square_mesh)
                     [(1 / 2, 1 / 6); (5 / 6, 1 / 2); (1 / 2, 5 / 6);
                      (1 / 6, 1 / 2)]%R
                     [(1 / 2, 0); (1, 1 / 2); (1 / 2, 1); (0, 1 / 2)]%R 4)))
    /\ length X = 5
    /\ forall p, p < 5 ->
         X !! p
         = if default false (is_boundary_point square_mesh !! p)
           then points square_mesh !! p
           else Some (vfin (averaged_spec (cells square_mesh)
                              (reference_spec (substituted true square_mesh)
                                 [(1 / 2, 1 / 6); (5 / 6, 1 / 2);
                                  (1 / 2, 5 / 6); (1 / 6, 1 / 2)]%R
                                 [(1 / 2, 0); (1, 1 / 2); (1 / 2, 1);
                                  (0, 1 / 2)]%R 4)
                              [1 / 4; 1 / 4; 1 / 4; 1 / 4]%R p)).
Proof.
  apply (odt_rule_candidates true square_mesh
           [(1 / 2, 1 / 6); (5 / 6, 1 / 2); (1 / 2, 5 / 6); (1 / 6, 1 / 2)]%R
           [(1 / 2, 0); (1, 1 / 2); (1 / 2, 1); (0, 1 / 2)]%R
           [1 / 4; 1 / 4; 1 / 4; 1 / 4]%R).
  - reflexivity.
  - reflexivity.
  - reflexivity.
  - reflexivity.
  - reflexivity.
  - reflexivity.
  - exact square_in_range.
  - reflexivity.
  - cbn. repeat (constructor; [lia|]). constructor.
  - intros p Hp. apply square_weight_sums; [lra|exact Hp].
Defined.


(** ** The runner at a fixed point of the rule *)

Lemma vdot_vzero : vdot vzero vzero = Fin (0 * 0 + 0 * 0).
Proof. done. Qed.

Lemma fsqrt_zero : fsqrt (Fin (0 * 0 + 0 * 0)) = Fin 0.
Proof.
  cbn. rewrite decide_False by lra. f_equal.
  replace (0 * 0 + 0 * 0)%R with 0%R by lra. apply sqrt_0.
Qed.

Lemma foldl_fmaximum_zeros n :
  foldl fmaximum (Fin 0) (replicate n (Fin 0)) = Fin 0.
Proof.
  induction n as [|n IH]; cbn; [done|].
  rewrite bool_decide_eq_true_2 by lra. exact IH.
Qed.

(** The largest norm of a displacement of zeros. *)
Lemma np_max_zeros n :
  1 <= n ->
  np_max (map fsqrt (diff_norm_2 (replicate n vzero))) = Ok (Fin 0).
Proof.
  intros Hn. unfold diff_norm_2. rewrite !fmap_replicate, vdot_vzero, fsqrt_zero.
  destruct n as [|n]; [lia|]. cbn [replicate np_max]. f_equal.
  apply foldl_fmaximum_zeros.
Qed.

Lemma np_all_zeros (tol : R) n :
  tol <> 0%R ->
  np_all (map (fun x => flt x (fmul (Fin tol) (Fin tol)))
              (diff_norm_2 (replicate n vzero))) = true.
Proof.
  intros Htol. unfold diff_norm_2, np_all.
  rewrite !fmap_replicate, vdot_vzero.
  assert (flt (Fin (0 * 0 + 0 * 0)) (fmul (Fin tol) (Fin tol)) = true) as ->
    by (cbn; apply bool_decide_eq_true; nra).
  induction n as [|n IH]; cbn; [done|exact IH].
Qed.

(** X23: in exact arithmetic (where the square of a tolerance other than
    zero is positive) a mesh the rule leaves alone is returned after one
    pass: when the rule proposes for every point the position it has, and
    the tolerance is not zero, the runner returns after the first pass with
    the largest displacement 0 and the points where they were, whatever the
    relaxation parameter and the cap. *)
Theorem runner_at_fixed_point `{ops : MeshOps} {laws : MeshLaws ops}
    (get_new_points : rule) (omega tol : R) (max_num_steps surface_tol : float)
    (m m1 : mesh) (inr : list R) (fuel : nat) :
  get_new_points (flip_until_delaunay m) = Ok (points m1, m1) ->
  points m1 <> [] ->
  Forall vfinite (points m1) ->
  cells_in_range (length (points m1)) (cells m1) ->
  cell_inradius m1 = map Fin inr ->
  length inr = length (cells m1) ->
  Forall (fun r => 0 <= r)%R inr ->
  tol <> 0%R ->
  exists m',
    runner get_new_points (Fin tol) max_num_steps (Fin omega) None surface_tol
      (S fuel) m = Ok (1, Fin 0, m')
    /\ points m' = points m1.
Proof.
  intros Hrule Hne Hfin Hcs Hinr Hlen Hnn Htol.
  destruct (max_step_bounds m1 inr Hcs Hinr Hlen Hnn) as (ms & Hms & Lms & Nms).
  exists (flip_until_delaunay (update_values (set_points m1 (points m1)))).
  split; [|by rewrite flip_points, update_values_points].
  unfold runner. cbn [runner_loop].
  rewrite (iteration_at_rest _ omega surface_tol fuel _ _ ms Hrule Hfin Hms
             Lms Nms), bind_Ok.
  cbn beta iota. unfold is_final. rewrite np_all_zeros by done. cbn [orb].
  rewrite np_max_zeros; [done|].
  destruct (points m1); [done|cbn; lia].
Qed.

Lemma runner_at_fixed_point_witness :
  exists m',
    runner (ops := rest_ops single_triangle_mesh) (odt_rule true None)
      (Fin (1 / 1000)) PInf (Fin 1) None (Fin (1 / 10000000000)) (S 0)
      triangle_at_rest = Ok (1, Fin 0, m')
    /\ points m' = points triangle_at_rest.
Proof.
  apply (runner_at_fixed_point (ops := rest_ops single_triangle_mesh)
           (laws := rest_laws single_triangle_mesh)
           (odt_rule true None) 1 (1 / 1000) PInf (Fin (1 / 10000000000))
           triangle_at_rest triangle_at_rest [(1 - sqrt 2 / 2)%R] 0).
  - exact (proj2 single_triangle_rule).
  - done.
  - exact triangle_at_rest_finite.
  - repeat constructor.
  - reflexivity.
  - reflexivity.
  - constructor; [|constructor]. pose proof sqrt2_bounds. lra.
  - lra.
Defined.

(** ** The rounding-sensitive steps on the machine *)

(** The exact reading of the generic code is the code the properties above
    are about. *)
Lemma clamp_exact (diff : list vec2) (ms : list float) :
  Generic.clamp (arith := exact_arith) diff ms = clamp diff ms.
Proof. reflexivity. Qed.

Lemma is_final_exact (tol maxn : float) (k : nat) (d : list vec2) :
  Generic.is_final (arith := exact_arith) tol maxn k d
  = Ok (is_final tol maxn k d).
Proof. reflexivity. Qed.

Lemma project_to_surface_exact (s : implicit_surface) (tol : float) fuel :
  forall pts fval,
  Generic.project_to_surface (arith := exact_arith) fuel (surf_f s)
    (surf_grad s) tol pts fval
  = project_to_surface fuel s tol pts fval.
Proof.
  induction fuel as [|fuel IH]; intros pts fval; cbn; [done|].
  destruct (np_any _); [|done]. apply IH.
Qed.

Lemma third_exact : fdiv (of_nat 1) (of_nat (2 + 1)) = Fin (1 / 3).
Proof.
  unfold of_nat. cbn. rewrite decide_False by lra. f_equal. lra.
Qed.

Lemma energy_exact (scheme : quadrature) (m : mesh) (uniform_density : bool) :
  Generic.energy (arith := exact_arith) (integrate scheme) (points m)
    (cells m) (cell_volumes m) uniform_density
  = energy scheme m uniform_density.
Proof.
  unfold Generic.energy, energy, Generic.energy_linear, energy_linear.
  cbn [f_mul f_div f_of_nat exact_arith]. by rewrite third_exact.
Qed.

(** The exact value of the two components of the rescaled step. *)
Lemma rescaled_exact :
  Binary64.float_R Binary64.rescaled.1 = (6928614811339225 / 18014398509481984)%R
  /\ Binary64.float_R Binary64.rescaled.2
     = (8314337773607070 / 9007199254740992)%R.
Proof.
  unfold Binary64.float_R.
  assert (H1 : FloatOps.Prim2SF Binary64.rescaled.1
               = SpecFloat.S754_finite false 6928614811339225 (-54))
    by (vm_compute; reflexivity).
  assert (H2 : FloatOps.Prim2SF Binary64.rescaled.2
               = SpecFloat.S754_finite false 8314337773607070 (-53))
    by (vm_compute; reflexivity).
  rewrite H1, H2. split; reflexivity.
Qed.

Lemma unit_bound_exact : Binary64.float_R Binary64.unit_bound = 1%R.
Proof.
  unfold Binary64.float_R.
  assert (H : FloatOps.Prim2SF Binary64.unit_bound
              = SpecFloat.S754_finite false 4503599627370496 (-52))
    by (vm_compute; reflexivity).
  rewrite H.
  change (IZR 4503599627370496 / IZR 4503599627370496 = 1)%R. lra.
Qed.

(** C1, as the claim states the clamp: false on the machine.  The step
    [(5, 12)] with the bound 1 is rescaled to a step whose norm exceeds the
    bound; a step whose squared norm overflows is replaced by [(0, 0)]; a
    step whose squared norm underflows stays as it is although it exceeds
    its bound. *)
Lemma clamp_in_binary64 :
  Generic.clamp (arith := Binary64.binary64) Binary64.raw_displacements
    Binary64.step_bounds
  = Ok Binary64.clamped_displacements
  /\ (Binary64.float_R Binary64.unit_bound * Binary64.float_R Binary64.unit_bound
      < Binary64.float_R Binary64.rescaled.1
        * Binary64.float_R Binary64.rescaled.1
        + Binary64.float_R Binary64.rescaled.2
          * Binary64.float_R Binary64.rescaled.2)%R
  /\ PrimFloat.ltb Binary64.tiny_bound Binary64.tiny_step.1 = true.
Proof.
  split; [vm_compute; reflexivity|].
  split; [|vm_compute; reflexivity].
  destruct rescaled_exact as [-> ->]. rewrite unit_bound_exact. lra.
Qed.

(** C2, as the claim states the stop by the tolerance: false on the
    machine.  With the tolerance [2^-600], which is positive, a pass that
    moves nothing has its largest displacement norm below the tolerance, and
    yet it does not pass the exit test, because [tol ** 2] is [0.0]; with
    the tolerance [2^600] the test raises [OverflowError]. *)
Lemma exit_test_in_binary64 :
  f_lt (f_of_nat 0) Binary64.tiny_tol = true
  /\ f_lt (f_sqrt (Generic.vdot Binary64.at_rest Binary64.at_rest))
          Binary64.tiny_tol = true
  /\ Generic.is_final (arith := Binary64.binary64) Binary64.tiny_tol
       PrimFloat.infinity 1 Binary64.no_displacement = Ok false
  /\ Generic.is_final (arith := Binary64.binary64) Binary64.huge_tol
       PrimFloat.infinity 1 Binary64.no_displacement = Raise OverflowError.
Proof. repeat split; vm_compute; reflexivity. Qed.

